(** * MicroPulse: order engine, inventory saga and resilient client

    A shallow embedding of the event-sourced order aggregate
    (services/order-service/src/domain/OrderAggregate.ts), the order service's
    cancel command, the inventory model and service with its order event
    handlers and the event bus it publishes to, and the circuit breaker and
    retry handler (shared/utils/src/circuitBreaker.ts), followed by the
    properties stated about them.

    Conventions.  A JavaScript [number] that is a count or a clock reading
    (versions, failure counts, attempt numbers, milliseconds since the epoch)
    is a [Z].  A [number] that the program is given as a measure (prices,
    quantities, delays, the draws of [Math.random]) is a finite double, written
    as the rational [Q] it denotes.  The amounts and delays that the program
    computes from them are doubles, [Number.t]: each operation returns the
    exact result rounded to the nearest double, ties to even, or an infinity
    or NaN as IEEE 754 has it.  Stock quantities are kept as rationals: the
    schema only stores whole numbers, on which the arithmetic of doubles is
    exact up to 2^53.  A thrown [Error] is a record of its [name] and
    [message].  Methods that mutate [this] are state-passing functions that
    return the object as the exception leaves it. *)

From stdpp Require Import gmap strings list fin_maps.
From Stdlib Require Import ZArith QArith Qround Qminmax Qpower Qabs Lqa.
Close Scope Q_scope.

(* ===================================================================== *)
(** * Part I: the program                                                 *)
(* ===================================================================== *)

(** ** JavaScript errors and completions *)

Module JS.

Record Error := { name : string; message : string }.

(** [new Error(msg)] *)
Definition new_Error (msg : string) : Error :=
  {| name := "Error"; message := msg |}.

(** A call either returns or throws. *)
Inductive completion (A : Type) : Type :=
| Return (a : A)
| Throw (e : Error).
Arguments Return {A} a.
Arguments Throw {A} e.

Definition returned {A} (c : completion A) : bool :=
  match c with Return _ => true | Throw _ => false end.

(** [a || b] on strings: the empty string is falsy. *)
Definition or_string (a : option string) (b : string) : string :=
  match a with
  | Some s => if String.eqb s "" then b else s
  | None => b
  end.

(** [a || b] on numbers: [undefined] and [0] are falsy. *)
Definition or_Z (a : option Z) (b : Z) : Z :=
  match a with
  | Some z => if (z =? 0)%Z then b else z
  | None => b
  end.

Definition or_Q (a : option Q) (b : Q) : Q :=
  match a with
  | Some q => if Qeq_bool q 0 then b else q
  | None => b
  end.

(** [x < y] and [x > y] on numbers that are measures. *)
Definition Qlt_bool (x y : Q) : bool := negb (Qle_bool y x).

(** [Number.isInteger] *)
Definition Number_isInteger (x : Q) : bool := Qeq_bool x (inject_Z (Qfloor x)).

End JS.

(** ** JavaScript numbers: IEEE 754 binary64

    A finite double is the rational it denotes; [round] takes a rational to
    the nearest double, ties to even, with gradual underflow.  The two zeros
    are not told apart (nothing here divides by zero or prints one). *)

Module Number.

Definition precision : Z := 53.
Definition emin : Z := -1074.     (* 2^emin is the smallest positive double *)
Definition emax : Z := 1024.      (* 2^emax is the first power of two out of range *)

Definition pow2 (e : Z) : Q := (2 ^ e)%Q.

(** For [x <> 0], the [k] with 2^(k-1) <= |x| < 2^k. *)
Definition magnitude (x : Q) : Z :=
  let k := (Z.log2 (Z.abs (Qnum x)) - Z.log2 (Zpos (Qden x)))%Z in
  if Qle_bool (pow2 k) (Qabs x) then (k + 1)%Z else k.

(** The exponent of the last place of the doubles around [x]. *)
Definition exponent (x : Q) : Z := Z.max (magnitude x - precision) emin.

(** The nearest integer, ties to even. *)
Definition round_half_even (x : Q) : Z :=
  let f := Qfloor x in
  match (x - inject_Z f ?= 1 # 2)%Q with
  | Lt => f
  | Gt => (f + 1)%Z
  | Eq => if Z.even f then f else (f + 1)%Z
  end.

(** The nearest double, the range of the exponent left unbounded above. *)
Definition round (x : Q) : Q :=
  if Qeq_bool x 0 then 0%Q
  else
    let e := exponent x in
    Qred (inject_Z (round_half_even (x / pow2 e)) * pow2 e).

(** [x] is a finite double. *)
Definition is_double (x : Q) : bool :=
  Qeq_bool (round x) x && negb (Qle_bool (pow2 emax) (Qabs x)).

Inductive t :=
| NaN
| Infinity (negative : bool)
| Finite (q : Q).

(** The double that an exact result is rounded to. *)
Definition of_Q (x : Q) : t :=
  let y := round x in
  if Qle_bool (pow2 emax) (Qabs y) then Infinity (negb (Qle_bool 0 y)) else Finite y.

(** [x + y] *)
Definition add (x y : t) : t :=
  match x, y with
  | NaN, _ | _, NaN => NaN
  | Infinity a, Infinity b => if Bool.eqb a b then Infinity a else NaN
  | Infinity a, Finite _ | Finite _, Infinity a => Infinity a
  | Finite a, Finite b => of_Q (a + b)
  end.

(** [x * y] *)
Definition mul (x y : t) : t :=
  match x, y with
  | NaN, _ | _, NaN => NaN
  | Infinity a, Infinity b => Infinity (xorb a b)
  | Infinity a, Finite q | Finite q, Infinity a =>
      if Qeq_bool q 0 then NaN else Infinity (xorb a (negb (Qle_bool 0 q)))
  | Finite a, Finite b => of_Q (a * b)
  end.

(** A correctly rounded [x ** n] for a whole number [n]. *)
Definition pow (x : Q) (n : Z) : t :=
  if Qeq_bool x 0 && (n <? 0)%Z then Infinity false else of_Q (x ^ n).

(** [x <= y] *)
Definition leb (x y : t) : bool :=
  match x, y with
  | NaN, _ | _, NaN => false
  | Infinity a, Infinity b => a || negb b
  | Infinity a, Finite _ => a
  | Finite _, Infinity b => negb b
  | Finite a, Finite b => Qle_bool a b
  end.

(** [Math.min(x, y)] *)
Definition min (x y : t) : t :=
  match x, y with
  | NaN, _ | _, NaN => NaN
  | _, _ => if leb x y then x else y
  end.

(** [Math.floor(x)] *)
Definition floor (x : t) : t :=
  match x with
  | Finite q => Finite (inject_Z (Qfloor q))
  | _ => x
  end.

End Number.

(** Rounding is computed, never unfolded by simplification. *)
Arguments Number.round : simpl never.
Arguments Number.of_Q : simpl never.
Arguments Number.pow2 : simpl never.
Arguments Number.is_double : simpl never.

(** ** The engine's [Math.pow]

    ECMA-262 fixes [Math.pow(x, y)] for the special values of its arguments
    and otherwise asks for an implementation-approximated value, which
    engines do not always round correctly.  The function of the engine, at a
    finite base and a whole exponent, is therefore a parameter of the code
    that calls it; [Number.pow] is the correctly rounded one. *)

Module Engine.

Definition power : Type := Q -> Z -> Number.t.

(** A power of a base that is not negative is not negative (and not NaN). *)
Definition nonnegative (Math_pow : power) : Prop :=
  forall x n, (0 <= x)%Q -> Number.leb (Number.Finite 0) (Math_pow x n) = true.

(** The powers of a base of at least 1 do not decrease with the exponent. *)
Definition monotone (Math_pow : power) : Prop :=
  forall x n n', (1 <= x)%Q -> (n <= n')%Z ->
    Number.leb (Math_pow x n) (Math_pow x n') = true.

End Engine.

(** ** shared/types *)

Module Types.

Inductive OrderStatus :=
| PENDING | CONFIRMED | PROCESSING | SHIPPED | DELIVERED | CANCELLED.

(** The string value of each enum member. *)
Definition OrderStatus_value (s : OrderStatus) : string :=
  match s with
  | PENDING => "pending"
  | CONFIRMED => "confirmed"
  | PROCESSING => "processing"
  | SHIPPED => "shipped"
  | DELIVERED => "delivered"
  | CANCELLED => "cancelled"
  end.

Definition OrderStatus_eqb (a b : OrderStatus) : bool :=
  match a, b with
  | PENDING, PENDING | CONFIRMED, CONFIRMED | PROCESSING, PROCESSING
  | SHIPPED, SHIPPED | DELIVERED, DELIVERED | CANCELLED, CANCELLED => true
  | _, _ => false
  end.

Record OrderItem := {
  productId : string;
  quantity : Q;
  price : Q;
  name : string
}.

Record Address := {
  street : string;
  city : string;
  state : string;
  zipCode : string;
  country : string
}.

End Types.

(** ** Domain events of the order aggregate *)

Module BaseEvent.
Import Types.

(** The [data] of an event, one variant per event interface declared in
    OrderAggregate.ts.  The discriminating [type] string is determined by
    the variant, as the interfaces declare it; an event of any other type
    is [Other ty]. Dates are milliseconds since the epoch. *)
Inductive Data :=
| OrderCreated (orderId userId : string) (items : list OrderItem)
    (totalAmount : Number.t) (shippingAddress : Address) (paymentMethod : string)
| OrderStatusUpdated (orderId : string) (oldStatus newStatus : OrderStatus)
    (updatedBy : option string)
| OrderPaymentProcessed (orderId paymentStatus : string)
    (transactionId paymentGateway : option string)
| OrderShipped (orderId trackingNumber carrier : string) (shippedAt : Z)
    (estimatedDelivery : option Z)
| OrderCancelled (orderId reason : string) (cancelledBy : option string)
    (refundAmount : option Number.t)
| Other (ty : string).

Record t := {
  id : string;
  aggregateId : string;
  aggregateType : string;
  version : Z;
  timestamp : Z;
  data : Data
}.

Definition type (e : t) : string :=
  match data e with
  | OrderCreated _ _ _ _ _ _ => "OrderCreated"
  | OrderStatusUpdated _ _ _ _ => "OrderStatusUpdated"
  | OrderPaymentProcessed _ _ _ _ => "OrderPaymentProcessed"
  | OrderShipped _ _ _ _ _ => "OrderShipped"
  | OrderCancelled _ _ _ _ => "OrderCancelled"
  | Other ty => ty
  end.

(** What the runtime supplies while an event is built: the id that
    [createEvent] assembles from [Date.now()] and [Math.random()], its
    [new Date()] timestamp, the [new Date()] read by shipOrder, each for the
    event being created with a given version, and the result of [uuidv4()]. *)
Record Runtime := {
  fresh_id : Z -> string;
  now : Z -> Z;
  shipped_now : Z -> Z;
  uuidv4 : string
}.

(** shared/utils/src/eventBus.ts, [createEvent]; the [type] argument is
    carried by [data]. *)
Definition createEvent (rt : Runtime) (aggregateId aggregateType : string)
    (data : Data) (version : Z) : t :=
  {| id := fresh_id rt version;
     aggregateId := aggregateId;
     aggregateType := aggregateType;
     version := version;
     timestamp := now rt version;
     data := data |}.

End BaseEvent.

(** ** services/order-service/src/domain/OrderAggregate.ts *)

Module OrderAggregate.
Import JS Types.

Record t := {
  id : string;
  userId : string;
  items : list OrderItem;
  totalAmount : Number.t;
  status : OrderStatus;
  shippingAddress : option Address;   (* [None] is the initial [{}] *)
  paymentMethod : string;
  paymentStatus : string;
  version : Z;
  uncommittedEvents : list BaseEvent.t
}.

(** [constructor(id?)] *)
Definition new (rt : BaseEvent.Runtime) (id : option string) : t :=
  {| id := or_string id (BaseEvent.uuidv4 rt);
     userId := "";
     items := [];
     totalAmount := Number.Finite 0;
     status := PENDING;
     shippingAddress := None;
     paymentMethod := "";
     paymentStatus := "pending";
     version := 0;
     uncommittedEvents := [] |}.

(** A method: runs on [this], returns or throws, and leaves [this]. *)
Definition method (A : Type) : Type := t -> completion A * t.

Definition ret {A} (a : A) : method A := fun this => (Return a, this).
Definition throw {A} (e : Error) : method A := fun this => (Throw e, this).
Definition bind {A B} (m : method A) (k : A -> method B) : method B :=
  fun this =>
    match m this with
    | (Return a, this') => k a this'
    | (Throw e, this') => (Throw e, this')
    end.
Definition read {A} (f : t -> A) : method A := fun this => (Return (f this), this).
Definition assign (f : t -> t) : method unit := fun this => (Return tt, f this).

Notation "x <- m ;; k" := (bind m (fun x => k))
  (at level 100, m at next level, right associativity).
Notation "m ;;; k" := (bind m (fun _ => k))
  (at level 100, right associativity).

Definition markEventsAsCommitted : method unit :=
  assign (fun a =>
    {| id := id a; userId := userId a; items := items a;
       totalAmount := totalAmount a; status := status a;
       shippingAddress := shippingAddress a; paymentMethod := paymentMethod a;
       paymentStatus := paymentStatus a; version := version a;
       uncommittedEvents := [] |}).

(** *** Event application *)

Definition applyOrderCreated (userId' : string) (items' : list OrderItem)
    (totalAmount' : Number.t) (shippingAddress' : Address) (paymentMethod' : string)
    : method unit :=
  assign (fun a =>
    {| id := id a; userId := userId'; items := items';
       totalAmount := totalAmount'; status := PENDING;
       shippingAddress := Some shippingAddress'; paymentMethod := paymentMethod';
       paymentStatus := paymentStatus a; version := version a;
       uncommittedEvents := uncommittedEvents a |}).

Definition applyOrderStatusUpdated (newStatus : OrderStatus) : method unit :=
  assign (fun a =>
    {| id := id a; userId := userId a; items := items a;
       totalAmount := totalAmount a; status := newStatus;
       shippingAddress := shippingAddress a; paymentMethod := paymentMethod a;
       paymentStatus := paymentStatus a; version := version a;
       uncommittedEvents := uncommittedEvents a |}).

Definition applyOrderPaymentProcessed (paymentStatus' : string) : method unit :=
  assign (fun a =>
    {| id := id a; userId := userId a; items := items a;
       totalAmount := totalAmount a; status := status a;
       shippingAddress := shippingAddress a; paymentMethod := paymentMethod a;
       paymentStatus := paymentStatus'; version := version a;
       uncommittedEvents := uncommittedEvents a |}).

Definition applyOrderShipped : method unit := ret tt.
Definition applyOrderCancelled : method unit := ret tt.

(** [this.version = event.version; this.uncommittedEvents.push(event)] *)
Definition record_event (event : BaseEvent.t) : method unit :=
  assign (fun a =>
    {| id := id a; userId := userId a; items := items a;
       totalAmount := totalAmount a; status := status a;
       shippingAddress := shippingAddress a; paymentMethod := paymentMethod a;
       paymentStatus := paymentStatus a; version := BaseEvent.version event;
       uncommittedEvents := uncommittedEvents a ++ [event] |}).

Definition applyEvent (event : BaseEvent.t) : method unit :=
  match BaseEvent.data event with
  | BaseEvent.OrderCreated _ u its tot addr pm => applyOrderCreated u its tot addr pm
  | BaseEvent.OrderStatusUpdated _ _ newStatus _ => applyOrderStatusUpdated newStatus
  | BaseEvent.OrderPaymentProcessed _ ps _ _ => applyOrderPaymentProcessed ps
  | BaseEvent.OrderShipped _ _ _ _ _ => applyOrderShipped
  | BaseEvent.OrderCancelled _ _ _ _ => applyOrderCancelled
  | BaseEvent.Other ty => throw (new_Error ("Unknown event type: " +:+ ty))
  end ;;;
  record_event event.

(** *** Business logic *)

Definition validTransitions (currentStatus : OrderStatus) : list OrderStatus :=
  match currentStatus with
  | PENDING => [CONFIRMED; CANCELLED]
  | CONFIRMED => [PROCESSING; CANCELLED]
  | PROCESSING => [SHIPPED; CANCELLED]
  | SHIPPED => [DELIVERED]
  | DELIVERED => []
  | CANCELLED => []
  end.

Definition isValidStatusTransition (currentStatus newStatus : OrderStatus) : bool :=
  existsb (OrderStatus_eqb newStatus) (validTransitions currentStatus).

(** *** Commands *)

(** [items.reduce((total, item) => total + (item.price * item.quantity), 0)]:
    the products and the sums are those of doubles. *)
Definition reduce_total (its : list OrderItem) : Number.t :=
  fold_left
    (fun total item =>
       Number.add total
         (Number.mul (Number.Finite (price item)) (Number.Finite (quantity item))))
    its (Number.Finite 0).

Definition createOrder (rt : BaseEvent.Runtime) (userId' : string)
    (items' : list OrderItem) (shippingAddress' : Address)
    (paymentMethod' : string) : method unit :=
  v <- read version ;;
  if (0 <? v)%Z then throw (new_Error "Order already exists") else
  if (length items' =? 0)%nat then
    throw (new_Error "Order must have at least one item") else
  let totalAmount' := reduce_total items' in
  if Number.leb totalAmount' (Number.Finite 0) then
    throw (new_Error "Order total must be greater than zero") else
  this_id <- read id ;;
  applyEvent
    (BaseEvent.createEvent rt this_id "Order"
       (BaseEvent.OrderCreated this_id userId' items' totalAmount'
          shippingAddress' paymentMethod')
       (v + 1)).

Definition updateStatus (rt : BaseEvent.Runtime) (newStatus : OrderStatus)
    (updatedBy : option string) : method unit :=
  v <- read version ;;
  if (v =? 0)%Z then throw (new_Error "Order does not exist") else
  st <- read status ;;
  if OrderStatus_eqb st newStatus then ret tt else
  if negb (isValidStatusTransition st newStatus) then
    throw (new_Error ("Invalid status transition from " +:+ OrderStatus_value st
                      +:+ " to " +:+ OrderStatus_value newStatus))
  else
  this_id <- read id ;;
  applyEvent
    (BaseEvent.createEvent rt this_id "Order"
       (BaseEvent.OrderStatusUpdated this_id st newStatus updatedBy)
       (v + 1)).

Definition processPayment (rt : BaseEvent.Runtime) (paymentStatus' : string)
    (transactionId paymentGateway : option string) : method unit :=
  v <- read version ;;
  if (v =? 0)%Z then throw (new_Error "Order does not exist") else
  this_id <- read id ;;
  applyEvent
    (BaseEvent.createEvent rt this_id "Order"
       (BaseEvent.OrderPaymentProcessed this_id paymentStatus' transactionId
          paymentGateway)
       (v + 1)) ;;;
  st <- read status ;;
  if String.eqb paymentStatus' "completed" && OrderStatus_eqb st PENDING
  then updateStatus rt CONFIRMED None
  else ret tt.

Definition shipOrder (rt : BaseEvent.Runtime) (trackingNumber carrier : string)
    (estimatedDelivery : option Z) : method unit :=
  v <- read version ;;
  if (v =? 0)%Z then throw (new_Error "Order does not exist") else
  st <- read status ;;
  if negb (OrderStatus_eqb st PROCESSING) then
    throw (new_Error "Order must be in processing status to ship") else
  this_id <- read id ;;
  applyEvent
    (BaseEvent.createEvent rt this_id "Order"
       (BaseEvent.OrderShipped this_id trackingNumber carrier
          (BaseEvent.shipped_now rt (v + 1)) estimatedDelivery)
       (v + 1)) ;;;
  updateStatus rt SHIPPED None.

Definition cancelOrder (rt : BaseEvent.Runtime) (reason : string)
    (cancelledBy : option string) (refundAmount : option Number.t) : method unit :=
  v <- read version ;;
  if (v =? 0)%Z then throw (new_Error "Order does not exist") else
  st <- read status ;;
  if OrderStatus_eqb st DELIVERED || OrderStatus_eqb st CANCELLED then
    throw (new_Error ("Cannot cancel order with status " +:+ OrderStatus_value st))
  else
  this_id <- read id ;;
  applyEvent
    (BaseEvent.createEvent rt this_id "Order"
       (BaseEvent.OrderCancelled this_id reason cancelledBy refundAmount)
       (v + 1)) ;;;
  updateStatus rt CANCELLED None.

(** *** Hydration from events *)

(** [events.forEach(event => aggregate.applyEvent(event))] *)
Fixpoint forEach_applyEvent (events : list BaseEvent.t) : method unit :=
  match events with
  | [] => ret tt
  | event :: rest => applyEvent event ;;; forEach_applyEvent rest
  end.

(** [static fromEvents(events)]: the aggregate it returns, or the error it
    throws. *)
Definition fromEvents (rt : BaseEvent.Runtime) (events : list BaseEvent.t)
    : completion t :=
  match events with
  | [] => Throw (new_Error "Cannot create aggregate from empty event stream")
  | first :: _ =>
      let aggregate := new rt (Some (BaseEvent.aggregateId first)) in
      match (forEach_applyEvent events ;;; markEventsAsCommitted) aggregate with
      | (Return _, aggregate') => Return aggregate'
      | (Throw e, _) => Throw e
      end
  end.

(** *** Command sequences on a live aggregate *)

Inductive Command :=
| CreateOrder (userId : string) (items : list OrderItem)
    (shippingAddress : Address) (paymentMethod : string)
| UpdateStatus (newStatus : OrderStatus) (updatedBy : option string)
| ProcessPayment (paymentStatus : string) (transactionId paymentGateway : option string)
| ShipOrder (trackingNumber carrier : string) (estimatedDelivery : option Z)
| CancelOrder (reason : string) (cancelledBy : option string)
    (refundAmount : option Number.t).

Definition execute (rt : BaseEvent.Runtime) (c : Command) : method unit :=
  match c with
  | CreateOrder u its addr pm => createOrder rt u its addr pm
  | UpdateStatus s by_ => updateStatus rt s by_
  | ProcessPayment ps tx gw => processPayment rt ps tx gw
  | ShipOrder tn ca eta => shipOrder rt tn ca eta
  | CancelOrder r by_ amt => cancelOrder rt r by_ amt
  end.

(** The commands run one after the other; the first that throws ends the run. *)
Fixpoint execute_all (rt : BaseEvent.Runtime) (cs : list Command) : method unit :=
  match cs with
  | [] => ret tt
  | c :: rest => execute rt c ;;; execute_all rt rest
  end.

End OrderAggregate.

(** ** services/order-service/src/services/orderService.ts *)

Module OrderService.
Import JS Types.

(** [cancelOrder], between [getById] and [save]: the refund is decided from
    the loaded aggregate, then the command runs on it. *)
Definition cancelOrder (rt : BaseEvent.Runtime) (reason : string)
    (cancelledBy : option string) : OrderAggregate.method unit :=
  fun aggregate =>
    let refundAmount :=
      if OrderStatus_eqb (OrderAggregate.status aggregate) CONFIRMED
      then Some (OrderAggregate.totalAmount aggregate)
      else None in
    OrderAggregate.cancelOrder rt reason cancelledBy refundAmount aggregate.

End OrderService.

(** ** services/inventory-service/src/models/Inventory.ts *)

Module Movement.

Inductive Kind := IN | OUT | RESERVED | RELEASED | ADJUSTMENT.

Definition Kind_eqb (a b : Kind) : bool :=
  match a, b with
  | IN, IN | OUT, OUT | RESERVED, RESERVED | RELEASED, RELEASED
  | ADJUSTMENT, ADJUSTMENT => true
  | _, _ => false
  end.

Record t := {
  type : Kind;
  quantity : Q;
  reason : string;
  reference : option string;
  userId : option string;
  timestamp : Z
}.

End Movement.

Module Inventory.
Import JS.

(** The document; [location], [alerts] and [maxStock] are never written by the
    code embedded here and are left out. *)
Record InventoryDocument := {
  productId : string;
  quantity : Q;
  reservedQuantity : Q;
  lastUpdated : Z;
  lowStockThreshold : Q;
  reorderPoint : Q;
  movements : list Movement.t
}.

(** The collection, with its unique index on [productId]. *)
Abbreviation Collection := (gmap string InventoryDocument).

(** Every way an inventory call fails, one constructor per [throw] site or
    save rejection; the comment gives the JavaScript error. *)
Inductive Failure :=
| Reserve_quantity_must_be_positive          (* Error *)
| Insufficient_available_quantity_to_reserve (* Error *)
| Release_quantity_must_be_positive          (* Error *)
| Cannot_release_more_than_reserved          (* Error *)
| Quantity_cannot_be_negative                (* Error *)
| New_quantity_less_than_reserved            (* Error *)
| Add_quantity_must_be_positive              (* Error *)
| Remove_quantity_must_be_positive           (* Error *)
| Insufficient_quantity_to_remove            (* Error *)
| Reserved_quantity_cannot_exceed_total      (* Error, pre-save hook *)
| Validation_failed (path : string)          (* mongoose ValidationError on save *)
| Inventory_already_exists                   (* ConflictError *)
| Inventory_not_found                        (* NotFoundError *)
| Failed_to_initialize_inventory             (* Error *)
| Insufficient_stock (productId : string) (available requested : Q)
                                             (* ValidationError *)
| Items_not_iterable                         (* TypeError *)
| Publish_failed (e : Error).                (* what eventBus.publish threw *)

(** The [name] of the error object thrown. *)
Definition Failure_name (f : Failure) : string :=
  match f with
  | Validation_failed _ | Insufficient_stock _ _ _ => "ValidationError"
  | Inventory_already_exists => "ConflictError"
  | Inventory_not_found => "NotFoundError"
  | Items_not_iterable => "TypeError"
  | Publish_failed e => name e
  | _ => "Error"
  end.

Inductive outcome (A : Type) : Type :=
| Resolved (a : A)
| Rejected (f : Failure).
Arguments Resolved {A} a.
Arguments Rejected {A} f.

(** *** Virtuals *)

(** [Math.max(0, this.quantity - this.reservedQuantity)] *)
Definition availableQuantity (d : InventoryDocument) : Q :=
  Qmax 0 (quantity d - reservedQuantity d).

(** *** save *)

(** The schema's validators, in path order; the first path that fails is
    reported. [required] on a string rejects the empty string. *)
Definition validate_movement (m : Movement.t) : bool :=
  negb (String.eqb (Movement.reason m) "").

Definition validate (d : InventoryDocument) : option Failure :=
  if String.eqb (productId d) "" then Some (Validation_failed "productId") else
  if negb (Qle_bool 0 (quantity d) && (Number_isInteger (quantity d) && Qle_bool 0 (quantity d)))
  then Some (Validation_failed "quantity") else
  if negb (Qle_bool 0 (reservedQuantity d)
           && (Number_isInteger (reservedQuantity d) && Qle_bool 0 (reservedQuantity d)))
  then Some (Validation_failed "reservedQuantity") else
  if negb (Qle_bool 0 (lowStockThreshold d)) then Some (Validation_failed "lowStockThreshold") else
  if negb (Qle_bool 0 (reorderPoint d)) then Some (Validation_failed "reorderPoint") else
  if negb (forallb validate_movement (movements d)) then Some (Validation_failed "movements")
  else None.

(** [this.isModified(path)] for a numeric path: the document is new, or the
    value differs from the stored one. *)
Definition isModified (path : InventoryDocument -> Q) (d : InventoryDocument)
    (db : Collection) : bool :=
  match db !! productId d with
  | None => true
  | Some stored => negb (Qeq_bool (path stored) (path d))
  end.

(** First pre-save hook: refresh [lastUpdated]. *)
Definition pre_save_lastUpdated (now : Z) (db : Collection) (d : InventoryDocument)
    : InventoryDocument :=
  if isModified quantity d db || isModified reservedQuantity d db then
    {| productId := productId d; quantity := quantity d;
       reservedQuantity := reservedQuantity d; lastUpdated := now;
       lowStockThreshold := lowStockThreshold d; reorderPoint := reorderPoint d;
       movements := movements d |}
  else d.

(** Second pre-save hook: the reserved quantity may not exceed the total. *)
Definition pre_save_reserved (d : InventoryDocument) : option Failure :=
  if Qlt_bool (quantity d) (reservedQuantity d)
  then Some Reserved_quantity_cannot_exceed_total
  else None.

(** [this.save()]: validation, then the hooks in the order they are
    registered, then the write.  Returns the document as it is left in memory
    and the collection. *)
Definition save (now : Z) (d : InventoryDocument) (db : Collection)
    : outcome unit * InventoryDocument * Collection :=
  match validate d with
  | Some f => (Rejected f, d, db)
  | None =>
      let d1 := pre_save_lastUpdated now db d in
      match pre_save_reserved d1 with
      | Some f => (Rejected f, d1, db)
      | None => (Resolved tt, d1, <[productId d1 := d1]> db)
      end
  end.

(** *** Instance methods *)

Definition with_reserved (d : InventoryDocument) (r : Q) (m : Movement.t)
    : InventoryDocument :=
  {| productId := productId d; quantity := quantity d; reservedQuantity := r;
     lastUpdated := lastUpdated d; lowStockThreshold := lowStockThreshold d;
     reorderPoint := reorderPoint d; movements := movements d ++ [m] |}.

Definition with_quantity (d : InventoryDocument) (q : Q) (m : Movement.t)
    : InventoryDocument :=
  {| productId := productId d; quantity := q;
     reservedQuantity := reservedQuantity d;
     lastUpdated := lastUpdated d; lowStockThreshold := lowStockThreshold d;
     reorderPoint := reorderPoint d; movements := movements d ++ [m] |}.

Definition movement (k : Movement.Kind) (q : Q) (reason : string)
    (reference userId : option string) (now : Z) : Movement.t :=
  {| Movement.type := k; Movement.quantity := q; Movement.reason := reason;
     Movement.reference := reference; Movement.userId := userId;
     Movement.timestamp := now |}.

Definition reserve (now : Z) (this : InventoryDocument) (qty : Q) (reason : string)
    (reference userId : option string) (db : Collection)
    : outcome unit * InventoryDocument * Collection :=
  if Qle_bool qty 0 then (Rejected Reserve_quantity_must_be_positive, this, db) else
  if Qlt_bool (availableQuantity this) qty
  then (Rejected Insufficient_available_quantity_to_reserve, this, db) else
  save now
    (with_reserved this (reservedQuantity this + qty)
       (movement Movement.RESERVED qty reason reference userId now))
    db.

Definition release (now : Z) (this : InventoryDocument) (qty : Q) (reason : string)
    (reference userId : option string) (db : Collection)
    : outcome unit * InventoryDocument * Collection :=
  if Qle_bool qty 0 then (Rejected Release_quantity_must_be_positive, this, db) else
  if Qlt_bool (reservedQuantity this) qty
  then (Rejected Cannot_release_more_than_reserved, this, db) else
  save now
    (with_reserved this (reservedQuantity this - qty)
       (movement Movement.RELEASED qty reason reference userId now))
    db.

Definition adjust (now : Z) (this : InventoryDocument) (newQuantity : Q)
    (reason : string) (userId : option string) (db : Collection)
    : outcome unit * InventoryDocument * Collection :=
  if Qlt_bool newQuantity 0 then (Rejected Quantity_cannot_be_negative, this, db) else
  if Qlt_bool newQuantity (reservedQuantity this)
  then (Rejected New_quantity_less_than_reserved, this, db) else
  let difference := (newQuantity - quantity this)%Q in
  save now
    (with_quantity this newQuantity
       (movement Movement.ADJUSTMENT difference reason None userId now))
    db.

Definition addStock (now : Z) (this : InventoryDocument) (qty : Q) (reason : string)
    (reference userId : option string) (db : Collection)
    : outcome unit * InventoryDocument * Collection :=
  if Qle_bool qty 0 then (Rejected Add_quantity_must_be_positive, this, db) else
  save now
    (with_quantity this (quantity this + qty)
       (movement Movement.IN qty reason reference userId now))
    db.

Definition removeStock (now : Z) (this : InventoryDocument) (qty : Q) (reason : string)
    (reference userId : option string) (db : Collection)
    : outcome unit * InventoryDocument * Collection :=
  if Qle_bool qty 0 then (Rejected Remove_quantity_must_be_positive, this, db) else
  if Qlt_bool (quantity this) qty
  then (Rejected Insufficient_quantity_to_remove, this, db) else
  save now
    (with_quantity this (quantity this - qty)
       (movement Movement.OUT qty reason reference userId now))
    db.

End Inventory.

(** ** shared/utils/src/eventBus.ts: the events of the inventory service and
    the bus they are published to *)

Module InventoryEvent.

(** The [data] of the events that the inventory service publishes. *)
Inductive Data :=
| InventoryCreated (productId : string) (initialStock : Q) (reason : string)
    (userId : option string)
| StockReserved (productId : string) (quantity : Q) (reason : string)
    (reference userId : option string) (availableQuantity : Q)
| StockReleased (productId : string) (quantity : Q) (reason : string)
    (reference userId : option string) (availableQuantity : Q).

(** The event; its [id], built from the clock and random digits, is left out. *)
Record t := {
  aggregateId : string;
  aggregateType : string;
  version : Z;
  timestamp : Z;
  data : Data
}.

Definition type (e : t) : string :=
  match data e with
  | InventoryCreated _ _ _ _ => "InventoryCreated"
  | StockReserved _ _ _ _ _ _ => "StockReserved"
  | StockReleased _ _ _ _ _ _ => "StockReleased"
  end.

(** [createEvent(type, aggregateId, aggregateType, data)]: the version
    defaults to 1. *)
Definition createEvent (now : Z) (aggregateId aggregateType : string) (data : Data) : t :=
  {| aggregateId := aggregateId; aggregateType := aggregateType; version := 1;
     timestamp := now; data := data |}.

End InventoryEvent.

Module EventBus.
Import JS.

Record Message := {
  exchange : string;
  routingKey : string;
  event : InventoryEvent.t
}.

(** What [channel.publish] does with a message: it takes it and returns
    true, it takes it and returns false because its write buffer is full, or
    it throws. *)
Inductive Answer :=
| Taken
| Buffer_full
| Threw (e : Error).

(** The amqplib channel: its answer to each call of [publish] in turn, the
    number of calls so far, and the messages it was handed, oldest first. *)
Record Channel := {
  answers : nat -> Answer;
  calls : nat;
  handed : list Message
}.

Record t := {
  isConnected : bool;
  channel : option Channel
}.

Definition called (ch : Channel) (taken : list Message) : Channel :=
  {| answers := answers ch; calls := S (calls ch); handed := handed ch ++ taken |}.

Definition with_channel (this : t) (ch : Channel) : t :=
  {| isConnected := isConnected this; channel := Some ch |}.

(** [publish(exchange, routingKey, event)]; the [catch] logs and rethrows. *)
Definition publish (exchange routingKey : string) (event : InventoryEvent.t) (this : t)
    : completion unit * t :=
  match isConnected this, channel this with
  | true, Some ch =>
      let message :=
        {| exchange := exchange; routingKey := routingKey; event := event |} in
      match answers ch (calls ch) with
      | Taken => (Return tt, with_channel this (called ch [message]))
      | Buffer_full =>
          (Throw (new_Error "Failed to publish event - channel buffer full"),
           with_channel this (called ch [message]))
      | Threw e => (Throw e, with_channel this (called ch []))
      end
  | _, _ => (Throw (new_Error "EventBus not connected"), this)
  end.

(** The bus is connected and its channel takes the next [k] messages. *)
Definition ready (this : t) (k : nat) : Prop :=
  isConnected this = true
  /\ exists ch, channel this = Some ch
       /\ forall i, (i < k)%nat -> answers ch (calls ch + i) = Taken.

End EventBus.

(** ** services/inventory-service/src/services/inventoryService.ts

    The service works on the collection and on the event bus it was built
    with.  Logging is left out; the clock is read once per call. *)

Module InventoryService.
Import JS Inventory.

Record World := {
  inventories : Collection;
  eventBus : EventBus.t
}.

(** [Inventory.findByProductId(productId)] *)
Definition findByProductId (productId : string) (db : Collection)
    : option InventoryDocument :=
  db !! productId.

(** [new Inventory({productId, quantity, reservedQuantity: 0, movements})]
    with the schema defaults. *)
Definition new_Inventory (now : Z) (productId : string) (quantity : Q)
    (movements : list Movement.t) : InventoryDocument :=
  {| Inventory.productId := productId; Inventory.quantity := quantity;
     reservedQuantity := 0; lastUpdated := now;
     lowStockThreshold := 10; reorderPoint := 5;
     Inventory.movements := movements |}.

(** The collection as a document method left it, the bus untouched. *)
Definition stored (w : World) (db : Collection) : World :=
  {| inventories := db; eventBus := eventBus w |}.

(** [await this.eventBus.publish('micropulse.events', routingKey, event)]
    once the collection is [db]: a throw rejects the call. *)
Definition publish (now : Z) (routingKey aggregateId : string)
    (data : InventoryEvent.Data) (w : World) (db : Collection) : outcome unit * World :=
  match EventBus.publish "micropulse.events" routingKey
          (InventoryEvent.createEvent now aggregateId "Inventory" data) (eventBus w) with
  | (Return _, bus) => (Resolved tt, {| inventories := db; eventBus := bus |})
  | (Throw e, bus) => (Rejected (Publish_failed e), {| inventories := db; eventBus := bus |})
  end.

Definition initializeInventory (now : Z) (productId : string) (initialStock : Q)
    (reason : string) (userId : option string) (w : World) : outcome unit * World :=
  match findByProductId productId (inventories w) with
  | Some _ => (Rejected Inventory_already_exists, w)
  | None =>
      let inventory :=
        new_Inventory now productId initialStock
          (if Qlt_bool 0 initialStock
           then [movement Movement.IN initialStock reason None userId now]
           else []) in
      match save now inventory (inventories w) with
      | (Rejected f, _, db) => (Rejected f, stored w db)
      | (Resolved _, _, db) =>
          publish now "inventory.created" productId
            (InventoryEvent.InventoryCreated productId initialStock reason userId) w db
      end
  end.

Definition reserveStock (now : Z) (productId : string) (quantity : Q)
    (reason : string) (reference userId : option string) (w : World)
    : outcome unit * World :=
  match findByProductId productId (inventories w) with
  | None =>
      match initializeInventory now productId 0 "Auto-initialized for reservation"
              None w with
      | (Rejected f, w') => (Rejected f, w')
      | (Resolved _, w') =>
          match findByProductId productId (inventories w') with
          | None => (Rejected Failed_to_initialize_inventory, w')
          | Some _ =>
              if Qlt_bool 0 quantity
              then (Rejected (Insufficient_stock productId 0 quantity), w')
              else (Resolved tt, w')
          end
      end
  | Some inventory =>
      if Qlt_bool (availableQuantity inventory) quantity
      then (Rejected (Insufficient_stock productId (availableQuantity inventory)
                        quantity), w)
      else
        match reserve now inventory quantity reason reference userId (inventories w) with
        | (Rejected f, _, db) => (Rejected f, stored w db)
        | (Resolved _, inventory', db) =>
            (* [inventory.availableQuantity] is read after the reservation *)
            publish now "inventory.reserved" productId
              (InventoryEvent.StockReserved productId quantity reason reference userId
                 (availableQuantity inventory' - quantity)) w db
        end
  end.

Definition releaseStock (now : Z) (productId : string) (quantity : Q)
    (reason : string) (reference userId : option string) (w : World)
    : outcome unit * World :=
  match findByProductId productId (inventories w) with
  | None => (Rejected Inventory_not_found, w)
  | Some inventory =>
      match release now inventory quantity reason reference userId (inventories w) with
      | (Rejected f, _, db) => (Rejected f, stored w db)
      | (Resolved _, inventory', db) =>
          (* [inventory.availableQuantity] is read after the release *)
          publish now "inventory.released" productId
            (InventoryEvent.StockReleased productId quantity reason reference userId
               (availableQuantity inventory' + quantity)) w db
      end
  end.

Definition syncProductStock (now : Z) (productId : string) (newStock : Q)
    (reason : string) (userId : option string) (w : World) : outcome unit * World :=
  match findByProductId productId (inventories w) with
  | None => initializeInventory now productId newStock reason userId w
  | Some inventory =>
      let '(r, _, db) := adjust now inventory newStock reason userId (inventories w) in
      (r, stored w db)
  end.

(** *** The operations on an inventory record

    [initialize] is [initializeInventory]; the others are the instance methods
    called on the document that [findByProductId] returns. *)
Inductive Operation :=
| Initialize (productId : string) (initialStock : Q) (reason : string)
    (userId : option string)
| Reserve (productId : string) (quantity : Q) (reason : string)
    (reference userId : option string)
| Release (productId : string) (quantity : Q) (reason : string)
    (reference userId : option string)
| Adjust (productId : string) (newQuantity : Q) (reason : string)
    (userId : option string)
| AddStock (productId : string) (quantity : Q) (reason : string)
    (reference userId : option string)
| RemoveStock (productId : string) (quantity : Q) (reason : string)
    (reference userId : option string).

Definition on_document (productId : string) (w : World)
    (call : InventoryDocument -> outcome unit * InventoryDocument * Collection)
    : outcome unit * World :=
  match findByProductId productId (inventories w) with
  | None => (Rejected Inventory_not_found, w)
  | Some inventory => let '(r, _, db) := call inventory in (r, stored w db)
  end.

Definition perform (now : Z) (op : Operation) (w : World) : outcome unit * World :=
  match op with
  | Initialize p q reason u => initializeInventory now p q reason u w
  | Reserve p q reason ref u =>
      on_document p w (fun d => reserve now d q reason ref u (inventories w))
  | Release p q reason ref u =>
      on_document p w (fun d => release now d q reason ref u (inventories w))
  | Adjust p q reason u =>
      on_document p w (fun d => adjust now d q reason u (inventories w))
  | AddStock p q reason ref u =>
      on_document p w (fun d => addStock now d q reason ref u (inventories w))
  | RemoveStock p q reason ref u =>
      on_document p w (fun d => removeStock now d q reason ref u (inventories w))
  end.

(** A history of operations, each at its own clock reading; a failed
    operation does not stop the ones after it. *)
Fixpoint perform_all (ops : list (Z * Operation)) (w : World) : World :=
  match ops with
  | [] => w
  | (now, op) :: rest => perform_all rest (snd (perform now op w))
  end.

End InventoryService.

(** ** services/inventory-service/src/handlers/orderEventHandlers.ts *)

Module OrderCreatedHandler.
Import JS Inventory.

(** [for (const item of items) await reserveStock(...)]: the first rejection
    ends the loop. *)
Fixpoint reserve_items (now : Z) (orderId : string) (items : list Types.OrderItem)
    (w : InventoryService.World) : outcome unit * InventoryService.World :=
  match items with
  | [] => (Resolved tt, w)
  | item :: rest =>
      match InventoryService.reserveStock now (Types.productId item)
              (Types.quantity item)
              ("Order reservation for order " +:+ orderId) (Some orderId) None w with
      | (Rejected f, w') => (Rejected f, w')
      | (Resolved _, w') => reserve_items now orderId rest w'
      end
  end.

Definition handle (now : Z) (event : BaseEvent.t) (w : InventoryService.World)
    : outcome unit * InventoryService.World :=
  match BaseEvent.data event with
  | BaseEvent.OrderCreated orderId _ items _ _ _ => reserve_items now orderId items w
  | _ => (Rejected Items_not_iterable, w)
  end.

End OrderCreatedHandler.

(** ** The world seen by the resilience wrappers

    The wrapped function is an effectful call: it reads and changes whatever
    it talks to ([remote]) and takes time.  The wrappers read the clock, draw
    random numbers and sleep. *)

Module Async.

Record World (S : Type) := {
  clock : Z;              (* Date.now() *)
  entropy : nat -> Q;     (* the successive results of Math.random() *)
  drawn : nat;            (* how many have been drawn *)
  remote : S
}.
Arguments clock {S} w.
Arguments entropy {S} w.
Arguments drawn {S} w.
Arguments remote {S} w.

(** A promise settles: it resolves with a value or rejects with an error. *)
Inductive settled (T : Type) : Type :=
| Resolved (v : T)
| Rejected (e : JS.Error).
Arguments Resolved {T} v.
Arguments Rejected {T} e.

(** [() => Promise<T>] *)
Definition task (S T : Type) : Type := World S -> settled T * World S.

Definition Math_random {S} (w : World S) : Q * World S :=
  (entropy w (drawn w),
   {| clock := clock w; entropy := entropy w; drawn := Datatypes.S (drawn w);
      remote := remote w |}).

(** The milliseconds a timer set with [setTimeout(f, ms)] waits: a delay
    that is NaN or infinite is replaced, and the timer fires at once. *)
Definition timer (ms : Number.t) : Z :=
  match ms with
  | Number.Finite q => Qfloor q
  | _ => 0%Z
  end.

(** [new Promise(resolve => setTimeout(resolve, ms))]: the timer is taken to
    fire exactly on time. *)
Definition sleep {S} (ms : Z) (w : World S) : World S :=
  {| clock := clock w + Z.max 0 ms; entropy := entropy w; drawn := drawn w;
     remote := remote w |}.

(** [haystack.includes(needle)] *)
Definition includes (haystack needle : string) : bool :=
  match String.index 0 needle haystack with
  | Some _ => true
  | None => false
  end.

End Async.

(** ** shared/utils/src/circuitBreaker.ts: CircuitBreaker *)

Module CircuitBreaker.
Import JS Async.

Inductive State := CLOSED | OPEN | HALF_OPEN.

Record CircuitBreakerOptions := {
  failureThreshold : Z;
  resetTimeout : Z;
  monitoringPeriod : Z;
  expectedErrors : list string
}.

(** [Partial<CircuitBreakerOptions>] *)
Record PartialOptions := {
  failureThreshold_opt : option Z;
  resetTimeout_opt : option Z;
  monitoringPeriod_opt : option Z;
  expectedErrors_opt : option (list string)
}.

Record t := {
  state : State;
  failureCount : Z;
  lastFailureTime : option Z;
  nextAttempt : option Z;
  options : CircuitBreakerOptions;
  name : string
}.

Definition new (name : string) (o : PartialOptions) : t :=
  {| state := CLOSED;
     failureCount := 0;
     lastFailureTime := None;
     nextAttempt := None;
     options :=
       {| failureThreshold := or_Z (failureThreshold_opt o) 5;
          resetTimeout := or_Z (resetTimeout_opt o) 60000;
          monitoringPeriod := or_Z (monitoringPeriod_opt o) 10000;
          expectedErrors := default [] (expectedErrors_opt o) |};
     name := name |}.

(** [defaultCircuitBreakerOptions], with CIRCUIT_BREAKER_ERROR_THRESHOLD and
    CIRCUIT_BREAKER_RESET_TIMEOUT unset. *)
Definition defaultCircuitBreakerOptions : CircuitBreakerOptions :=
  {| failureThreshold := 5;
     resetTimeout := 30000;
     monitoringPeriod := 10000;
     expectedErrors := ["ValidationError"; "AuthenticationError"; "AuthorizationError"] |}.

Definition partial (o : CircuitBreakerOptions) : PartialOptions :=
  {| failureThreshold_opt := Some (failureThreshold o);
     resetTimeout_opt := Some (resetTimeout o);
     monitoringPeriod_opt := Some (monitoringPeriod o);
     expectedErrors_opt := Some (expectedErrors o) |}.

Definition isExpectedError (this : t) (error : Error) : bool :=
  existsb
    (fun expectedError =>
       includes (JS.message error) expectedError
       || String.eqb (JS.name error) expectedError)
    (expectedErrors (options this)).

(** [this.nextAttempt ? new Date() >= this.nextAttempt : false] *)
Definition shouldAttemptReset (this : t) (now : Z) : bool :=
  match nextAttempt this with
  | Some at_ => (at_ <=? now)%Z
  | None => false
  end.

Definition onSuccess (this : t) : t :=
  {| state := match state this with HALF_OPEN => CLOSED | s => s end;
     failureCount := 0;
     lastFailureTime := None;
     nextAttempt := nextAttempt this;
     options := options this;
     name := name this |}.

Definition onFailure (now : Z) (this : t) (error : Error) : t :=
  if isExpectedError this error then this else
  let count := (failureCount this + 1)%Z in
  if (failureThreshold (options this) <=? count)%Z then
    {| state := OPEN;
       failureCount := count;
       lastFailureTime := Some now;
       nextAttempt := Some (now + resetTimeout (options this))%Z;
       options := options this;
       name := name this |}
  else
    {| state := state this;
       failureCount := count;
       lastFailureTime := Some now;
       nextAttempt := nextAttempt this;
       options := options this;
       name := name this |}.

Definition to_HALF_OPEN (this : t) : t :=
  {| state := HALF_OPEN;
     failureCount := failureCount this;
     lastFailureTime := lastFailureTime this;
     nextAttempt := nextAttempt this;
     options := options this;
     name := name this |}.

(** The call [fn()] and what follows it in [execute]. *)
Definition run {S T} (this : t) (fn : task S T) (w : World S)
    : settled T * t * World S :=
  match fn w with
  | (Resolved result, w') => (Resolved result, onSuccess this, w')
  | (Rejected error, w') => (Rejected error, onFailure (clock w') this error, w')
  end.

Definition execute {S T} (this : t) (fn : task S T) (w : World S)
    : settled T * t * World S :=
  match state this with
  | OPEN =>
      if shouldAttemptReset this (clock w)
      then run (to_HALF_OPEN this) fn w
      else (Rejected (new_Error ("Circuit breaker " +:+ name this +:+ " is OPEN")),
            this, w)
  | _ => run this fn w
  end.

Definition reset (this : t) : t :=
  {| state := CLOSED;
     failureCount := 0;
     lastFailureTime := None;
     nextAttempt := None;
     options := options this;
     name := name this |}.

(** The breakers a program can hold: built by the constructor and changed by
    [execute] and [reset] only (the fields are private). *)
Inductive reachable : t -> Prop :=
| reachable_new name o : reachable (new name o)
| reachable_execute {S T : Type} this (fn : task S T) (w : World S) :
    reachable this -> reachable (snd (fst (execute this fn w)))
| reachable_reset this : reachable this -> reachable (reset this).

(** What holds of every breaker a program can hold, when its threshold is
    positive. *)
Definition consistent (this : t) : Prop :=
  match state this with
  | CLOSED => (failureCount this < failureThreshold (options this))%Z
  | OPEN => (failureThreshold (options this) <= failureCount this)%Z
            /\ is_Some (nextAttempt this)
  | HALF_OPEN => (failureThreshold (options this) <= failureCount this)%Z
  end.

End CircuitBreaker.

(** ** shared/utils/src/circuitBreaker.ts: RetryHandler *)

Module RetryHandler.
Import JS Async.

Record RetryOptions := {
  maxAttempts : Z;
  baseDelay : Q;
  maxDelay : Q;
  backoffMultiplier : Q;
  jitter : bool;
  retryCondition : Error -> bool
}.

(** [Partial<RetryOptions>] *)
Record PartialOptions := {
  maxAttempts_opt : option Z;
  baseDelay_opt : option Q;
  maxDelay_opt : option Q;
  backoffMultiplier_opt : option Q;
  jitter_opt : option bool;
  retryCondition_opt : option (Error -> bool)
}.

Definition new (o : PartialOptions) : RetryOptions :=
  {| maxAttempts := or_Z (maxAttempts_opt o) 3;
     baseDelay := or_Q (baseDelay_opt o) 1000;
     maxDelay := or_Q (maxDelay_opt o) 30000;
     backoffMultiplier := or_Q (backoffMultiplier_opt o) 2;
     jitter := default true (jitter_opt o);
     retryCondition := default (fun _ => true) (retryCondition_opt o) |}.

Definition nonRetryableErrors : list string :=
  ["ValidationError"; "AuthenticationError"; "AuthorizationError"].

Definition defaultRetryOptions : RetryOptions :=
  {| maxAttempts := 3;
     baseDelay := 1000;
     maxDelay := 10000;
     backoffMultiplier := 2;
     jitter := true;
     retryCondition := fun error =>
       negb (existsb (String.eqb (JS.name error)) nonRetryableErrors) |}.

Definition partial (o : RetryOptions) : PartialOptions :=
  {| maxAttempts_opt := Some (maxAttempts o);
     baseDelay_opt := Some (baseDelay o);
     maxDelay_opt := Some (maxDelay o);
     backoffMultiplier_opt := Some (backoffMultiplier o);
     jitter_opt := Some (jitter o);
     retryCondition_opt := Some (retryCondition o) |}.

(** What [execute] ends with: the value, the last error, or [undefined] thrown
    when the loop body never ran. *)
Inductive result (T : Type) : Type :=
| Returned (v : T)
| Thrown (e : Error)
| Thrown_undefined.
Arguments Returned {T} v.
Arguments Thrown {T} e.
Arguments Thrown_undefined {T}.

Section WithEngine.

(** The [Math.pow] of the engine that runs the handler. *)
Variable Math_pow : Engine.power.

(** The delay before jitter:
    [Math.min(baseDelay * Math.pow(backoffMultiplier, attempt - 1), maxDelay)] *)
Definition capped (this : RetryOptions) (attempt : Z) : Number.t :=
  Number.min
    (Number.mul (Number.Finite (baseDelay this))
       (Math_pow (backoffMultiplier this) (attempt - 1)%Z))
    (Number.Finite (maxDelay this)).

(** [calculateDelay] given the value [random] that [Math.random()] returns:
    [delay = delay * (0.5 + random * 0.5)] when jitter is on, then
    [Math.floor(delay)]. *)
Definition jittered (this : RetryOptions) (attempt : Z) (random : Q) : Number.t :=
  let delay := capped this attempt in
  let delay :=
    if jitter this
    then Number.mul delay
           (Number.add (Number.Finite (1 # 2))
              (Number.mul (Number.Finite random) (Number.Finite (1 # 2))))
    else delay in
  Number.floor delay.

Definition calculateDelay {S} (this : RetryOptions) (attempt : Z) (w : World S)
    : Number.t * World S :=
  if jitter this then
    let '(random, w') := Math_random w in (jittered this attempt random, w')
  else (jittered this attempt 0, w).

(** The [for] loop from [attempt] on; [iterations] is the number of values of
    the loop variable from [attempt] up to [maxAttempts]. *)
Fixpoint loop {S T} (this : RetryOptions) (fn : task S T) (iterations : nat)
    (attempt : Z) (lastError : option Error) (w : World S) : result T * World S :=
  match iterations with
  | O => (match lastError with Some e => Thrown e | None => Thrown_undefined end, w)
  | Datatypes.S iterations' =>
      match fn w with
      | (Resolved result, w1) => (Returned result, w1)
      | (Rejected error, w1) =>
          if negb (retryCondition this error) then (Thrown error, w1)
          else if (attempt =? maxAttempts this)%Z then (Thrown error, w1)
          else
            let '(delay, w2) := calculateDelay this attempt w1 in
            loop this fn iterations' (attempt + 1) (Some error)
              (sleep (timer delay) w2)
      end
  end.

Definition execute {S T} (this : RetryOptions) (fn : task S T) (w : World S)
    : result T * World S :=
  loop this fn (Z.to_nat (maxAttempts this)) 1 None w.

End WithEngine.

End RetryHandler.

(** ** The transition graph and the invariants, as the specification words them *)

Module Spec.
Import Types.

(** PENDING→{CONFIRMED,CANCELLED}, CONFIRMED→{PROCESSING,CANCELLED},
    PROCESSING→{SHIPPED,CANCELLED}, SHIPPED→{DELIVERED}. *)
Inductive allowed : OrderStatus -> OrderStatus -> Prop :=
| pending_confirmed : allowed PENDING CONFIRMED
| pending_cancelled : allowed PENDING CANCELLED
| confirmed_processing : allowed CONFIRMED PROCESSING
| confirmed_cancelled : allowed CONFIRMED CANCELLED
| processing_shipped : allowed PROCESSING SHIPPED
| processing_cancelled : allowed PROCESSING CANCELLED
| shipped_delivered : allowed SHIPPED DELIVERED.

(** Σ(price*quantity) over the items, in exact arithmetic. *)
Fixpoint sum_price_quantity (items : list OrderItem) : Q :=
  match items with
  | [] => 0
  | item :: rest => (price item * quantity item + sum_price_quantity rest)%Q
  end.

(** A non-negative whole number. *)
Definition whole (x : Q) : Prop := (0 <= x)%Q /\ JS.Number_isInteger x = true.

(** The message of the error that rejects a transition. *)
Definition InvalidTransition (from to : OrderStatus) : JS.Error :=
  JS.new_Error ("Invalid status transition from " +:+ OrderStatus_value from
                +:+ " to " +:+ OrderStatus_value to).

(** The class of errors [ValidationError] (shared/middleware/errorHandler.ts)
    is recognised by its [name]. *)
Definition is_ValidationError (e : JS.Error) : Prop := JS.name e = "ValidationError".
Definition is_ConflictError (e : JS.Error) : Prop := JS.name e = "ConflictError".

(** The invariant of an inventory record: 0 <= reservedQuantity <= quantity. *)
Definition record_invariant (d : Inventory.InventoryDocument) : Prop :=
  (0 <= Inventory.reservedQuantity d)%Q
  /\ (Inventory.reservedQuantity d <= Inventory.quantity d)%Q.

Definition collection_invariant (db : gmap string Inventory.InventoryDocument) : Prop :=
  forall p d, db !! p = Some d -> record_invariant d.

(** The collection is indexed by [productId]: a document is found under its
    own product id. *)
Definition indexed (db : gmap string Inventory.InventoryDocument) : Prop :=
  forall p d, db !! p = Some d -> Inventory.productId d = p.

(** The quantity an order asks of a product: the sum over its items for that
    product. *)
Fixpoint demand (p : string) (items : list OrderItem) : Q :=
  match items with
  | [] => 0
  | item :: rest =>
      if String.eqb (productId item) p
      then (quantity item + demand p rest)%Q
      else demand p rest
  end.

End Spec.

(** ** What a call on a document leaves in the collection *)

Module Persisted.
Import JS Inventory.

(** What one call leaves in the collection: nothing new when it rejects, one
    document that satisfies the invariant when it resolves. *)
Definition kept (db : Collection)
    (r : outcome unit * InventoryDocument * Collection) : Prop :=
  match r with
  | (Rejected _, _, db') => db' = db
  | (Resolved _, _, db') =>
      exists d1, db' = <[productId d1 := d1]> db /\ Spec.record_invariant d1
  end.

End Persisted.

(** ** Sample data *)

Module Sample.
Import JS Types.

Definition rt : BaseEvent.Runtime :=
  {| BaseEvent.fresh_id := fun v => "event";
     BaseEvent.now := fun v => (1700000000000 + v)%Z;
     BaseEvent.shipped_now := fun v => (1700000000000 + v)%Z;
     BaseEvent.uuidv4 := "3f2b8c1e-0d4a-4e5b-9c6d-7a8b9c0d1e2f" |}.

Definition address : Address :=
  {| street := "1 Main St"; city := "Nairobi"; state := "Nairobi";
     zipCode := "00100"; country := "KE" |}.

(** 0.1, the double nearest to 1/10. *)
Definition dime : Q := Eval vm_compute in Number.round (1 # 10).

(** Scenario A: one item, quantity 2, price 10. *)
Definition item_p1 : OrderItem :=
  {| productId := "p1"; quantity := 2; price := 10; name := "Widget" |}.

Definition fresh : OrderAggregate.t := OrderAggregate.new rt (Some "order-1").

(** The aggregate left by a list of commands run on a fresh aggregate. *)
Definition after (cs : list OrderAggregate.Command) : OrderAggregate.t :=
  snd (OrderAggregate.execute_all rt cs fresh).

Definition create : OrderAggregate.Command :=
  OrderAggregate.CreateOrder "user-1" [item_p1] address "card".

Definition to_shipped : list OrderAggregate.Command :=
  [create;
   OrderAggregate.UpdateStatus CONFIRMED None;
   OrderAggregate.UpdateStatus PROCESSING None;
   OrderAggregate.ShipOrder "TRK-1" "DHL" None].

(** An inventory holding 10 units of p1, none reserved. *)
Definition stock_p1 : Inventory.InventoryDocument :=
  {| Inventory.productId := "p1"; Inventory.quantity := 10;
     Inventory.reservedQuantity := 0; Inventory.lastUpdated := 1700000000000;
     Inventory.lowStockThreshold := 10; Inventory.reorderPoint := 5;
     Inventory.movements := [] |}.

Definition warehouse : gmap string Inventory.InventoryDocument :=
  {[ "p1" := stock_p1 ]}.

(** The OrderCreated event of scenario A. *)
Definition order_created_event : BaseEvent.t :=
  BaseEvent.createEvent rt "order-1" "Order"
    (BaseEvent.OrderCreated "order-1" "user-1" [item_p1] (Number.Finite 20) address
       "card") 1.

(** A connected bus whose channel takes every message, and one that was
    never connected. *)
Definition bus : EventBus.t :=
  {| EventBus.isConnected := true;
     EventBus.channel :=
       Some {| EventBus.answers := fun _ => EventBus.Taken; EventBus.calls := 0;
               EventBus.handed := [] |} |}.

Definition bus_down : EventBus.t :=
  {| EventBus.isConnected := false; EventBus.channel := None |}.

Definition shop : InventoryService.World :=
  {| InventoryService.inventories := warehouse; InventoryService.eventBus := bus |}.

Definition shop_offline : InventoryService.World :=
  {| InventoryService.inventories := warehouse; InventoryService.eventBus := bus_down |}.

(** The service after the event was handled once, and twice, and the
    collections they leave. *)
Definition shop_once : InventoryService.World :=
  snd (OrderCreatedHandler.handle 1700000000100 order_created_event shop).

Definition shop_twice : InventoryService.World :=
  snd (OrderCreatedHandler.handle 1700000000200 order_created_event shop_once).

Definition delivered_once : gmap string Inventory.InventoryDocument :=
  InventoryService.inventories shop_once.

Definition delivered_twice : gmap string Inventory.InventoryDocument :=
  InventoryService.inventories shop_twice.

(** The service after 5 units of p1 were reserved. *)
Definition shop_5_reserved : InventoryService.World :=
  snd (InventoryService.perform 1700000000050
         (InventoryService.Reserve "p1" 5 "hold" (Some "order-0") None) shop).

Definition warehouse_5_reserved : gmap string Inventory.InventoryDocument :=
  InventoryService.inventories shop_5_reserved.

(** *** The resilient client *)

(** 0.7, the double nearest to 7/10. *)
Definition seven_tenths : Q := Eval vm_compute in Number.round (7 # 10).

(** 0.1259999999999999, a draw of [Math.random]. *)
Definition draw : Q := 283726776524341 # 2251799813685248.

(** The world of the samples: the remote side counts the calls it receives. *)
Definition world0 : Async.World nat :=
  {| Async.clock := 1700000000000; Async.entropy := fun _ => (1 # 2)%Q;
     Async.drawn := 0; Async.remote := 0 |}.

(** A call that reaches the remote side, takes 10 ms and settles as [r] says
    for the number of calls received before it. *)
Definition call (r : nat -> Async.settled unit) : Async.task nat unit :=
  fun w =>
    (r (Async.remote w),
     {| Async.clock := (Async.clock w + 10)%Z; Async.entropy := Async.entropy w;
        Async.drawn := Async.drawn w; Async.remote := Datatypes.S (Async.remote w) |}).

Definition failing (e : Error) : Async.task nat unit := call (fun _ => Async.Rejected e).
Definition succeeding : Async.task nat unit := call (fun _ => Async.Resolved tt).

Definition connection_refused : Error := new_Error "connect ECONNREFUSED".

(** [new ValidationError()] and [new ConflictError()]
    (shared/middleware/errorHandler.ts). *)
Definition validation_error : Error :=
  {| JS.name := "ValidationError"; JS.message := "Validation failed" |}.
Definition conflict_error : Error :=
  {| JS.name := "ConflictError"; JS.message := "Resource conflict" |}.

Definition breaker : CircuitBreaker.t :=
  CircuitBreaker.new "http-client-product-service"
    (CircuitBreaker.partial CircuitBreaker.defaultCircuitBreakerOptions).

(** [n] calls in a row through the breaker that all fail with [e]. *)
Fixpoint fail_times (n : nat) (e : Error) (this : CircuitBreaker.t)
    (w : Async.World nat) : CircuitBreaker.t * Async.World nat :=
  match n with
  | O => (this, w)
  | Datatypes.S n' =>
      let '(_, this', w') := CircuitBreaker.execute this (failing e) w in
      fail_times n' e this' w'
  end.

(** Scenario C: the breaker and the world after five failed calls. *)
Definition opened : CircuitBreaker.t := fst (fail_times 5 connection_refused breaker world0).
Definition world_opened : Async.World nat :=
  snd (fail_times 5 connection_refused breaker world0).

(** The world once the reset timeout has elapsed. *)
Definition world_later : Async.World nat := Async.sleep 30000 world_opened.

End Sample.

(** ** States that the commands are shown to reach *)

Module Expected.
Import JS Types OrderAggregate.

(** The aggregate after [applyEvent] of the OrderStatusUpdated event that
    [updateStatus] builds. *)
Definition status_updated (rt : BaseEvent.Runtime) (a : t) (newStatus : OrderStatus)
    (updatedBy : option string) : t :=
  {| id := id a; userId := userId a; items := items a;
     totalAmount := totalAmount a; status := newStatus;
     shippingAddress := shippingAddress a; paymentMethod := paymentMethod a;
     paymentStatus := paymentStatus a; version := (version a + 1)%Z;
     uncommittedEvents :=
       uncommittedEvents a ++
       [BaseEvent.createEvent rt (id a) "Order"
          (BaseEvent.OrderStatusUpdated (id a) (status a) newStatus updatedBy)
          (version a + 1)%Z] |}.

(** The aggregate after [applyEvent] of the OrderCreated event that
    [createOrder] builds. *)
Definition order_created (rt : BaseEvent.Runtime) (a : t) (userId' : string)
    (items' : list OrderItem) (shippingAddress' : Address) (paymentMethod' : string)
    : t :=
  {| id := id a; userId := userId'; items := items';
     totalAmount := reduce_total items'; status := PENDING;
     shippingAddress := Some shippingAddress'; paymentMethod := paymentMethod';
     paymentStatus := paymentStatus a; version := (version a + 1)%Z;
     uncommittedEvents :=
       uncommittedEvents a ++
       [BaseEvent.createEvent rt (id a) "Order"
          (BaseEvent.OrderCreated (id a) userId' items' (reduce_total items')
             shippingAddress' paymentMethod')
          (version a + 1)%Z] |}.

(** The aggregate after [applyEvent] of the OrderCancelled event that
    [cancelOrder] builds: the event is recorded, nothing else changes. *)
Definition cancel_recorded (rt : BaseEvent.Runtime) (a : t) (reason : string)
    (cancelledBy : option string) (refundAmount : option Number.t) : t :=
  {| id := id a; userId := userId a; items := items a;
     totalAmount := totalAmount a; status := status a;
     shippingAddress := shippingAddress a; paymentMethod := paymentMethod a;
     paymentStatus := paymentStatus a; version := (version a + 1)%Z;
     uncommittedEvents :=
       uncommittedEvents a ++
       [BaseEvent.createEvent rt (id a) "Order"
          (BaseEvent.OrderCancelled (id a) reason cancelledBy refundAmount)
          (version a + 1)%Z] |}.

(** The refund that the order service passes to [cancelOrder]. *)
Definition refund (a : t) : option Number.t :=
  match status a with
  | CONFIRMED => Some (totalAmount a)
  | _ => None
  end.

End Expected.

(** ** Notions used to relate a live aggregate to its replay *)

Module Replay.
Import JS Types OrderAggregate.

(** [applied a a']: [a'] is [a] after zero or more events were applied to it
    by [applyEvent], each returning normally. *)
Inductive applied : t -> t -> Prop :=
| applied_none a : applied a a
| applied_event a event a1 a2 :
    applyEvent event a = (Return tt, a1) -> applied a1 a2 -> applied a a2.

(** The same aggregate under another id. *)
Definition with_id (i : string) (a : t) : t :=
  {| id := i; userId := userId a; items := items a;
     totalAmount := totalAmount a; status := status a;
     shippingAddress := shippingAddress a; paymentMethod := paymentMethod a;
     paymentStatus := paymentStatus a; version := version a;
     uncommittedEvents := uncommittedEvents a |}.

(** The aggregate with its buffer of uncommitted events emptied. *)
Definition committed (a : t) : t := snd (markEventsAsCommitted a).

End Replay.

(** ** The events a command may emit *)

Module Lifecycle.
Import JS Types OrderAggregate.

(** [emits a d]: the guards under which a command builds an event with
    payload [d] on the aggregate [a]. *)
Inductive emits (a : t) : BaseEvent.Data -> Prop :=
| emits_created userId' items' addr pm :
    (version a <= 0)%Z -> items' <> [] ->
    Number.leb (reduce_total items') (Number.Finite 0) = false ->
    emits a (BaseEvent.OrderCreated (id a) userId' items' (reduce_total items') addr pm)
| emits_status_updated newStatus updatedBy :
    version a <> 0%Z -> newStatus <> status a ->
    isValidStatusTransition (status a) newStatus = true ->
    emits a (BaseEvent.OrderStatusUpdated (id a) (status a) newStatus updatedBy)
| emits_payment_processed paymentStatus' tx gw :
    version a <> 0%Z ->
    emits a (BaseEvent.OrderPaymentProcessed (id a) paymentStatus' tx gw)
| emits_shipped tn ca at_ eta :
    version a <> 0%Z -> status a = PROCESSING ->
    emits a (BaseEvent.OrderShipped (id a) tn ca at_ eta)
| emits_cancelled reason by_ amount :
    version a <> 0%Z -> status a <> DELIVERED -> status a <> CANCELLED ->
    emits a (BaseEvent.OrderCancelled (id a) reason by_ amount).

(** [emitted rt a a']: [a'] is [a] after zero or more events, each built by
    [createEvent] with the next version under the guards of a command and
    applied by [applyEvent]. *)
Inductive emitted (rt : BaseEvent.Runtime) : t -> t -> Prop :=
| emitted_none a : emitted rt a a
| emitted_event a d a1 a2 :
    emits a d ->
    applyEvent (BaseEvent.createEvent rt (id a) "Order" d (version a + 1)%Z) a
    = (Return tt, a1) ->
    emitted rt a1 a2 ->
    emitted rt a a2.

(** The versions 1, 2, ..., n. *)
Definition versions_up_to (n : Z) : list Z := seqZ 1 n.

(** A status is terminal when the transition table gives it no successor. *)
Definition terminal (s : OrderStatus) : Prop := s = DELIVERED \/ s = CANCELLED.

(** Paths of the transition graph. *)
Inductive path : OrderStatus -> OrderStatus -> Prop :=
| path_here s : path s s
| path_edge s1 s2 s3 :
    isValidStatusTransition s1 s2 = true -> path s2 s3 -> path s1 s3.

End Lifecycle.

(** ** inventoryService.ts: release and commit of an order's reservation

    Both functions first fetch the order from the order service; its items
    are the argument [items] here.  The documents are read with the session
    of the transaction, so their saves belong to it: when an item fails the
    transaction is aborted and the collection is as before the call. *)

Module InventorySaga.
Import JS Inventory InventoryService.

(** [m.type === 'RESERVED' && m.reference === orderId] *)
Definition reserved_for (orderId : string) (m : Movement.t) : bool :=
  Movement.Kind_eqb (Movement.type m) Movement.RESERVED
  && match Movement.reference m with
     | Some r => String.eqb r orderId
     | None => false
     end.

(** [inventory.movements.find(...)] *)
Definition find_movement (p : Movement.t -> bool) (ms : list Movement.t)
    : option Movement.t :=
  List.find p ms.

(** The body of the loop of [releaseOrderReservation] for one item. *)
Definition release_item (now : Z) (orderId reason : string) (item : Types.OrderItem)
    (db : Collection) : outcome unit * Collection :=
  match findByProductId (Types.productId item) db with
  | None => (Resolved tt, db)
  | Some inventory =>
      match find_movement (reserved_for orderId) (movements inventory) with
      | None => (Resolved tt, db)
      | Some reservedMovement =>
          let '(r, _, db') :=
            release now inventory (Movement.quantity reservedMovement) reason
              (Some orderId) None db in
          (r, db')
      end
  end.

(** The body of the loop of [commitOrderReservation] for one item: release,
    then removeStock, on the same document. *)
Definition commit_item (now : Z) (orderId reason : string) (item : Types.OrderItem)
    (db : Collection) : outcome unit * Collection :=
  match findByProductId (Types.productId item) db with
  | None => (Resolved tt, db)
  | Some inventory =>
      match release now inventory (Types.quantity item)
              "Reservation release for order commit" (Some orderId) None db with
      | (Rejected f, _, db1) => (Rejected f, db1)
      | (Resolved _, inventory1, db1) =>
          let '(r, _, db2) :=
            removeStock now inventory1 (Types.quantity item) reason (Some orderId)
              None db1 in
          (r, db2)
      end
  end.

(** [for (const item of order.items) ...]: the first rejection ends the loop. *)
Fixpoint for_each_item (body : Types.OrderItem -> Collection -> outcome unit * Collection)
    (items : list Types.OrderItem) (db : Collection) : outcome unit * Collection :=
  match items with
  | [] => (Resolved tt, db)
  | item :: rest =>
      match body item db with
      | (Rejected f, db') => (Rejected f, db')
      | (Resolved _, db') => for_each_item body rest db'
      end
  end.

(** [withTransaction]: commit when the operation resolves, abort when it
    rejects. *)
Definition withTransaction (operation : Collection -> outcome unit * Collection)
    (db : Collection) : outcome unit * Collection :=
  match operation db with
  | (Resolved v, db') => (Resolved v, db')
  | (Rejected f, _) => (Rejected f, db)
  end.

Definition releaseOrderReservation (now : Z) (orderId reason : string)
    (items : list Types.OrderItem) (db : Collection) : outcome unit * Collection :=
  withTransaction (for_each_item (release_item now orderId reason) items) db.

Definition commitOrderReservation (now : Z) (orderId reason : string)
    (items : list Types.OrderItem) (db : Collection) : outcome unit * Collection :=
  withTransaction (for_each_item (commit_item now orderId reason) items) db.

(** A stored document passes the schema's validators. *)
Definition valid (d : InventoryDocument) : Prop := validate d = None.

Definition all_valid (db : Collection) : Prop :=
  forall p d, db !! p = Some d -> valid d.

End InventorySaga.

(** ** More sample data *)

Module Sample2.

(** The warehouse after the order of scenario A was reserved and shipped. *)
Definition warehouse_after_commit : gmap string Inventory.InventoryDocument :=
  snd (InventorySaga.commitOrderReservation 1700000000300 "order-1" "shipped"
         [Sample.item_p1] Sample.delivered_once).

End Sample2.

(** ** Scripted calls, to observe the resilience wrappers *)

Module Probe.
Import JS Async.

(** A wrapped function whose successive calls settle as [script] says; the
    remote side counts the calls it receives and the call takes no time. *)
Definition observed {T} (script : nat -> settled T) : task nat T :=
  fun w =>
    (script (remote w),
     {| clock := clock w; entropy := entropy w; drawn := drawn w;
        remote := Datatypes.S (remote w) |}).

(** [n] calls in a row through the breaker. *)
Fixpoint calls {T} (n : nat) (this : CircuitBreaker.t) (script : nat -> settled T)
    (w : World nat) : CircuitBreaker.t * World nat :=
  match n with
  | O => (this, w)
  | Datatypes.S n' =>
      let '(_, this', w') := CircuitBreaker.execute this (observed script) w in
      calls n' this' script w'
  end.

(** The number of failures that count, since the last success, at the end of
    the outcomes [script i], ..., [script (i + n - 1)], starting from [c]:
    a success resets it, an expected error leaves it, any other error adds
    one. *)
Fixpoint streak {T} (expected : Error -> bool) (script : nat -> settled T)
    (i n : nat) (c : Z) : Z :=
  match n with
  | O => c
  | Datatypes.S n' =>
      streak expected script (Datatypes.S i) n'
        match script i with
        | Resolved _ => 0%Z
        | Rejected e => if expected e then c else (c + 1)%Z
        end
  end.

End Probe.

(* ===================================================================== *)
(** * Part II: properties                                                 *)
(* ===================================================================== *)

(** ** Doubles: rounding to the nearest *)

Section Rounding.
Import Number.

Lemma pow2_pos e : (0 < pow2 e)%Q.
Proof. by apply Qpower_0_lt. Qed.

Lemma pow2_plus a b : (pow2 (a + b) == pow2 a * pow2 b)%Q.
Proof. by apply Qpower_plus. Qed.

Lemma pow2_le a b : (a <= b)%Z -> (pow2 a <= pow2 b)%Q.
Proof. intros H. by apply Qpower_le_compat_l. Qed.

Lemma pow2_lt a b : (a < b)%Z -> (pow2 a < pow2 b)%Q.
Proof. intros H. by apply Qpower_lt_compat_l. Qed.

Lemma pow2_lt_inv a b : (pow2 a < pow2 b)%Q -> (a < b)%Z.
Proof. intros H. by apply (Qpower_lt_compat_l_inv 2). Qed.

Lemma pow2_Z e : (0 <= e)%Z -> (pow2 e == inject_Z (2 ^ e))%Q.
Proof. intros H. unfold pow2. by rewrite Zpower_Qpower. Qed.

Lemma pow2_succ a : (pow2 (a + 1) == 2 * pow2 a)%Q.
Proof. rewrite pow2_plus. unfold pow2 at 2. rewrite Qpower_1_r. ring. Qed.

Lemma Qlt_Zlt_inject (a b : Z) : (a < b)%Z -> (inject_Z a < inject_Z b)%Q.
Proof. by rewrite <- Zlt_Qlt. Qed.

Lemma Qle_Zle_inject (a b : Z) : (a <= b)%Z -> (inject_Z a <= inject_Z b)%Q.
Proof. by rewrite <- Zle_Qle. Qed.

(** The magnitude of a positive number. *)
Lemma magnitude_spec x :
  (0 < x)%Q -> (pow2 (magnitude x - 1) <= x)%Q /\ (x < pow2 (magnitude x))%Q.
Proof.
  intros Hx. unfold magnitude.
  rewrite (Qabs_pos x) by lra.
  destruct x as [n d]. simpl Qnum. simpl Qden.
  assert (Hn : (0 < n)%Z) by (unfold Qlt in Hx; simpl in Hx; lia).
  rewrite (Z.abs_eq n) by lia.
  set (a := Z.log2 n). set (b := Z.log2 (Z.pos d)).
  destruct (Z.log2_spec n Hn) as [Ha1 Ha2]. fold a in Ha1, Ha2.
  destruct (Z.log2_spec (Z.pos d) eq_refl) as [Hb1 Hb2]. fold b in Hb1, Hb2.
  assert (Ha0 : (0 <= a)%Z) by apply Z.log2_nonneg.
  assert (Hb0 : (0 <= b)%Z) by apply Z.log2_nonneg.
  assert (Hx' : (n # d == inject_Z n / inject_Z (Z.pos d))%Q) by apply Qmake_Qdiv.
  assert (Hd : (0 < inject_Z (Z.pos d))%Q) by (by apply (Qlt_Zlt_inject 0)).
  assert (HA1 : (pow2 a <= inject_Z n)%Q) by (rewrite pow2_Z by done; by apply Qle_Zle_inject).
  assert (HA2 : (inject_Z n < 2 * pow2 a)%Q).
  { rewrite <- pow2_succ, pow2_Z by lia. apply Qlt_Zlt_inject.
    by replace (a + 1)%Z with (Z.succ a) by lia. }
  assert (HB1 : (pow2 b <= inject_Z (Z.pos d))%Q)
    by (rewrite pow2_Z by done; by apply Qle_Zle_inject).
  assert (HB2 : (inject_Z (Z.pos d) < 2 * pow2 b)%Q).
  { rewrite <- pow2_succ, pow2_Z by lia. apply Qlt_Zlt_inject.
    by replace (b + 1)%Z with (Z.succ b) by lia. }
  assert (Hk : (pow2 a == pow2 (a - b) * pow2 b)%Q).
  { rewrite <- pow2_plus. by replace (a - b + b)%Z with a by lia. }
  pose proof (pow2_pos (a - b)) as Hp. pose proof (pow2_pos b) as Hpb.
  set (X := (n # d)%Q) in *. set (D := inject_Z (Z.pos d)) in *.
  set (N := inject_Z n) in *.
  assert (HX : (X * D == N)%Q) by (rewrite Hx'; field; lra).
  destruct (Qle_bool (pow2 (a - b)) X) eqn:E.
  - apply Qle_bool_iff in E. replace (a - b + 1 - 1)%Z with (a - b)%Z by lia.
    split; [done|]. rewrite pow2_succ.
    apply Qnot_le_lt. intros Hc.
    assert ((2 * pow2 (a - b)) * pow2 b <= X * D)%Q.
    { apply Qle_trans with (X * pow2 b)%Q.
      - apply Qmult_le_compat_r; lra.
      - rewrite !(Qmult_comm X). apply Qmult_le_compat_r; lra. }
    lra.
  - assert (Hlt : (X < pow2 (a - b))%Q).
    { apply Qnot_le_lt. intros Hc. apply Qle_bool_iff in Hc. congruence. }
    split; [|done].
    assert (Hs : (pow2 (a - b) == 2 * pow2 (a - b - 1))%Q).
    { rewrite <- pow2_succ. by replace (a - b - 1 + 1)%Z with (a - b)%Z by lia. }
    apply Qnot_lt_le. intros Hc.
    assert (X * D < pow2 (a - b - 1) * (2 * pow2 b))%Q.
    { apply Qle_lt_trans with (pow2 (a - b - 1) * D)%Q.
      - apply Qmult_le_compat_r; lra.
      - rewrite !(Qmult_comm (pow2 (a - b - 1))).
        apply Qmult_lt_compat_r; [apply pow2_pos | lra]. }
    nra.
Qed.


Lemma magnitude_le x k : (0 < x)%Q -> (x < pow2 k)%Q -> (magnitude x <= k)%Z.
Proof.
  intros Hx Hk. destruct (magnitude_spec x Hx) as [H1 _].
  assert (H : (pow2 (magnitude x - 1) < pow2 k)%Q) by lra.
  apply pow2_lt_inv in H. lia.
Qed.

Lemma magnitude_gt x k : (0 < x)%Q -> (pow2 k <= x)%Q -> (k < magnitude x)%Z.
Proof.
  intros Hx Hk. destruct (magnitude_spec x Hx) as [_ H2].
  assert (H : (pow2 k < pow2 (magnitude x))%Q) by lra.
  by apply pow2_lt_inv in H.
Qed.

Lemma magnitude_mono x y : (0 < x)%Q -> (x <= y)%Q -> (magnitude x <= magnitude y)%Z.
Proof.
  intros Hx Hxy. apply magnitude_le; [done|].
  destruct (magnitude_spec y) as [_ H]; lra.
Qed.

Lemma exponent_mono x y : (0 < x)%Q -> (x <= y)%Q -> (exponent x <= exponent y)%Z.
Proof.
  intros Hx Hxy. unfold exponent. pose proof (magnitude_mono x y Hx Hxy). lia.
Qed.

(** Rounding to the nearest integer, ties to even. *)
Lemma round_half_even_cases x :
  round_half_even x = Qfloor x
  \/ (round_half_even x = (Qfloor x + 1)%Z /\ (inject_Z (Qfloor x) < x)%Q).
Proof.
  unfold round_half_even.
  destruct (Qcompare_spec (x - inject_Z (Qfloor x)) (1 # 2)) as [H|H|H].
  - destruct (Z.even (Qfloor x)); [by left|]. right. split; [done|]. lra.
  - by left.
  - right. split; [done|]. lra.
Qed.

Lemma round_half_even_le x k : (x <= inject_Z k)%Q -> (round_half_even x <= k)%Z.
Proof.
  intros H. pose proof (Qfloor_le x) as Hf.
  destruct (round_half_even_cases x) as [->|[-> Hlt]].
  - rewrite Zle_Qle. lra.
  - assert (Hk : (inject_Z (Qfloor x) < inject_Z k)%Q) by lra.
    rewrite <- Zlt_Qlt in Hk. lia.
Qed.

Lemma round_half_even_ge x k : (inject_Z k <= x)%Q -> (k <= round_half_even x)%Z.
Proof.
  intros H.
  assert (Hk : (k <= Qfloor x)%Z).
  { rewrite <- (Qfloor_Z k). by apply Qfloor_resp_le. }
  destruct (round_half_even_cases x) as [->|[-> _]]; lia.
Qed.

Lemma round_half_even_Z k : round_half_even (inject_Z k) = k.
Proof.
  apply Z.le_antisymm; [apply round_half_even_le | apply round_half_even_ge]; lra.
Qed.

Lemma round_half_even_mono x y : (x <= y)%Q -> (round_half_even x <= round_half_even y)%Z.
Proof.
  intros Hxy. pose proof (Qfloor_resp_le _ _ Hxy) as Hf.
  destruct (Z.eq_dec (Qfloor x) (Qfloor y)) as [E|E].
  - unfold round_half_even. rewrite <- E.
    destruct (Qcompare_spec (x - inject_Z (Qfloor x)) (1 # 2)) as [H|H|H];
      destruct (Qcompare_spec (y - inject_Z (Qfloor x)) (1 # 2)) as [H'|H'|H'];
      try lra; try lia; destruct (Z.even (Qfloor x)); lia.
  - assert (Hl : (Qfloor x + 1 <= Qfloor y)%Z) by lia.
    assert (Hy : (Qfloor y <= round_half_even y)%Z).
    { apply round_half_even_ge, Qfloor_le. }
    destruct (round_half_even_cases x) as [->|[-> _]]; lia.
Qed.

(** [round] on a positive number. *)
Lemma round_pos x :
  (0 < x)%Q ->
  (round x == inject_Z (round_half_even (x / pow2 (exponent x))) * pow2 (exponent x))%Q.
Proof.
  intros Hx. unfold round.
  destruct (Qeq_bool x 0) eqn:E; [apply Qeq_bool_iff in E; lra|].
  apply Qred_correct.
Qed.

Lemma round_0 : round 0 = 0%Q.
Proof. reflexivity. Qed.

(** A multiple of 2^g, for g at or above the exponent of x, bounds the rounded
    value as it bounds x. *)
Lemma grid_scaled x k g :
  (exponent x <= g)%Z ->
  (inject_Z k * pow2 g
   == inject_Z (k * 2 ^ (g - exponent x)) * pow2 (exponent x))%Q.
Proof.
  intros Hg. rewrite inject_Z_mult, <- pow2_Z by lia.
  rewrite <- Qmult_assoc, <- pow2_plus.
  by replace (g - exponent x + exponent x)%Z with g by lia.
Qed.

Lemma round_le_grid x k g :
  (0 < x)%Q -> (exponent x <= g)%Z ->
  (x <= inject_Z k * pow2 g)%Q -> (round x <= inject_Z k * pow2 g)%Q.
Proof.
  intros Hx Hg Hle. rewrite round_pos by done.
  rewrite (grid_scaled x k g Hg) in *.
  pose proof (pow2_pos (exponent x)) as Hp.
  apply Qmult_le_compat_r; [|lra].
  apply Qle_Zle_inject, round_half_even_le.
  apply Qle_shift_div_r; [done|]. lra.
Qed.

Lemma round_ge_grid x k g :
  (0 < x)%Q -> (exponent x <= g)%Z ->
  (inject_Z k * pow2 g <= x)%Q -> (inject_Z k * pow2 g <= round x)%Q.
Proof.
  intros Hx Hg Hle. rewrite round_pos by done.
  rewrite (grid_scaled x k g Hg) in *.
  pose proof (pow2_pos (exponent x)) as Hp.
  apply Qmult_le_compat_r; [|lra].
  apply Qle_Zle_inject, round_half_even_ge.
  apply Qle_shift_div_l; [done|]. lra.
Qed.

Lemma round_grid x k g :
  (0 < x)%Q -> (exponent x <= g)%Z ->
  (x == inject_Z k * pow2 g)%Q -> (round x == x)%Q.
Proof.
  intros Hx Hg E. apply Qle_antisym.
  - rewrite E at 2. apply round_le_grid; [done | done | lra].
  - rewrite E at 1. apply round_ge_grid; [done | done | lra].
Qed.

Lemma round_nonneg x : (0 <= x)%Q -> (0 <= round x)%Q.
Proof.
  intros Hx. destruct (Qlt_le_dec 0 x) as [Hp|Hn].
  - assert (H : (inject_Z 0 * pow2 (exponent x) <= round x)%Q).
    { apply round_ge_grid; [done | lia |]. change (inject_Z 0) with 0%Q. lra. }
    change (inject_Z 0) with 0%Q in H. lra.
  - unfold round. destruct (Qeq_bool x 0) eqn:E; [done|].
    exfalso. apply Qeq_bool_neq in E. apply E. lra.
Qed.


Lemma round_zero x : (x == 0)%Q -> round x = 0%Q.
Proof. intros H. unfold round. by apply Qeq_bool_iff in H as ->. Qed.

(** Rounding is monotone. *)
Lemma round_mono x y : (0 <= x)%Q -> (x <= y)%Q -> (round x <= round y)%Q.
Proof.
  intros H0 Hxy. destruct (Qlt_le_dec 0 x) as [Hx|Hx].
  - assert (Hy : (0 < y)%Q) by lra.
    pose proof (exponent_mono x y Hx Hxy) as He.
    destruct (Z.eq_dec (exponent x) (exponent y)) as [E|E].
    + rewrite (round_pos x Hx), (round_pos y Hy), E.
      pose proof (pow2_pos (exponent y)) as Hp.
      apply Qmult_le_compat_r; [|lra].
      apply Qle_Zle_inject, round_half_even_mono.
      apply Qmult_le_compat_r; [done|]. apply Qlt_le_weak, Qinv_lt_0_compat, Hp.
    + set (m := magnitude y).
      assert (Hm : exponent y = (m - precision)%Z /\ (magnitude x < m)%Z).
      { unfold exponent in *. fold m in He, E |- *. unfold precision, emin in *. lia. }
      destruct Hm as [Hey Hmx].
      destruct (magnitude_spec x Hx) as [_ Hx2].
      destruct (magnitude_spec y Hy) as [Hy1 _]. fold m in Hy1.
      assert (Hp : (pow2 (magnitude x) <= pow2 (m - 1))%Q) by (apply pow2_le; lia).
      assert (E1 : (inject_Z 1 * pow2 (m - 1) == pow2 (m - 1))%Q) by ring.
      apply Qle_trans with (inject_Z 1 * pow2 (m - 1))%Q.
      * apply round_le_grid; [done | unfold precision in *; lia | lra].
      * apply round_ge_grid; [done | unfold precision in *; lia | lra].
  - rewrite (round_zero x) by lra. apply round_nonneg. lra.
Qed.

(** A rounded number is a double: rounding it again changes nothing. *)
Lemma round_idempotent x : (0 <= x)%Q -> (round (round x) == round x)%Q.
Proof.
  intros H0. destruct (Qlt_le_dec 0 x) as [Hx|Hx];
    [|by rewrite (round_zero x) by lra].
  set (e := exponent x). set (y := round x).
  assert (Hy0 : (0 <= y)%Q) by (apply round_nonneg; lra).
  destruct (Qlt_le_dec 0 y) as [Hy|Hy]; [|rewrite (round_zero y) by lra; lra].
  assert (Hem : (emin <= e)%Z /\ (magnitude x - precision <= e)%Z)
    by (unfold e, exponent; lia).
  destruct Hem as [He1 He2].
  destruct (magnitude_spec x Hx) as [_ Hx2].
  assert (Hp : (pow2 (magnitude x) <= pow2 (e + precision))%Q) by (apply pow2_le; lia).
  assert (Hle : (y <= inject_Z 1 * pow2 (e + precision))%Q).
  { apply round_le_grid; [done | fold e; unfold precision; lia |].
    change (inject_Z 1) with 1%Q. lra. }
  change (inject_Z 1) with 1%Q in Hle.
  destruct (Qlt_le_dec y (pow2 (e + precision))) as [Hlt|Hge].
  - apply (round_grid y (round_half_even (x / pow2 e)) e); [done | | by apply round_pos].
    pose proof (magnitude_le y _ Hy Hlt). unfold exponent. lia.
  - apply (round_grid y 1 (e + precision)); [done | |].
    + assert (Hlt : (y < pow2 (e + precision + 1))%Q).
      { rewrite pow2_succ. pose proof (pow2_pos (e + precision)). lra. }
      pose proof (magnitude_le y _ Hy Hlt). unfold exponent, precision in *. lia.
    + change (inject_Z 1) with 1%Q. lra.
Qed.

(** Whole numbers up to 2^53 are doubles. *)
Lemma round_Z n : (0 <= n <= 2 ^ 53)%Z -> (round (inject_Z n) == inject_Z n)%Q.
Proof.
  intros [H0 Hn]. destruct (Z.eq_dec n 0) as [->|Hne]; [done|].
  assert (Hx : (0 < inject_Z n)%Q) by (apply (Qlt_Zlt_inject 0); lia).
  destruct (Z.eq_dec n (2 ^ 53)) as [->|Hlt].
  - apply (round_grid _ 1 53); [done | |].
    + assert (H : (inject_Z (2 ^ 53) < pow2 54)%Q).
      { rewrite pow2_Z by lia. apply Qlt_Zlt_inject. lia. }
      pose proof (magnitude_le _ _ Hx H). unfold exponent, precision, emin. lia.
    + rewrite pow2_Z by lia. ring.
  - apply (round_grid _ n 0); [done | |].
    + assert (H : (inject_Z n < pow2 53)%Q).
      { rewrite pow2_Z by lia. apply Qlt_Zlt_inject. lia. }
      pose proof (magnitude_le _ _ Hx H). unfold exponent, precision, emin. lia.
    + unfold pow2. rewrite Qpower_0_r. ring.
Qed.

(** Half of a double that is at least 2^54 is a double. *)
Lemma round_half d :
  (round d == d)%Q -> (pow2 54 <= d)%Q -> (round (d * (1 # 2)) == d * (1 # 2))%Q.
Proof.
  intros Hd Hbig. pose proof (pow2_pos 54) as H54.
  assert (Hpos : (0 < d)%Q) by lra.
  set (e := exponent d).
  pose proof (magnitude_gt d 54 Hpos Hbig) as Hm.
  assert (He : (magnitude d - precision <= e)%Z /\ (2 <= e)%Z)
    by (unfold e, exponent, precision, emin in *; lia).
  destruct He as [He1 He2].
  apply (round_grid _ (round_half_even (d / pow2 e)) (e - 1)); [lra | |].
  - destruct (magnitude_spec d Hpos) as [_ Hd2].
    assert (Hlt : (d * (1 # 2) < pow2 (magnitude d - 1))%Q).
    { assert (E : (pow2 (magnitude d) == 2 * pow2 (magnitude d - 1))%Q).
      { rewrite <- pow2_succ. by replace (magnitude d - 1 + 1)%Z with (magnitude d) by lia. }
      lra. }
    assert (Hh : (0 < d * (1 # 2))%Q) by lra.
    pose proof (magnitude_le _ _ Hh Hlt). unfold exponent, precision, emin in *. lia.
  - rewrite <- Hd at 1. rewrite (round_pos d Hpos). fold e.
    assert (E : (pow2 e == 2 * pow2 (e - 1))%Q).
    { rewrite <- pow2_succ. by replace (e - 1 + 1)%Z with e by lia. }
    set (M := inject_Z (round_half_even (d / pow2 e))). rewrite E. ring.
Qed.

(** Rounding half of a non-negative double does not go below its floor. *)
Lemma round_half_floor d :
  (0 <= d)%Q -> (round d == d)%Q ->
  (inject_Z (Qfloor (d * (1 # 2))) <= round (d * (1 # 2)))%Q.
Proof.
  intros H0 Hd. pose proof (Qfloor_le (d * (1 # 2))) as Hf.
  destruct (Qlt_le_dec d (pow2 54)) as [Hsmall|Hbig].
  - set (m := Qfloor (d * (1 # 2))) in *.
    assert (Hm0 : (0 <= m)%Z).
    { unfold m. rewrite <- (Qfloor_Z 0). apply Qfloor_resp_le. change (inject_Z 0) with 0%Q. lra. }
    assert (Hm : (m <= 2 ^ 53)%Z).
    { rewrite Zle_Qle. rewrite <- pow2_Z by lia.
      assert (E : (pow2 54 == 2 * pow2 53)%Q) by (by rewrite <- pow2_succ).
      lra. }
    rewrite <- (round_Z m) by lia. apply round_mono; [|done].
    apply (Qle_Zle_inject 0). done.
  - rewrite round_half by done. done.
Qed.

End Rounding.

(** ** Order aggregate: reasoning principles *)

Section OrderAggregateFacts.
Import JS Types OrderAggregate.

Lemma OrderStatus_eqb_spec (a b : OrderStatus) :
  reflect (a = b) (OrderStatus_eqb a b).
Proof. destruct a, b; simpl; constructor; congruence. Qed.

Lemma OrderStatus_eqb_refl (a : OrderStatus) : OrderStatus_eqb a a = true.
Proof. by destruct a. Qed.

Lemma OrderStatus_eqb_neq (a b : OrderStatus) : a <> b -> OrderStatus_eqb a b = false.
Proof. intros H. by destruct (OrderStatus_eqb_spec a b). Qed.

(** The transition table is the graph of the specification. *)
Lemma isValidStatusTransition_allowed (a b : OrderStatus) :
  isValidStatusTransition a b = true <-> Spec.allowed a b.
Proof.
  split.
  - destruct a, b; simpl; intros H; try discriminate H; constructor.
  - destruct 1; reflexivity.
Qed.

Lemma allowed_dec (a b : OrderStatus) : {Spec.allowed a b} + {~ Spec.allowed a b}.
Proof.
  destruct (isValidStatusTransition a b) eqn:E.
  - left. by apply isValidStatusTransition_allowed.
  - right. intros H. apply isValidStatusTransition_allowed in H. congruence.
Qed.

End OrderAggregateFacts.

(** ** updateStatus and the transition graph *)

Section UpdateStatus.
Import JS Types OrderAggregate.

Lemma updateStatus_missing rt a newStatus updatedBy :
  version a = 0%Z ->
  updateStatus rt newStatus updatedBy a = (Throw (new_Error "Order does not exist"), a).
Proof. intros H. unfold updateStatus, bind, read. simpl. by rewrite H. Qed.

Lemma updateStatus_same rt a updatedBy :
  version a <> 0%Z ->
  updateStatus rt (status a) updatedBy a = (Return tt, a).
Proof.
  intros H. unfold updateStatus, bind, read. simpl.
  destruct (Z.eqb_spec (version a) 0); [done|].
  by rewrite OrderStatus_eqb_refl.
Qed.

Lemma updateStatus_valid rt a newStatus updatedBy :
  version a <> 0%Z -> newStatus <> status a ->
  isValidStatusTransition (status a) newStatus = true ->
  updateStatus rt newStatus updatedBy a
  = (Return tt, Expected.status_updated rt a newStatus updatedBy).
Proof.
  intros Hv Hs Ht. unfold updateStatus, bind, read. simpl.
  destruct (Z.eqb_spec (version a) 0); [done|].
  rewrite OrderStatus_eqb_neq by congruence. rewrite Ht. simpl.
  reflexivity.
Qed.

Lemma updateStatus_invalid rt a newStatus updatedBy :
  version a <> 0%Z -> newStatus <> status a ->
  isValidStatusTransition (status a) newStatus = false ->
  updateStatus rt newStatus updatedBy a
  = (Throw (Spec.InvalidTransition (status a) newStatus), a).
Proof.
  intros Hv Hs Ht. unfold updateStatus, bind, read. simpl.
  destruct (Z.eqb_spec (version a) 0); [done|].
  rewrite OrderStatus_eqb_neq by congruence. rewrite Ht. simpl.
  reflexivity.
Qed.

End UpdateStatus.

(** C1, as stated, fails on an aggregate that has applied no event: the
    transition PENDING→CONFIRMED is in the graph, yet [updateStatus] throws,
    and the error is 'Order does not exist', not an invalid transition. *)
Lemma C1_counterexample_fresh_aggregate :
  Spec.allowed (OrderAggregate.status Sample.fresh) Types.CONFIRMED
  /\ Types.CONFIRMED <> OrderAggregate.status Sample.fresh
  /\ OrderAggregate.updateStatus Sample.rt Types.CONFIRMED None Sample.fresh
     = (JS.Throw (JS.new_Error "Order does not exist"), Sample.fresh).
Proof. split; [constructor|]. split; [discriminate|reflexivity]. Qed.

(** C1 (amended): on an aggregate that exists (version ≠ 0), a request for a
    status different from the current one succeeds exactly when the pair is
    an edge of the transition graph; it then appends one OrderStatusUpdated
    event and moves to the new status.  Any other such request throws the
    invalid-transition error and leaves the aggregate as it was.  DELIVERED
    and CANCELLED have no outgoing edge. *)
Theorem C1_updateStatus_follows_graph
    (rt : BaseEvent.Runtime) (a : OrderAggregate.t) (newStatus : Types.OrderStatus)
    (updatedBy : option string) :
  OrderAggregate.version a <> 0%Z ->
  newStatus <> OrderAggregate.status a ->
  (JS.returned (fst (OrderAggregate.updateStatus rt newStatus updatedBy a)) = true
   <-> Spec.allowed (OrderAggregate.status a) newStatus)
  /\ (Spec.allowed (OrderAggregate.status a) newStatus ->
      OrderAggregate.updateStatus rt newStatus updatedBy a
      = (JS.Return tt, Expected.status_updated rt a newStatus updatedBy))
  /\ (~ Spec.allowed (OrderAggregate.status a) newStatus ->
      OrderAggregate.updateStatus rt newStatus updatedBy a
      = (JS.Throw (Spec.InvalidTransition (OrderAggregate.status a) newStatus), a))
  /\ (forall s, ~ Spec.allowed Types.DELIVERED s)
  /\ (forall s, ~ Spec.allowed Types.CANCELLED s).
Proof.
  intros Hv Hs.
  assert (Hyes : Spec.allowed (OrderAggregate.status a) newStatus ->
                 OrderAggregate.updateStatus rt newStatus updatedBy a
                 = (JS.Return tt, Expected.status_updated rt a newStatus updatedBy)).
  { intros H. apply updateStatus_valid; [done..|].
    by apply isValidStatusTransition_allowed. }
  assert (Hno : ~ Spec.allowed (OrderAggregate.status a) newStatus ->
                OrderAggregate.updateStatus rt newStatus updatedBy a
                = (JS.Throw (Spec.InvalidTransition (OrderAggregate.status a) newStatus), a)).
  { intros H. apply updateStatus_invalid; [done..|].
    destruct (OrderAggregate.isValidStatusTransition _ _) eqn:E; [|done].
    by apply isValidStatusTransition_allowed in E. }
  repeat split; try done.
  - intros Hr. destruct (allowed_dec (OrderAggregate.status a) newStatus) as [|Hn]; [done|].
    rewrite (Hno Hn) in Hr. discriminate Hr.
  - intros H. by rewrite (Hyes H).
  - intros s H. inversion H.
  - intros s H. inversion H.
Qed.

(** The transition guard of the specification: DELIVERED → PROCESSING is
    rejected on an existing order; here after PENDING → CONFIRMED → PROCESSING
    → SHIPPED → DELIVERED has succeeded end to end. *)
Lemma C1_witness :
  let delivered :=
    Sample.after (Sample.to_shipped ++ [OrderAggregate.UpdateStatus Types.DELIVERED None]) in
  OrderAggregate.status delivered = Types.DELIVERED
  /\ OrderAggregate.updateStatus Sample.rt Types.PROCESSING None delivered
     = (JS.Throw (Spec.InvalidTransition Types.DELIVERED Types.PROCESSING), delivered).
Proof.
  intros delivered. split; [vm_compute; reflexivity|].
  apply (C1_updateStatus_follows_graph Sample.rt delivered Types.PROCESSING None);
    [by vm_compute | by vm_compute | intros H; vm_compute in H; inversion H].
Defined.

(** ** createOrder *)

Section CreateOrder.
Import JS Types OrderAggregate.

Lemma createOrder_exists rt a userId items addr pm :
  (0 < version a)%Z ->
  createOrder rt userId items addr pm a = (Throw (new_Error "Order already exists"), a).
Proof.
  intros H. unfold createOrder, bind, read. simpl.
  by destruct (Z.ltb_spec 0 (version a)); [|lia].
Qed.

Lemma createOrder_empty rt a userId addr pm :
  (version a <= 0)%Z ->
  createOrder rt userId [] addr pm a
  = (Throw (new_Error "Order must have at least one item"), a).
Proof.
  intros H. unfold createOrder, bind, read. simpl.
  by destruct (Z.ltb_spec 0 (version a)); [lia|].
Qed.

Lemma createOrder_total_not_positive rt a userId items addr pm :
  (version a <= 0)%Z -> items <> [] ->
  Number.leb (reduce_total items) (Number.Finite 0) = true ->
  createOrder rt userId items addr pm a
  = (Throw (new_Error "Order total must be greater than zero"), a).
Proof.
  intros H Hi Ht. unfold createOrder, bind, read. simpl.
  destruct (Z.ltb_spec 0 (version a)); [lia|].
  destruct items as [|item rest]; [done|]. cbn [length Nat.eqb].
  by rewrite Ht.
Qed.

Lemma createOrder_accepted rt a userId items addr pm :
  (version a <= 0)%Z -> items <> [] ->
  Number.leb (reduce_total items) (Number.Finite 0) = false ->
  createOrder rt userId items addr pm a
  = (Return tt, Expected.order_created rt a userId items addr pm).
Proof.
  intros H Hi Ht. unfold createOrder, bind, read. simpl.
  destruct (Z.ltb_spec 0 (version a)); [lia|].
  destruct items as [|item rest]; [done|]. cbn [length Nat.eqb].
  by rewrite Ht.
Qed.

End CreateOrder.

(** C7, as stated, fails on the class of the error: the aggregate throws a
    plain [Error], whose name is not 'ValidationError'. *)
Lemma C7_counterexample_error_class :
  exists e,
    fst (OrderAggregate.createOrder Sample.rt "user-1" [] Sample.address "card"
           Sample.fresh) = JS.Throw e
    /\ JS.message e = "Order must have at least one item"
    /\ ~ Spec.is_ValidationError e.
Proof.
  eexists. split; [reflexivity|]. split; [reflexivity|].
  unfold Spec.is_ValidationError. simpl. discriminate.
Qed.

(** C7 (amended): on a fresh aggregate, [createOrder] throws a plain [Error]
    ('Order must have at least one item', 'Order total must be greater than
    zero') and emits no event when the items are empty or the computed total
    is at most 0; otherwise it emits exactly one OrderCreated event with
    version 1, the status is PENDING and the total amount is the computed
    total.  The computed total is what [items.reduce] returns: the products
    price*quantity added up from 0 in the order of the items, each product
    and each sum rounded as doubles are. *)
Theorem C7_createOrder_on_fresh_aggregate
    (rt : BaseEvent.Runtime) (id : option string) (userId : string)
    (items : list Types.OrderItem) (addr : Types.Address) (pm : string) :
  let fresh := OrderAggregate.new rt id in
  let run := OrderAggregate.createOrder rt userId items addr pm fresh in
  let total := OrderAggregate.reduce_total items in
  (items = [] ->
   run = (JS.Throw (JS.new_Error "Order must have at least one item"), fresh))
  /\ (items <> [] -> Number.leb total (Number.Finite 0) = true ->
      run = (JS.Throw (JS.new_Error "Order total must be greater than zero"), fresh))
  /\ (items <> [] -> Number.leb total (Number.Finite 0) = false ->
      exists e a,
        run = (JS.Return tt, a)
        /\ OrderAggregate.uncommittedEvents a = [e]
        /\ BaseEvent.data e
           = BaseEvent.OrderCreated (OrderAggregate.id fresh) userId items total addr pm
        /\ BaseEvent.version e = 1%Z
        /\ OrderAggregate.version a = 1%Z
        /\ OrderAggregate.status a = Types.PENDING
        /\ OrderAggregate.items a = items
        /\ OrderAggregate.totalAmount a = total).
Proof.
  intros fresh run total. subst run total. split; [|split].
  - intros ->. by apply createOrder_empty.
  - intros Hi Ht. by apply createOrder_total_not_positive.
  - intros Hi Ht. eexists _, _. split.
    + by apply createOrder_accepted.
    + simpl. repeat split; reflexivity.
Qed.

(** Scenario A: one item with quantity 2 and price 10 gives an OrderCreated
    event of version 1, status PENDING and total 20. *)
Lemma C7_witness :
  OrderAggregate.reduce_total [Sample.item_p1] = Number.Finite 20
  /\ exists e a,
      OrderAggregate.createOrder Sample.rt "user-1" [Sample.item_p1] Sample.address
        "card" Sample.fresh = (JS.Return tt, a)
      /\ OrderAggregate.uncommittedEvents a = [e]
      /\ BaseEvent.data e
         = BaseEvent.OrderCreated "order-1" "user-1" [Sample.item_p1]
             (OrderAggregate.reduce_total [Sample.item_p1]) Sample.address "card"
      /\ BaseEvent.version e = 1%Z
      /\ OrderAggregate.version a = 1%Z
      /\ OrderAggregate.status a = Types.PENDING
      /\ OrderAggregate.items a = [Sample.item_p1]
      /\ OrderAggregate.totalAmount a = OrderAggregate.reduce_total [Sample.item_p1].
Proof.
  split; [vm_compute; reflexivity|].
  apply (C7_createOrder_on_fresh_aggregate Sample.rt (Some "order-1") "user-1"
           [Sample.item_p1] Sample.address "card");
    [discriminate | vm_compute; reflexivity].
Defined.

(** The total is a sum of doubles.  Three units at 0.1 (the double nearest
    to 1/10) come to 0.30000000000000004, which is not three times that
    double. *)
Example reduce_total_rounds :
  OrderAggregate.reduce_total
    [{| Types.productId := "p1"; Types.quantity := 3; Types.price := Sample.dime;
        Types.name := "Washer" |}]
  = Number.Finite (1351079888211149 # 4503599627370496)
  /\ ~ (Sample.dime * 3 == 1351079888211149 # 4503599627370496)%Q.
Proof. split; [vm_compute; reflexivity | by vm_compute]. Qed.

(** Rounding decides the guard as well: 10^16, then 1, then -10^16 add up
    to 0 in doubles, so the order is refused although the exact sum is 1. *)
Example createOrder_total_lost_to_rounding :
  OrderAggregate.createOrder Sample.rt "user-1"
    [{| Types.productId := "p1"; Types.quantity := 1; Types.price := 10 ^ 16;
        Types.name := "a" |};
     {| Types.productId := "p2"; Types.quantity := 1; Types.price := 1;
        Types.name := "b" |};
     {| Types.productId := "p3"; Types.quantity := 1; Types.price := - 10 ^ 16;
        Types.name := "c" |}]
    Sample.address "card" Sample.fresh
  = (JS.Throw (JS.new_Error "Order total must be greater than zero"), Sample.fresh).
Proof. vm_compute. reflexivity. Qed.

(** A product out of the range of doubles is an infinity, which the guard
    lets through. *)
Example createOrder_total_overflows :
  OrderAggregate.reduce_total
    [{| Types.productId := "p1"; Types.quantity := 10; Types.price := 10 ^ 308;
        Types.name := "a" |}]
  = Number.Infinity false
  /\ Number.leb (Number.Infinity false) (Number.Finite 0) = false.
Proof. split; vm_compute; reflexivity. Qed.

(** C10: on an aggregate whose version is positive, [createOrder] throws
    'Order already exists' whatever the items are (empty, of total zero, or
    valid), emits no event and leaves the aggregate as it was. *)
Theorem C10_createOrder_only_once
    (rt : BaseEvent.Runtime) (a : OrderAggregate.t) (userId : string)
    (items : list Types.OrderItem) (addr : Types.Address) (pm : string) :
  (0 < OrderAggregate.version a)%Z ->
  OrderAggregate.createOrder rt userId items addr pm a
  = (JS.Throw (JS.new_Error "Order already exists"), a).
Proof. apply createOrder_exists. Qed.

Lemma C10_witness :
  (0 < OrderAggregate.version (Sample.after [Sample.create]))%Z
  /\ OrderAggregate.createOrder Sample.rt "user-2" [] Sample.address "cash"
       (Sample.after [Sample.create])
     = (JS.Throw (JS.new_Error "Order already exists"), Sample.after [Sample.create]).
Proof.
  split; [reflexivity|].
  apply (C10_createOrder_only_once Sample.rt (Sample.after [Sample.create])).
  reflexivity.
Defined.

(** ** cancelOrder *)

Section CancelOrder.
Import JS Types OrderAggregate.

Lemma cancelOrder_final rt a reason cancelledBy refundAmount :
  version a <> 0%Z ->
  status a = DELIVERED \/ status a = CANCELLED ->
  cancelOrder rt reason cancelledBy refundAmount a
  = (Throw (new_Error ("Cannot cancel order with status "
                       +:+ OrderStatus_value (status a))), a).
Proof.
  intros Hv Hs. unfold cancelOrder, bind, read. simpl.
  destruct (Z.eqb_spec (version a) 0); [done|].
  by destruct Hs as [-> | ->].
Qed.

(** The cascade: OrderCancelled is applied first, then [updateStatus] runs on
    the aggregate that has recorded it. *)
Lemma cancelOrder_cascade rt a reason cancelledBy refundAmount :
  version a <> 0%Z ->
  status a <> DELIVERED -> status a <> CANCELLED ->
  cancelOrder rt reason cancelledBy refundAmount a
  = updateStatus rt CANCELLED None
      (Expected.cancel_recorded rt a reason cancelledBy refundAmount).
Proof.
  intros Hv Hd Hc. unfold cancelOrder, bind, read. simpl.
  destruct (Z.eqb_spec (version a) 0); [done|].
  rewrite !OrderStatus_eqb_neq by done. reflexivity.
Qed.

Lemma cancelOrder_open rt a reason cancelledBy refundAmount :
  (0 < version a)%Z ->
  status a = PENDING \/ status a = CONFIRMED \/ status a = PROCESSING ->
  cancelOrder rt reason cancelledBy refundAmount a
  = (Return tt,
     Expected.status_updated rt
       (Expected.cancel_recorded rt a reason cancelledBy refundAmount)
       CANCELLED None).
Proof.
  intros Hv Hs.
  rewrite cancelOrder_cascade; [| lia | | ]; try (destruct Hs as [-> | [-> | ->]]; discriminate).
  apply updateStatus_valid; simpl; [lia | |];
    destruct Hs as [-> | [-> | ->]]; done.
Qed.

Lemma cancelOrder_shipped rt a reason cancelledBy refundAmount :
  (0 < version a)%Z ->
  status a = SHIPPED ->
  cancelOrder rt reason cancelledBy refundAmount a
  = (Throw (Spec.InvalidTransition SHIPPED CANCELLED),
     Expected.cancel_recorded rt a reason cancelledBy refundAmount).
Proof.
  intros Hv Hs.
  rewrite cancelOrder_cascade; [| lia | rewrite Hs; discriminate..].
  rewrite <- Hs at 1.
  change (status a) with
    (status (Expected.cancel_recorded rt a reason cancelledBy refundAmount)) at 1.
  apply updateStatus_invalid; simpl; [lia | |]; by rewrite Hs.
Qed.

Lemma OrderService_cancelOrder_refund rt a reason cancelledBy :
  OrderService.cancelOrder rt reason cancelledBy a
  = cancelOrder rt reason cancelledBy (Expected.refund a) a.
Proof.
  unfold OrderService.cancelOrder, Expected.refund. by destruct (status a).
Qed.

(** What C8 states, where the code agrees with it: an existing order that is
    PENDING, CONFIRMED or PROCESSING is cancelled; OrderCancelled and
    OrderStatusUpdated are emitted, the status ends CANCELLED, and the refund
    carried by OrderCancelled is the total amount when the order was CONFIRMED. *)
Lemma OrderService_cancelOrder_open rt a reason cancelledBy :
  (0 < version a)%Z ->
  status a = PENDING \/ status a = CONFIRMED \/ status a = PROCESSING ->
  exists a',
    OrderService.cancelOrder rt reason cancelledBy a = (Return tt, a')
    /\ status a' = CANCELLED
    /\ uncommittedEvents a' =
       uncommittedEvents a ++
       [BaseEvent.createEvent rt (id a) "Order"
          (BaseEvent.OrderCancelled (id a) reason cancelledBy (Expected.refund a))
          (version a + 1)%Z;
        BaseEvent.createEvent rt (id a) "Order"
          (BaseEvent.OrderStatusUpdated (id a) (status a) CANCELLED None)
          (version a + 1 + 1)%Z]
    /\ (status a = CONFIRMED -> Expected.refund a = Some (totalAmount a)).
Proof.
  intros Hv Hs. eexists. split.
  - rewrite OrderService_cancelOrder_refund. by apply cancelOrder_open.
  - split; [reflexivity|]. split.
    + simpl. by rewrite <- app_assoc.
    + intros E. unfold Expected.refund. by rewrite E.
Qed.

End CancelOrder.

(** C8, where the code departs from it: cancelling an order that is SHIPPED
    passes the guard of [cancelOrder], records OrderCancelled, and then the
    cascaded [updateStatus] throws; the status stays SHIPPED. *)
Theorem C8_cancel_shipped_order_throws :
  let shipped := Sample.after Sample.to_shipped in
  OrderAggregate.status shipped = Types.SHIPPED
  /\ exists a',
      OrderService.cancelOrder Sample.rt "changed my mind" (Some "user-1") shipped
      = (JS.Throw (Spec.InvalidTransition Types.SHIPPED Types.CANCELLED), a')
      /\ OrderAggregate.status a' = Types.SHIPPED
      /\ OrderAggregate.version a' = (OrderAggregate.version shipped + 1)%Z
      /\ BaseEvent.type <$> OrderAggregate.uncommittedEvents a'
         = (BaseEvent.type <$> OrderAggregate.uncommittedEvents shipped)
           ++ ["OrderCancelled"].
Proof.
  intros shipped. split; [reflexivity|]. eexists. split.
  - rewrite OrderService_cancelOrder_refund. by apply cancelOrder_shipped.
  - repeat split; reflexivity.
Qed.

(** ** Replay *)

Section ReplayFacts.
Import JS Types OrderAggregate Replay.

Lemma applied_trans a b c : applied a b -> applied b c -> applied a c.
Proof. induction 1; [done|]. intros H'. eapply applied_event; eauto. Qed.

Lemma applied_one a event a1 :
  applyEvent event a = (Return tt, a1) -> applied a a1.
Proof. intros H. eapply applied_event; [exact H | constructor]. Qed.

(** An event of a known type is always applied; it is appended to the buffer. *)
Lemma applyEvent_buffer event a a1 :
  applyEvent event a = (Return tt, a1) ->
  uncommittedEvents a1 = uncommittedEvents a ++ [event].
Proof.
  unfold applyEvent, bind. destruct (BaseEvent.data event); simpl;
    intros [= <-]; reflexivity.
Qed.

Lemma applied_buffer a a' :
  applied a a' -> exists events, uncommittedEvents a' = uncommittedEvents a ++ events.
Proof.
  induction 1 as [a | a event a1 a2 H _ [events IH]].
  - exists []. by rewrite app_nil_r.
  - exists (event :: events). rewrite IH, (applyEvent_buffer _ _ _ H).
    by rewrite <- app_assoc.
Qed.

(** Every command changes the aggregate through [applyEvent] only, also when
    it ends by throwing. *)
Ltac event_step E :=
  match goal with
  | |- context [applyEvent ?e ?a] =>
      let a1 := fresh "a1" in
      pose (a1 := snd (applyEvent e a));
      assert (E : applyEvent e a = (Return tt, a1)) by reflexivity;
      clearbody a1; rewrite E
  end.

Lemma updateStatus_applied rt newStatus updatedBy a r a' :
  updateStatus rt newStatus updatedBy a = (r, a') -> applied a a'.
Proof.
  unfold updateStatus, bind, read. cbn -[applyEvent].
  destruct (version a =? 0)%Z; [intros [= _ <-]; constructor|].
  destruct (OrderStatus_eqb (status a) newStatus); [intros [= _ <-]; constructor|].
  destruct (isValidStatusTransition (status a) newStatus); cbn -[applyEvent];
    [|intros [= _ <-]; constructor].
  event_step E. intros [= _ <-]. by eapply applied_one.
Qed.

Lemma createOrder_applied rt userId items addr pm a r a' :
  createOrder rt userId items addr pm a = (r, a') -> applied a a'.
Proof.
  unfold createOrder, bind, read. cbn -[applyEvent].
  destruct (0 <? version a)%Z; [intros [= _ <-]; constructor|].
  destruct (length items =? 0); [intros [= _ <-]; constructor|].
  destruct (Number.leb (reduce_total items) _); [intros [= _ <-]; constructor|].
  event_step E. intros [= _ <-]. by eapply applied_one.
Qed.

Lemma processPayment_applied rt ps tx gw a r a' :
  processPayment rt ps tx gw a = (r, a') -> applied a a'.
Proof.
  unfold processPayment, bind, read. cbn -[applyEvent updateStatus].
  destruct (version a =? 0)%Z; [intros [= _ <-]; constructor|].
  event_step E.
  destruct (String.eqb ps "completed" && OrderStatus_eqb (status a1) PENDING).
  - intros H. eapply applied_event; [exact E|].
    eapply updateStatus_applied. exact H.
  - intros [= _ <-]. by eapply applied_one.
Qed.

Lemma shipOrder_applied rt tn ca eta a r a' :
  shipOrder rt tn ca eta a = (r, a') -> applied a a'.
Proof.
  unfold shipOrder, bind, read. cbn -[applyEvent updateStatus].
  destruct (version a =? 0)%Z; [intros [= _ <-]; constructor|].
  destruct (OrderStatus_eqb (status a) PROCESSING); cbn -[applyEvent updateStatus];
    [|intros [= _ <-]; constructor].
  event_step E. intros H. eapply applied_event; [exact E|].
  eapply updateStatus_applied. exact H.
Qed.

Lemma cancelOrder_applied rt reason by_ amt a r a' :
  cancelOrder rt reason by_ amt a = (r, a') -> applied a a'.
Proof.
  unfold cancelOrder, bind, read. cbn -[applyEvent updateStatus].
  destruct (version a =? 0)%Z; [intros [= _ <-]; constructor|].
  destruct (OrderStatus_eqb (status a) DELIVERED || OrderStatus_eqb (status a) CANCELLED);
    [intros [= _ <-]; constructor|].
  event_step E. intros H. eapply applied_event; [exact E|].
  eapply updateStatus_applied. exact H.
Qed.

Lemma execute_applied rt c a r a' : execute rt c a = (r, a') -> applied a a'.
Proof.
  destruct c; simpl;
    eauto using createOrder_applied, updateStatus_applied, processPayment_applied,
      shipOrder_applied, cancelOrder_applied.
Qed.

Lemma execute_all_applied rt cs a r a' :
  execute_all rt cs a = (r, a') -> applied a a'.
Proof.
  revert a. induction cs as [|c cs IH]; intros a; simpl.
  - intros [= _ <-]. constructor.
  - unfold bind. destruct (execute rt c a) as [[[]|e] a1] eqn:E.
    + intros H. eapply applied_trans; [eapply execute_applied; exact E | eauto].
    + intros [= _ <-]. eapply execute_applied; exact E.
Qed.

(** Replaying the buffer of [a'] from [a0] gives [a'] when replaying the
    buffer of [a] does and [a'] is [a] with more events applied. *)
Lemma forEach_applyEvent_app events1 events2 a :
  forEach_applyEvent (events1 ++ events2) a
  = (forEach_applyEvent events1 ;;; forEach_applyEvent events2) a.
Proof.
  revert a. induction events1 as [|event rest IH]; intros a; simpl.
  - reflexivity.
  - unfold bind. destruct (applyEvent event a) as [[[]|e] a1]; [|done].
    rewrite IH. reflexivity.
Qed.

Lemma replay_applied a0 a a' :
  forEach_applyEvent (uncommittedEvents a) a0 = (Return tt, a) ->
  applied a a' ->
  forEach_applyEvent (uncommittedEvents a') a0 = (Return tt, a').
Proof.
  intros H Ha. induction Ha as [a | a event a1 a2 He _ IH]; [done|].
  apply IH. rewrite (applyEvent_buffer _ _ _ He), forEach_applyEvent_app.
  unfold bind at 1. rewrite H. simpl. unfold bind. by rewrite He.
Qed.

(** [applyEvent] neither reads nor writes the id. *)
Lemma applyEvent_with_id i event a :
  applyEvent event (with_id i a)
  = (fst (applyEvent event a), with_id i (snd (applyEvent event a))).
Proof. unfold applyEvent, bind. by destruct (BaseEvent.data event). Qed.

Lemma forEach_applyEvent_with_id i events a :
  forEach_applyEvent events (with_id i a)
  = (fst (forEach_applyEvent events a), with_id i (snd (forEach_applyEvent events a))).
Proof.
  revert a. induction events as [|event rest IH]; intros a; simpl; [done|].
  unfold bind. rewrite applyEvent_with_id.
  destruct (applyEvent event a) as [[[]|e] a1]; simpl; [apply IH | done].
Qed.

Lemma new_with_id rt rt' i j : new rt i = with_id (id (new rt i)) (new rt' j).
Proof. reflexivity. Qed.

(** The first command that succeeds on a fresh aggregate leaves an event. *)
Lemma execute_new_buffer rt i c a :
  execute rt c (new rt i) = (Return tt, a) -> uncommittedEvents a <> [].
Proof.
  destruct c as [u its addr pm| | | |]; simpl; try (intros [=]; fail).
  unfold createOrder, bind, read. simpl.
  destruct (length its =? 0); [intros [=]|].
  destruct (Number.leb (reduce_total its) _); [intros [=]|].
  intros [= <-]. simpl. discriminate.
Qed.

Lemma execute_all_new_buffer rt i cs a :
  cs <> [] ->
  execute_all rt cs (new rt i) = (Return tt, a) -> uncommittedEvents a <> [].
Proof.
  destruct cs as [|c cs]; [done|]. intros _. simpl. unfold bind.
  destruct (execute rt c (new rt i)) as [[[]|e] a1] eqn:E; [|intros [=]].
  intros H. apply execute_all_applied, applied_buffer in H as [events ->].
  apply execute_new_buffer in E. by destruct (uncommittedEvents a1).
Qed.

End ReplayFacts.

(** C2: after any non-empty sequence of commands that all succeed on a fresh
    aggregate, [fromEvents] of the events they emitted returns an aggregate
    with the same status, total amount, items and version, and with an empty
    buffer of uncommitted events (whatever the runtime of the replay draws). *)
Theorem C2_replay_reproduces_live_aggregate
    (rt rt' : BaseEvent.Runtime) (id : option string)
    (cs : list OrderAggregate.Command) (live : OrderAggregate.t) :
  cs <> [] ->
  OrderAggregate.execute_all rt cs (OrderAggregate.new rt id) = (JS.Return tt, live) ->
  exists replayed,
    OrderAggregate.fromEvents rt' (OrderAggregate.uncommittedEvents live)
    = JS.Return replayed
    /\ OrderAggregate.status replayed = OrderAggregate.status live
    /\ OrderAggregate.totalAmount replayed = OrderAggregate.totalAmount live
    /\ OrderAggregate.items replayed = OrderAggregate.items live
    /\ OrderAggregate.version replayed = OrderAggregate.version live
    /\ OrderAggregate.uncommittedEvents replayed = [].
Proof.
  intros Hcs Hrun.
  pose proof (execute_all_new_buffer _ _ _ _ Hcs Hrun) as Hne.
  assert (Hreplay :
    OrderAggregate.forEach_applyEvent (OrderAggregate.uncommittedEvents live)
      (OrderAggregate.new rt id) = (JS.Return tt, live)).
  { apply (replay_applied (OrderAggregate.new rt id) (OrderAggregate.new rt id) live);
      [reflexivity | eapply execute_all_applied; exact Hrun]. }
  unfold OrderAggregate.fromEvents.
  destruct (OrderAggregate.uncommittedEvents live) as [|first rest] eqn:Hbuf; [done|].
  rewrite (new_with_id rt' rt _ id).
  unfold OrderAggregate.bind.
  rewrite forEach_applyEvent_with_id, Hreplay. simpl.
  eexists. split; [reflexivity|]. repeat split; reflexivity.
Qed.

Lemma C2_witness :
  let cs := Sample.to_shipped ++ [OrderAggregate.UpdateStatus Types.DELIVERED None] in
  cs <> []
  /\ OrderAggregate.execute_all Sample.rt cs Sample.fresh
     = (JS.Return tt, Sample.after cs)
  /\ exists replayed,
      OrderAggregate.fromEvents Sample.rt
        (OrderAggregate.uncommittedEvents (Sample.after cs)) = JS.Return replayed
      /\ OrderAggregate.status replayed = OrderAggregate.status (Sample.after cs)
      /\ OrderAggregate.totalAmount replayed = OrderAggregate.totalAmount (Sample.after cs)
      /\ OrderAggregate.items replayed = OrderAggregate.items (Sample.after cs)
      /\ OrderAggregate.version replayed = OrderAggregate.version (Sample.after cs)
      /\ OrderAggregate.uncommittedEvents replayed = [].
Proof.
  intros cs. split; [discriminate|]. split; [vm_compute; reflexivity|].
  apply (C2_replay_reproduces_live_aggregate Sample.rt Sample.rt (Some "order-1") cs);
    [discriminate | vm_compute; reflexivity].
Defined.

(** ** Inventory: what a save lets through *)

Section InventoryFacts.
Import JS Inventory InventoryService Persisted.

Lemma Qlt_bool_false (x y : Q) : Qlt_bool x y = false <-> (y <= x)%Q.
Proof.
  unfold Qlt_bool. rewrite negb_false_iff. apply Qle_bool_iff.
Qed.

Lemma Qlt_bool_true (x y : Q) : Qlt_bool x y = true <-> (x < y)%Q.
Proof.
  unfold Qlt_bool. rewrite negb_true_iff. split.
  - intros H. apply Qnot_le_lt. intros H'. apply Qle_bool_iff in H'. congruence.
  - intros H. destruct (Qle_bool y x) eqn:E; [|done].
    apply Qle_bool_iff in E. lra.
Qed.

Lemma pre_save_lastUpdated_fields now db d :
  productId (pre_save_lastUpdated now db d) = productId d
  /\ quantity (pre_save_lastUpdated now db d) = quantity d
  /\ reservedQuantity (pre_save_lastUpdated now db d) = reservedQuantity d
  /\ movements (pre_save_lastUpdated now db d) = movements d.
Proof. unfold pre_save_lastUpdated. by destruct (_ || _). Qed.

(** A save that resolves has written a document that satisfies the invariant,
    under its product id; a save that rejects has written nothing. *)
Lemma save_resolved now d db d1 db' :
  save now d db = (Resolved tt, d1, db') ->
  d1 = pre_save_lastUpdated now db d
  /\ db' = <[productId d := d1]> db
  /\ Spec.record_invariant d1.
Proof.
  unfold save. destruct (validate d) eqn:Ev; [intros [=]|].
  destruct (pre_save_reserved _) eqn:Eh; [intros [=]|].
  intros [= <- <-].
  destruct (pre_save_lastUpdated_fields now db d) as (Hp & Hq & Hr & _).
  split; [done|]. split; [by rewrite Hp|].
  unfold Spec.record_invariant. rewrite Hq, Hr.
  unfold pre_save_reserved in Eh. rewrite Hq, Hr in Eh.
  destruct (Qlt_bool (quantity d) (reservedQuantity d)) eqn:El; [done|].
  apply Qlt_bool_false in El. split; [|done].
  unfold validate in Ev.
  repeat match type of Ev with
         | (if ?c then _ else _) = None => destruct c eqn:?; [discriminate Ev|]
         end.
  match goal with
  | H : negb (Qle_bool 0 (reservedQuantity d) && _) = false |- _ =>
      apply negb_false_iff, andb_true_iff in H as [H _];
      by apply Qle_bool_iff in H
  end.
Qed.

Lemma save_rejected now d db f d1 db' :
  save now d db = (Rejected f, d1, db') -> db' = db.
Proof.
  unfold save. destruct (validate d); [by intros [= _ _ <-]|].
  destruct (pre_save_reserved _); [by intros [= _ _ <-]|]. intros [=].
Qed.

(** A save rejects with a validation failure or with the error of the
    pre-save hook, never with an error of the bus. *)
Lemma save_rejected_not_publish now d db f d1 db' :
  save now d db = (Rejected f, d1, db') -> forall e, f <> Publish_failed e.
Proof.
  unfold save. destruct (validate d) as [f0|] eqn:Ev.
  - intros [= <- _ _] e ->. unfold validate in Ev.
    repeat match type of Ev with
           | (if ?c then _ else _) = _ => destruct c; [discriminate Ev|]
           end.
    discriminate Ev.
  - unfold pre_save_reserved. destruct (Qlt_bool _ _); [|intros [=]].
    by intros [= <- _ _] e.
Qed.

Lemma collection_invariant_insert db d :
  Spec.collection_invariant db -> Spec.record_invariant d ->
  Spec.collection_invariant (<[productId d := d]> db).
Proof.
  intros Hdb Hd p d'. rewrite lookup_insert. case_decide.
  - by intros [= <-].
  - apply Hdb.
Qed.

Lemma save_kept now d db : kept db (save now d db).
Proof.
  destruct (save now d db) as [[[[]|f] d1] db'] eqn:E; simpl.
  - apply save_resolved in E as (-> & -> & Hi). eexists.
    split; [|exact Hi]. by destruct (pre_save_lastUpdated_fields now db d) as (-> & _).
  - by apply save_rejected in E.
Qed.

Lemma reserve_kept now d q reason ref u db : kept db (reserve now d q reason ref u db).
Proof.
  unfold reserve. repeat (case_match; [done|]). apply save_kept.
Qed.

Lemma release_kept now d q reason ref u db : kept db (release now d q reason ref u db).
Proof.
  unfold release. repeat (case_match; [done|]). apply save_kept.
Qed.

Lemma adjust_kept now d q reason u db : kept db (adjust now d q reason u db).
Proof.
  unfold adjust. repeat (case_match; [done|]). apply save_kept.
Qed.

Lemma addStock_kept now d q reason ref u db : kept db (addStock now d q reason ref u db).
Proof.
  unfold addStock. repeat (case_match; [done|]). apply save_kept.
Qed.

Lemma removeStock_kept now d q reason ref u db :
  kept db (removeStock now d q reason ref u db).
Proof.
  unfold removeStock. repeat (case_match; [done|]). apply save_kept.
Qed.

Lemma kept_invariant db r :
  Spec.collection_invariant db -> kept db r ->
  Spec.collection_invariant (snd r)
  /\ (forall f, fst (fst r) = Rejected f -> snd r = db).
Proof.
  intros Hdb. destruct r as [[[[]|f] d1] db']; simpl.
  - intros (d & -> & Hd). split; [by apply collection_invariant_insert | done].
  - intros ->. done.
Qed.

Lemma on_document_kept p w call :
  Spec.collection_invariant (inventories w) ->
  (forall d, kept (inventories w) (call d)) ->
  Spec.collection_invariant (inventories (snd (on_document p w call)))
  /\ (forall f, fst (on_document p w call) = Rejected f ->
      inventories (snd (on_document p w call)) = inventories w).
Proof.
  intros Hdb Hcall. unfold on_document, findByProductId.
  destruct (inventories w !! p) as [d|]; [|done].
  destruct (kept_invariant (inventories w) (call d) Hdb (Hcall d)) as [H1 H2].
  destruct (call d) as [[r d1] db']. done.
Qed.

(** Publishing leaves the collection as the document method left it, and
    rejects only with what the bus threw. *)
Lemma publish_inventories now routingKey p data w db :
  inventories (snd (publish now routingKey p data w db)) = db.
Proof. unfold publish. by destruct (EventBus.publish _ _ _ _) as [[[]|e] bus]. Qed.

Lemma publish_rejected now routingKey p data w db f :
  fst (publish now routingKey p data w db) = Rejected f -> exists e, f = Publish_failed e.
Proof.
  unfold publish. destruct (EventBus.publish _ _ _ _) as [[[]|e] bus]; simpl; [done|].
  intros [= <-]. by exists e.
Qed.

Lemma publish_resolved now routingKey p data w db w' :
  publish now routingKey p data w db = (Resolved tt, w') -> inventories w' = db.
Proof. intros H. by rewrite <- (publish_inventories now routingKey p data w db), H. Qed.

Lemma initializeInventory_kept now p q reason u w :
  Spec.collection_invariant (inventories w) ->
  Spec.collection_invariant (inventories (snd (initializeInventory now p q reason u w)))
  /\ (forall f, fst (initializeInventory now p q reason u w) = Rejected f ->
      (forall e, f <> Publish_failed e) ->
      inventories (snd (initializeInventory now p q reason u w)) = inventories w).
Proof.
  intros Hdb. unfold initializeInventory, findByProductId.
  destruct (inventories w !! p); [done|].
  match goal with |- context [save ?n ?d ?b] =>
    destruct (kept_invariant (inventories w) (save n d b) Hdb (save_kept n d b))
      as [H1 H2];
    destruct (save n d b) as [[[[]|f0] d1] db']
  end; simpl in *.
  - rewrite publish_inventories. split; [done|].
    intros f Hf Hne. apply publish_rejected in Hf as [e ->]. by destruct (Hne e).
  - split; [done|]. intros f _ _. by apply (H2 f0).
Qed.

End InventoryFacts.

Lemma perform_invariant now op w :
  Spec.collection_invariant (InventoryService.inventories w) ->
  Spec.collection_invariant
    (InventoryService.inventories (snd (InventoryService.perform now op w)))
  /\ (forall f, fst (InventoryService.perform now op w) = Inventory.Rejected f ->
      (forall e, f <> Inventory.Publish_failed e) ->
      InventoryService.inventories (snd (InventoryService.perform now op w))
      = InventoryService.inventories w).
Proof.
  intros Hdb.
  assert (Hdoc : forall p call,
    (forall d, Persisted.kept (InventoryService.inventories w) (call d)) ->
    Spec.collection_invariant
      (InventoryService.inventories (snd (InventoryService.on_document p w call)))
    /\ (forall f, fst (InventoryService.on_document p w call) = Inventory.Rejected f ->
        (forall e, f <> Inventory.Publish_failed e) ->
        InventoryService.inventories (snd (InventoryService.on_document p w call))
        = InventoryService.inventories w)).
  { intros p call Hcall.
    destruct (on_document_kept p w call Hdb Hcall) as [H1 H2]. split; [done|].
    intros f Hf _. by apply (H2 f). }
  destruct op; simpl.
  - by apply initializeInventory_kept.
  - apply Hdoc. intros d. apply reserve_kept.
  - apply Hdoc. intros d. apply release_kept.
  - apply Hdoc. intros d. apply adjust_kept.
  - apply Hdoc. intros d. apply addStock_kept.
  - apply Hdoc. intros d. apply removeStock_kept.
Qed.


Lemma warehouse_invariant : Spec.collection_invariant Sample.warehouse.
Proof.
  unfold Sample.warehouse. intros p d [<- <-]%lookup_singleton_Some.
  split; simpl; lra.
Qed.


(** The invariant holds along every history of operations from the empty
    collection, whatever the event bus does. *)
Corollary invariant_along_history (history : list (Z * InventoryService.Operation))
    (bus : EventBus.t) :
  Spec.collection_invariant
    (InventoryService.inventories
       (InventoryService.perform_all history
          {| InventoryService.inventories := ∅; InventoryService.eventBus := bus |})).
Proof.
  assert (H : forall w, Spec.collection_invariant (InventoryService.inventories w) ->
                        Spec.collection_invariant
                          (InventoryService.inventories
                             (InventoryService.perform_all history w))).
  { induction history as [|[now op] rest IH]; intros w Hdb; simpl; [done|].
    apply IH. by apply perform_invariant. }
  apply H. intros p d. simpl. by rewrite lookup_empty.
Qed.

(** The guard of [removeStock] compares with the total only: removing 8 of 10
    units while 5 are reserved passes it, and the save is what rejects the
    record; the collection is left as it was. *)
Example removeStock_below_reserved_rejected :
  InventoryService.perform 1700000000060
    (InventoryService.RemoveStock "p1" 8 "shrinkage" None None)
    Sample.shop_5_reserved
  = (Inventory.Rejected Inventory.Reserved_quantity_cannot_exceed_total,
     Sample.shop_5_reserved).
Proof. vm_compute. reflexivity. Qed.

(** An initialization whose event cannot be published is stored all the
    same: the call rejects with the error of the bus, and the record is in
    the collection. *)
Example initializeInventory_stored_though_rejected :
  exists w',
    InventoryService.perform 1700000000070
      (InventoryService.Initialize "p2" 4 "first delivery" None) Sample.shop_offline
    = (Inventory.Rejected (Inventory.Publish_failed (JS.new_Error "EventBus not connected")),
       w')
    /\ Inventory.quantity <$> InventoryService.inventories w' !! "p2" = Some 4%Q.
Proof. eexists. split; vm_compute; reflexivity. Qed.

(** ** The OrderCreated handler and redelivery *)

Section Redelivery.
Import JS Inventory InventoryService OrderCreatedHandler.

Lemma indexed_insert db d :
  Spec.indexed db -> Spec.indexed (<[productId d := d]> db).
Proof.
  intros Hdb p d'. rewrite lookup_insert. case_decide.
  - by intros [= <-].
  - apply Hdb.
Qed.

(** A reservation that resolves on a stored document adds the quantity to its
    reserved quantity, whatever movements the document already lists; other
    products are left alone. *)
Lemma reserveStock_resolved now pid q reason ref u w w' :
  Spec.indexed (inventories w) ->
  reserveStock now pid q reason ref u w = (Resolved tt, w') ->
  Spec.indexed (inventories w')
  /\ (forall p d, inventories w !! p = Some d ->
      exists d', inventories w' !! p = Some d'
        /\ quantity d' = quantity d
        /\ reservedQuantity d'
           = if String.eqb pid p then (reservedQuantity d + q)%Q else reservedQuantity d).
Proof.
  intros Hix. unfold reserveStock, findByProductId.
  set (db := inventories w) in *.
  destruct (db !! pid) as [inventory|] eqn:Hfind.
  - destruct (Qlt_bool (availableQuantity inventory) q); [intros [=]|].
    unfold reserve.
    destruct (Qle_bool q 0); [intros [=]|].
    destruct (Qlt_bool (availableQuantity inventory) q); [intros [=]|].
    destruct (save _ _ _) as [[[[]|f] d1] db1] eqn:Es; [|intros [=]].
    intros Hpub. apply publish_resolved in Hpub as ->.
    apply save_resolved in Es as (-> & -> & _). simpl.
    rewrite (Hix _ _ Hfind).
    split.
    { intros p d'. rewrite lookup_insert. case_decide.
      - intros [= <-]. destruct (pre_save_lastUpdated_fields now db
          (with_reserved inventory (reservedQuantity inventory + q)
             (movement Movement.RESERVED q reason ref u now))) as (-> & _).
        simpl. subst p. by apply Hix.
      - apply Hix. }
    intros p d Hp. rewrite lookup_insert. case_decide as Hk.
    + subst p. rewrite Hfind in Hp. injection Hp as ->.
      eexists. split; [reflexivity|].
      destruct (pre_save_lastUpdated_fields now db
          (with_reserved d (reservedQuantity d + q)
             (movement Movement.RESERVED q reason ref u now))) as (_ & -> & -> & _).
      simpl. by rewrite String.eqb_refl.
    + exists d. split; [done|]. split; [done|].
      destruct (String.eqb_spec pid p); [done|done].
  - unfold initializeInventory, findByProductId. fold db. rewrite Hfind.
    destruct (save _ _ _) as [[[[]|f] d1] db1] eqn:Es; [|intros [=]].
    destruct (publish _ _ _ _ _ _) as [[[]|f] w1] eqn:Ep; [|intros [=]].
    apply publish_resolved in Ep.
    destruct (inventories w1 !! pid); [|intros [=]].
    destruct (Qlt_bool 0 q); [intros [=]|]. intros [= <-]. rewrite Ep.
    apply save_resolved in Es as (-> & -> & _). simpl.
    split.
    { intros p d'. rewrite lookup_insert. case_decide.
      - intros [= <-]. subst p. unfold pre_save_lastUpdated. by destruct (_ || _).
      - apply Hix. }
    intros p d Hp. rewrite lookup_insert. case_decide as Hk.
    + subst p. congruence.
    + exists d. split; [done|]. split; [done|].
      destruct (String.eqb_spec pid p); [done|done].
Qed.

Lemma reserve_items_resolved now orderId items w w' :
  Spec.indexed (inventories w) ->
  reserve_items now orderId items w = (Resolved tt, w') ->
  Spec.indexed (inventories w')
  /\ (forall p d, inventories w !! p = Some d ->
      exists d', inventories w' !! p = Some d'
        /\ quantity d' = quantity d
        /\ (reservedQuantity d' == reservedQuantity d + Spec.demand p items)%Q).
Proof.
  revert w. induction items as [|item rest IH]; intros w Hix; simpl.
  - intros [= <-]. split; [done|]. intros p d Hp. exists d. repeat split; [done|lra].
  - destruct (reserveStock _ _ _ _ _ _ w) as [[[]|f] w1] eqn:E; [|intros [=]].
    intros Hrest.
    apply reserveStock_resolved in E as [Hix1 H1]; [|done].
    apply IH in Hrest as [Hix' H']; [|done].
    split; [done|]. intros p d Hp.
    destruct (H1 _ _ Hp) as (d1 & Hp1 & Hq1 & Hr1).
    destruct (H' _ _ Hp1) as (d' & Hp' & Hq' & Hr').
    exists d'. split; [done|]. split; [congruence|].
    rewrite Hr', Hr1. destruct (String.eqb _ p); lra.
Qed.

End Redelivery.

(** Scenario A, delivered twice: with 10 units of p1 in stock, handling the
    OrderCreated event (2 units of p1) reserves 2 units, and handling the
    same event again reserves 2 more. *)
Example redelivery_of_scenario_A_reserves_twice :
  fst (OrderCreatedHandler.handle 1700000000100 Sample.order_created_event
         Sample.shop) = Inventory.Resolved tt
  /\ fst (OrderCreatedHandler.handle 1700000000200 Sample.order_created_event
            Sample.shop_once) = Inventory.Resolved tt
  /\ Inventory.reservedQuantity <$> Sample.delivered_once !! "p1" = Some 2%Q
  /\ Inventory.reservedQuantity <$> Sample.delivered_twice !! "p1" = Some 4%Q
  /\ Sample.delivered_twice <> Sample.delivered_once.
Proof.
  assert (H1 : Inventory.reservedQuantity <$> Sample.delivered_once !! "p1" = Some 2%Q)
    by (vm_compute; reflexivity).
  assert (H2 : Inventory.reservedQuantity <$> Sample.delivered_twice !! "p1" = Some 4%Q)
    by (vm_compute; reflexivity).
  split; [vm_compute; reflexivity|]. split; [vm_compute; reflexivity|].
  split; [exact H1|]. split; [exact H2|].
  intros E. rewrite E, H1 in H2. discriminate H2.
Qed.

(** C3, where the code departs from it: the handler keeps no key on
    (productId, reference).  Whenever two deliveries of the same OrderCreated
    event both complete, every stored product has had the quantity that the
    order asks of it added to its reserved quantity twice: once per
    delivery. *)
Theorem C3_redelivery_reserves_again
    (now1 now2 : Z) (event : BaseEvent.t) (orderId userId : string)
    (items : list Types.OrderItem) (total : Number.t) (addr : Types.Address)
    (pm : string) (w w1 w2 : InventoryService.World) :
  BaseEvent.data event = BaseEvent.OrderCreated orderId userId items total addr pm ->
  Spec.indexed (InventoryService.inventories w) ->
  OrderCreatedHandler.handle now1 event w = (Inventory.Resolved tt, w1) ->
  OrderCreatedHandler.handle now2 event w1 = (Inventory.Resolved tt, w2) ->
  forall p d, InventoryService.inventories w !! p = Some d ->
    exists d1 d2,
      InventoryService.inventories w1 !! p = Some d1
      /\ InventoryService.inventories w2 !! p = Some d2
      /\ Inventory.quantity d2 = Inventory.quantity d
      /\ (Inventory.reservedQuantity d1
          == Inventory.reservedQuantity d + Spec.demand p items)%Q
      /\ (Inventory.reservedQuantity d2
          == Inventory.reservedQuantity d + Spec.demand p items + Spec.demand p items)%Q.
Proof.
  intros Hev Hix. unfold OrderCreatedHandler.handle. rewrite Hev.
  intros E1 E2 p d Hp.
  apply reserve_items_resolved in E1 as [Hix1 H1]; [|done].
  apply reserve_items_resolved in E2 as [_ H2]; [|done].
  destruct (H1 _ _ Hp) as (d1 & Hp1 & Hq1 & Hr1).
  destruct (H2 _ _ Hp1) as (d2 & Hp2 & Hq2 & Hr2).
  exists d1, d2. repeat split; [done | done | congruence | done |].
  rewrite Hr2, Hr1. lra.
Qed.

Lemma warehouse_indexed : Spec.indexed Sample.warehouse.
Proof. unfold Sample.warehouse. by intros p d [<- <-]%lookup_singleton_Some. Qed.

Lemma C3_witness :
  exists d1 d2,
    Sample.delivered_once !! "p1" = Some d1
    /\ Sample.delivered_twice !! "p1" = Some d2
    /\ Inventory.quantity d2 = Inventory.quantity Sample.stock_p1
    /\ (Inventory.reservedQuantity d1
        == Inventory.reservedQuantity Sample.stock_p1
           + Spec.demand "p1" [Sample.item_p1])%Q
    /\ (Inventory.reservedQuantity d2
        == Inventory.reservedQuantity Sample.stock_p1
           + Spec.demand "p1" [Sample.item_p1] + Spec.demand "p1" [Sample.item_p1])%Q.
Proof.
  apply (C3_redelivery_reserves_again 1700000000100 1700000000200
           Sample.order_created_event "order-1" "user-1" [Sample.item_p1]
           (Number.Finite 20) Sample.address "card" Sample.shop Sample.shop_once
           Sample.shop_twice).
  - reflexivity.
  - exact warehouse_indexed.
  - vm_compute. reflexivity.
  - vm_compute. reflexivity.
  - reflexivity.
Defined.

(** ** Circuit breaker *)

Section CircuitBreakerFacts.
Import JS Async CircuitBreaker.

Lemma onSuccess_fields this :
  options (onSuccess this) = options this
  /\ failureCount (onSuccess this) = 0%Z
  /\ state (onSuccess this) = match state this with HALF_OPEN => CLOSED | s => s end.
Proof. done. Qed.

Lemma onFailure_expected now this error :
  isExpectedError this error = true -> onFailure now this error = this.
Proof. intros H. unfold onFailure. by rewrite H. Qed.

Lemma onFailure_counted now this error :
  isExpectedError this error = false ->
  options (onFailure now this error) = options this
  /\ failureCount (onFailure now this error) = (failureCount this + 1)%Z
  /\ lastFailureTime (onFailure now this error) = Some now
  /\ if (failureThreshold (options this) <=? failureCount this + 1)%Z
     then state (onFailure now this error) = OPEN
          /\ nextAttempt (onFailure now this error)
             = Some (now + resetTimeout (options this))%Z
     else state (onFailure now this error) = state this
          /\ nextAttempt (onFailure now this error) = nextAttempt this.
Proof.
  intros H. unfold onFailure. rewrite H.
  by destruct (failureThreshold (options this) <=? failureCount this + 1)%Z.
Qed.

Lemma execute_options {S T} this (fn : task S T) w :
  options (snd (fst (execute this fn w))) = options this.
Proof.
  unfold execute, run.
  destruct (state this); [| destruct (shouldAttemptReset _ _); [|done] |];
    destruct (fn w) as [[v|e] w']; simpl; try done;
    unfold onFailure; repeat case_match; done.
Qed.

Lemma run_consistent {S T} this (fn : task S T) w :
  (0 < failureThreshold (options this))%Z ->
  consistent this -> state this <> OPEN ->
  consistent (snd (fst (run this fn w))).
Proof.
  intros Ht Hc Hs. unfold run. destruct (fn w) as [[v|e] w']; simpl.
  - unfold consistent. simpl. by destruct (state this).
  - destruct (isExpectedError this e) eqn:Ee.
    + by rewrite onFailure_expected.
    + destruct (onFailure_counted (clock w') this e Ee) as (Ho & Hn & _ & Hst).
      unfold consistent in *. rewrite Ho, Hn.
      destruct (Z.leb_spec (failureThreshold (options this)) (failureCount this + 1)).
      * destruct Hst as [-> ->]. split; [lia | by eexists].
      * destruct Hst as [-> _]. destruct (state this); [lia | done | lia].
Qed.

Lemma reachable_consistent this :
  reachable this -> (0 < failureThreshold (options this))%Z -> consistent this.
Proof.
  induction 1 as [name o | S T this fn w Hr IH | this Hr IH].
  - intros H. exact H.
  - rewrite execute_options. intros Ht. specialize (IH Ht).
    unfold execute. destruct (state this) eqn:Es.
    + apply run_consistent; [done..|congruence].
    + destruct (shouldAttemptReset this (clock w)); [|done].
      apply run_consistent; [done | | done].
      unfold consistent in *. rewrite Es in IH. simpl. tauto.
    + apply run_consistent; [done..|congruence].
  - intros Ht. exact Ht.
Qed.

End CircuitBreakerFacts.

Section CircuitBreakerProtocol.
Import JS Async CircuitBreaker.

Lemma fail_times_reachable n e this w :
  reachable this -> reachable (fst (Sample.fail_times n e this w)).
Proof.
  revert this w. induction n as [|n IH]; intros this w Hr; simpl; [done|].
  destruct (execute this (Sample.failing e) w) as [[r this'] w'] eqn:E.
  apply IH. change this' with (snd (fst (r, this', w'))). rewrite <- E.
  by constructor.
Qed.

(** A call let through in state CLOSED or HALF_OPEN, or as the trial. *)
Lemma run_resolved {S T} this (fn : task S T) w v w' :
  fn w = (Resolved v, w') -> run this fn w = (Resolved v, onSuccess this, w').
Proof. intros H. unfold run. by rewrite H. Qed.

Lemma run_rejected {S T} this (fn : task S T) w e w' :
  fn w = (Rejected e, w') ->
  run this fn w = (Rejected e, onFailure (clock w') this e, w').
Proof. intros H. unfold run. by rewrite H. Qed.

Lemma execute_closed {S T} this (fn : task S T) w :
  state this = CLOSED -> execute this fn w = run this fn w.
Proof. intros H. unfold execute. by rewrite H. Qed.

Lemma execute_half_open {S T} this (fn : task S T) w :
  state this = HALF_OPEN -> execute this fn w = run this fn w.
Proof. intros H. unfold execute. by rewrite H. Qed.

Lemma execute_open_early {S T} this (fn : task S T) w at_ :
  state this = OPEN -> nextAttempt this = Some at_ -> (clock w < at_)%Z ->
  execute this fn w
  = (Rejected (new_Error ("Circuit breaker " +:+ name this +:+ " is OPEN")), this, w).
Proof.
  intros Hs Hn Ht. unfold execute, shouldAttemptReset. rewrite Hs, Hn.
  by destruct (Z.leb_spec at_ (clock w)); [lia|].
Qed.

Lemma execute_open_due {S T} this (fn : task S T) w at_ :
  state this = OPEN -> nextAttempt this = Some at_ -> (at_ <= clock w)%Z ->
  execute this fn w = run (to_HALF_OPEN this) fn w.
Proof.
  intros Hs Hn Ht. unfold execute, shouldAttemptReset. rewrite Hs, Hn.
  by destruct (Z.leb_spec at_ (clock w)); [|lia].
Qed.

End CircuitBreakerProtocol.

(** C5, as stated, fails on the trial call: with the default options a trial
    that fails with a ValidationError (an expected error) does not reopen the
    breaker; it stays HALF_OPEN and the next call is let through as well, so
    two calls in a row reach the remote side in state HALF_OPEN. *)
Lemma C5_counterexample_trial_with_expected_error :
  CircuitBreaker.state Sample.opened = CircuitBreaker.OPEN
  /\ Async.remote Sample.world_later = 5
  /\ exists b1 w1 b2 w2,
      CircuitBreaker.execute Sample.opened (Sample.failing Sample.validation_error)
        Sample.world_later
      = (Async.Rejected Sample.validation_error, b1, w1)
      /\ CircuitBreaker.state b1 = CircuitBreaker.HALF_OPEN
      /\ Async.remote w1 = 6
      /\ CircuitBreaker.execute b1 (Sample.failing Sample.validation_error) w1
         = (Async.Rejected Sample.validation_error, b2, w2)
      /\ CircuitBreaker.state b2 = CircuitBreaker.HALF_OPEN
      /\ Async.remote w2 = 7.
Proof.
  split; [reflexivity|]. split; [reflexivity|].
  eexists _, _, _, _. split; [vm_compute; reflexivity|].
  split; [reflexivity|]. split; [reflexivity|].
  split; [vm_compute; reflexivity|]. split; reflexivity.
Qed.

(** C5 (amended): for a breaker with a positive threshold, built by the
    constructor and used through [execute] and [reset].
    - CLOSED: the failure count is below the threshold; a call that fails with
      a non-expected error adds one to it, and the breaker opens exactly when
      the count reaches the threshold; a success resets the count; an expected
      error changes nothing.
    - OPEN, before the time of the next attempt: [execute] rejects with
      'Circuit breaker ... is OPEN' and the wrapped function is not called
      (the world and the breaker are unchanged, whatever the function is).
    - OPEN, from the time of the next attempt on: the call is let through as
      a trial; its success closes the breaker and resets the count, its
      failure with a non-expected error reopens the breaker for another reset
      timeout, and its failure with an expected error leaves the breaker
      HALF_OPEN, where the next call is let through as well. *)
Theorem C5_breaker_protocol
    {S T : Type} (this : CircuitBreaker.t) (fn : Async.task S T) (w : Async.World S) :
  CircuitBreaker.reachable this ->
  (0 < CircuitBreaker.failureThreshold (CircuitBreaker.options this))%Z ->
  let threshold := CircuitBreaker.failureThreshold (CircuitBreaker.options this) in
  let this' := snd (fst (CircuitBreaker.execute this fn w)) in
  (CircuitBreaker.state this = CircuitBreaker.CLOSED ->
     (CircuitBreaker.failureCount this < threshold)%Z
     /\ CircuitBreaker.execute this fn w = CircuitBreaker.run this fn w
     /\ (forall v w', fn w = (Async.Resolved v, w') ->
         CircuitBreaker.state this' = CircuitBreaker.CLOSED
         /\ CircuitBreaker.failureCount this' = 0%Z)
     /\ (forall e w', fn w = (Async.Rejected e, w') ->
         CircuitBreaker.isExpectedError this e = true -> this' = this)
     /\ (forall e w', fn w = (Async.Rejected e, w') ->
         CircuitBreaker.isExpectedError this e = false ->
         CircuitBreaker.failureCount this' = (CircuitBreaker.failureCount this + 1)%Z
         /\ (CircuitBreaker.state this' = CircuitBreaker.OPEN
             <-> CircuitBreaker.failureCount this' = threshold)
         /\ (CircuitBreaker.state this' = CircuitBreaker.CLOSED
             <-> (CircuitBreaker.failureCount this' < threshold)%Z)))
  /\ (CircuitBreaker.state this = CircuitBreaker.OPEN ->
      exists at_,
        CircuitBreaker.nextAttempt this = Some at_
        /\ ((Async.clock w < at_)%Z ->
            CircuitBreaker.execute this fn w
            = (Async.Rejected
                 (JS.new_Error ("Circuit breaker " +:+ CircuitBreaker.name this
                                +:+ " is OPEN")),
               this, w))
        /\ ((at_ <= Async.clock w)%Z ->
            (forall v w', fn w = (Async.Resolved v, w') ->
             fst (CircuitBreaker.execute this fn w) = (Async.Resolved v, this')
             /\ snd (CircuitBreaker.execute this fn w) = w'
             /\ CircuitBreaker.state this' = CircuitBreaker.CLOSED
             /\ CircuitBreaker.failureCount this' = 0%Z)
            /\ (forall e w', fn w = (Async.Rejected e, w') ->
                CircuitBreaker.isExpectedError this e = false ->
                fst (CircuitBreaker.execute this fn w) = (Async.Rejected e, this')
                /\ snd (CircuitBreaker.execute this fn w) = w'
                /\ CircuitBreaker.state this' = CircuitBreaker.OPEN
                /\ CircuitBreaker.nextAttempt this'
                   = Some (Async.clock w'
                           + CircuitBreaker.resetTimeout (CircuitBreaker.options this))%Z)
            /\ (forall e w', fn w = (Async.Rejected e, w') ->
                CircuitBreaker.isExpectedError this e = true ->
                CircuitBreaker.execute this fn w
                = (Async.Rejected e, CircuitBreaker.to_HALF_OPEN this, w'))))
  /\ (CircuitBreaker.state this = CircuitBreaker.HALF_OPEN ->
      CircuitBreaker.execute this fn w = CircuitBreaker.run this fn w).
Proof.
  intros Hr Ht threshold this'.
  pose proof (reachable_consistent this Hr Ht) as Hc.
  unfold CircuitBreaker.consistent in Hc.
  split; [|split].
  - intros Hs. rewrite Hs in Hc. split; [exact Hc|].
    split; [by apply execute_closed|].
    subst this'. rewrite (execute_closed this fn w Hs).
    split; [|split].
    + intros v w' Hfn. rewrite (run_resolved _ _ _ _ _ Hfn). simpl. by rewrite Hs.
    + intros e w' Hfn He. rewrite (run_rejected _ _ _ _ _ Hfn). simpl.
      by apply onFailure_expected.
    + intros e w' Hfn He. rewrite (run_rejected _ _ _ _ _ Hfn). simpl.
      destruct (onFailure_counted (Async.clock w') this e He) as (_ & Hn & _ & Hst).
      rewrite Hn. split; [done|]. subst threshold.
      destruct (Z.leb_spec (CircuitBreaker.failureThreshold (CircuitBreaker.options this))
                  (CircuitBreaker.failureCount this + 1)).
      * destruct Hst as [-> _]. split; split; try done; try lia.
      * destruct Hst as [-> _]. rewrite Hs. split; split; try done; try lia.
  - intros Hs. rewrite Hs in Hc. destruct Hc as [Hcount [at_ Hat]].
    exists at_. split; [done|]. split.
    + intros Hearly. by apply execute_open_early with at_.
    + intros Hdue. subst this'.
      rewrite (execute_open_due this fn w at_ Hs Hat Hdue).
      split; [|split].
      * intros v w' Hfn. rewrite (run_resolved _ _ _ _ _ Hfn). by simpl.
      * intros e w' Hfn He. rewrite (run_rejected _ _ _ _ _ Hfn). simpl.
        split; [done|]. split; [done|].
        destruct (onFailure_counted (Async.clock w') (CircuitBreaker.to_HALF_OPEN this)
                    e He) as (_ & _ & _ & Hst).
        simpl in Hst.
        destruct (Z.leb_spec (CircuitBreaker.failureThreshold (CircuitBreaker.options this))
                    (CircuitBreaker.failureCount this + 1)); [|lia].
        exact Hst.
      * intros e w' Hfn He. rewrite (run_rejected _ _ _ _ _ Hfn).
        by rewrite onFailure_expected.
  - intros Hs. by apply execute_half_open.
Qed.

(** Scenario C: five failed calls open the default breaker; the sixth is
    rejected with 'Circuit breaker ... is OPEN' and does not reach the remote
    side. *)
Lemma C5_witness :
  CircuitBreaker.reachable Sample.opened
  /\ (0 < CircuitBreaker.failureThreshold (CircuitBreaker.options Sample.opened))%Z
  /\ CircuitBreaker.state Sample.opened = CircuitBreaker.OPEN
  /\ exists at_,
      CircuitBreaker.nextAttempt Sample.opened = Some at_
      /\ (Async.clock Sample.world_opened < at_)%Z
      /\ CircuitBreaker.execute Sample.opened Sample.succeeding Sample.world_opened
         = (Async.Rejected
              (JS.new_Error "Circuit breaker http-client-product-service is OPEN"),
            Sample.opened, Sample.world_opened).
Proof.
  assert (Hr : CircuitBreaker.reachable Sample.opened)
    by (apply fail_times_reachable; constructor).
  assert (Ht : (0 < CircuitBreaker.failureThreshold
                      (CircuitBreaker.options Sample.opened))%Z) by reflexivity.
  split; [exact Hr|]. split; [exact Ht|]. split; [reflexivity|].
  destruct (C5_breaker_protocol Sample.opened Sample.succeeding Sample.world_opened Hr Ht)
    as (_ & Hopen & _).
  destruct (Hopen eq_refl) as (at_ & Hat & Hearly & _).
  exists at_. split; [exact Hat|].
  assert (Hlt : (Async.clock Sample.world_opened < at_)%Z).
  { vm_compute in Hat. injection Hat as <-. reflexivity. }
  split; [exact Hlt|]. exact (Hearly Hlt).
Defined.

(** ** Retry delay *)

Section Doubles.
Import Number.

Lemma is_double_spec x :
  is_double x = true -> (round x == x)%Q /\ (Qabs x < pow2 emax)%Q.
Proof.
  unfold is_double. intros [H1 H2]%andb_true_iff. split.
  - by apply Qeq_bool_iff.
  - apply Qnot_le_lt. intros H. apply Qle_bool_iff in H. by rewrite H in H2.
Qed.

(** A non-negative exact result gives a finite double, or +Infinity when it
    is out of range. *)
Lemma of_Q_nonneg x :
  (0 <= x)%Q ->
  (of_Q x = Infinity false /\ (pow2 emax <= round x)%Q)
  \/ (of_Q x = Finite (round x) /\ (round x < pow2 emax)%Q).
Proof.
  intros Hx. pose proof (round_nonneg x Hx) as Hr. unfold of_Q.
  destruct (Qle_bool (pow2 emax) (Qabs (round x))) eqn:E.
  - left. apply Qle_bool_iff in E. rewrite Qabs_pos in E by done.
    apply Qle_bool_iff in Hr. by rewrite Hr.
  - right. split; [done|]. apply Qnot_le_lt. intros H.
    rewrite <- (Qabs_pos (round x)) in H by done. apply Qle_bool_iff in H. congruence.
Qed.

Lemma of_Q_bounded x B :
  (0 <= x)%Q -> (x <= B)%Q -> (round B == B)%Q -> (B < pow2 emax)%Q ->
  of_Q x = Finite (round x).
Proof.
  intros Hx HB Hd Hmax. destruct (of_Q_nonneg x Hx) as [[_ H]|[H _]]; [|done].
  pose proof (round_mono x B Hx HB). lra.
Qed.

Lemma round_1 : (round 1 == 1)%Q.
Proof. by vm_compute. Qed.

Lemma round_half' : (round (1 # 2) == 1 # 2)%Q.
Proof. by vm_compute. Qed.

Lemma one_in_range : (1 < pow2 emax)%Q.
Proof. by vm_compute. Qed.

(** The jitter factor [0.5 + Math.random() * 0.5] is a double in [1/2, 1]. *)
Lemma jitter_factor random :
  (0 <= random)%Q -> (random < 1)%Q ->
  exists f,
    add (Finite (1 # 2)) (mul (Finite random) (Finite (1 # 2))) = Finite f
    /\ (1 # 2 <= f)%Q /\ (f <= 1)%Q.
Proof.
  intros H0 H1. pose proof round_1 as R1. pose proof round_half' as Rh.
  pose proof one_in_range as Hr.
  assert (Ht : of_Q (random * (1 # 2)) = Finite (round (random * (1 # 2)))).
  { apply (of_Q_bounded _ (1 # 2)); lra. }
  set (t := round (random * (1 # 2))) in *.
  assert (Ht0 : (0 <= t)%Q) by (apply round_nonneg; lra).
  assert (Ht1 : (t <= 1 # 2)%Q).
  { rewrite <- Rh. apply round_mono; lra. }
  assert (Hf : of_Q ((1 # 2) + t) = Finite (round ((1 # 2) + t))).
  { apply (of_Q_bounded _ 1); lra. }
  exists (round ((1 # 2) + t)). simpl. rewrite Ht. simpl. split; [exact Hf|]. split.
  - rewrite <- Rh at 1. apply round_mono; lra.
  - rewrite <- R1. apply round_mono; lra.
Qed.

Lemma min_Infinity m : min (Infinity false) (Finite m) = Finite m.
Proof. reflexivity. Qed.

Lemma min_Finite z m : exists y, min (Finite z) (Finite m) = Finite y /\ (y == Qmin z m)%Q.
Proof.
  unfold min, leb. destruct (Qle_bool z m) eqn:E.
  - exists z. split; [done|]. apply Qle_bool_iff in E. by rewrite Q.min_l.
  - exists m. split; [done|].
    assert (m <= z)%Q.
    { apply Qlt_le_weak, Qnot_le_lt. intros H. apply Qle_bool_iff in H. congruence. }
    by rewrite Q.min_r.
Qed.

End Doubles.

Section RetryDelay.
Import JS Async RetryHandler.

(** The correctly rounded power is not negative on a base that is not, and
    does not decrease with the exponent on a base of at least 1. *)
Lemma pow_nonneg m n :
  (0 <= m)%Q ->
  Number.pow m n = Number.Infinity false
  \/ exists y, Number.pow m n = Number.Finite y /\ (0 <= y)%Q.
Proof.
  intros Hm. unfold Number.pow.
  destruct (Qeq_bool m 0 && (n <? 0)%Z); [by left|].
  assert (Hp : (0 <= m ^ n)%Q) by (by apply Qpower_0_le).
  destruct (of_Q_nonneg _ Hp) as [[-> _]|[-> Hlt]]; [by left|]. right.
  eexists. split; [reflexivity | by apply round_nonneg].
Qed.

Lemma pow_nonnegative : Engine.nonnegative Number.pow.
Proof.
  intros m n Hm. destruct (pow_nonneg m n Hm) as [->|(y & -> & Hy)]; [done|].
  by apply Qle_bool_iff.
Qed.

Variable Math_pow : Engine.power.
Hypothesis Hpow : Engine.nonnegative Math_pow.

Lemma power_nonneg m n :
  (0 <= m)%Q ->
  Math_pow m n = Number.Infinity false
  \/ exists y, Math_pow m n = Number.Finite y /\ (0 <= y)%Q.
Proof.
  intros Hm. specialize (Hpow m n Hm).
  destruct (Math_pow m n) as [|[]|y]; simpl in Hpow; try done.
  - by left.
  - right. exists y. split; [done|]. by apply Qle_bool_iff.
Qed.

Lemma product_nonneg b p :
  (0 < b)%Q ->
  p = Number.Infinity false
  \/ (exists y, p = Number.Finite y /\ (0 <= y)%Q) ->
  Number.mul (Number.Finite b) p = Number.Infinity false
  \/ exists z, Number.mul (Number.Finite b) p = Number.Finite z /\ (0 <= z)%Q
               /\ (Number.round z == z)%Q /\ (z < Number.pow2 Number.emax)%Q.
Proof.
  intros Hb [->|(y & -> & Hy)]; simpl.
  - left. destruct (Qeq_bool b 0) eqn:E; [apply Qeq_bool_iff in E; lra|].
    assert (H : Qle_bool 0 b = true) by (apply Qle_bool_iff; lra). by rewrite H.
  - assert (Hp : (0 <= b * y)%Q) by (apply Qmult_le_0_compat; lra).
    destruct (of_Q_nonneg _ Hp) as [[-> _]|[-> Hlt]]; [by left|]. right.
    eexists. split; [reflexivity|]. split; [by apply round_nonneg|].
    split; [by apply round_idempotent | done].
Qed.

(** With a positive base delay and non-negative options, the delay before
    jitter is a double between 0 and the maximum. *)
Lemma capped_finite this attempt :
  (0 < baseDelay this)%Q -> (0 <= backoffMultiplier this)%Q -> (0 <= maxDelay this)%Q ->
  Number.is_double (maxDelay this) = true ->
  exists d,
    capped Math_pow this attempt = Number.Finite d
    /\ (0 <= d)%Q /\ (d <= maxDelay this)%Q
    /\ (Number.round d == d)%Q /\ (d < Number.pow2 Number.emax)%Q.
Proof.
  intros Hb Hm Hx [Hd Hr]%is_double_spec. rewrite Qabs_pos in Hr by done.
  unfold capped.
  pose proof (power_nonneg (backoffMultiplier this) (attempt - 1) Hm) as Hp.
  destruct (product_nonneg (baseDelay this) _ Hb Hp) as [->|(z & -> & Hz & Hzd & Hzr)].
  - rewrite min_Infinity. exists (maxDelay this). repeat split; try done. lra.
  - unfold Number.min, Number.leb. destruct (Qle_bool z (maxDelay this)) eqn:E.
    + apply Qle_bool_iff in E. by exists z.
    + exists (maxDelay this). repeat split; try done. lra.
Qed.

(** The jitter only shortens: the delay is a whole number between half the
    delay before jitter, rounded down, and that delay. *)
Lemma jittered_bounds this attempt random :
  jitter this = true ->
  (0 < baseDelay this)%Q -> (0 <= backoffMultiplier this)%Q -> (0 <= maxDelay this)%Q ->
  Number.is_double (maxDelay this) = true ->
  (0 <= random)%Q -> (random < 1)%Q ->
  exists d n,
    capped Math_pow this attempt = Number.Finite d
    /\ jittered Math_pow this attempt random = Number.Finite (inject_Z n)
    /\ (0 <= d)%Q /\ (d <= maxDelay this)%Q
    /\ (Qfloor (d * (1 # 2)) <= n)%Z /\ (inject_Z n <= d)%Q.
Proof.
  intros Hj Hb Hm Hx Hmax H0 H1.
  destruct (capped_finite this attempt Hb Hm Hx Hmax) as (d & Hc & Hd0 & Hdx & Hdd & Hdr).
  destruct (jitter_factor random H0 H1) as (f & Hf & Hf0 & Hf1).
  unfold jittered. rewrite Hj, Hc, Hf. cbn [Number.mul].
  assert (Hlo : (d * (1 # 2) <= d * f)%Q) by nra.
  assert (Hhi : (d * f <= d)%Q) by nra.
  rewrite (of_Q_bounded (d * f) d) by (done || nra).
  cbn [Number.floor]. exists d, (Qfloor (Number.round (d * f))).
  assert (Hy : (Number.round (d * f) <= d)%Q).
  { rewrite <- Hdd at 2. apply round_mono; [nra | done]. }
  assert (Hz : (inject_Z (Qfloor (d * (1 # 2))) <= Number.round (d * f))%Q).
  { eapply Qle_trans; [by apply round_half_floor|]. apply round_mono; [lra | done]. }
  split; [done|]. split; [done|]. split; [done|]. split; [done|]. split.
  - rewrite <- (Qfloor_Z (Qfloor (d * (1 # 2)))). by apply Qfloor_resp_le.
  - eapply Qle_trans; [apply Qfloor_le | done].
Qed.

Lemma calculateDelay_jittered {S} this attempt (w : World S) :
  jitter this = true ->
  fst (calculateDelay Math_pow this attempt w)
  = jittered Math_pow this attempt (entropy w (drawn w)).
Proof. intros H. unfold calculateDelay. by rewrite H. Qed.

End RetryDelay.




(** The delay is the floor of a product of doubles, not of the exact
    product: before the first retry, with the draw 0.1259999999999999, the
    doubles give 563 ms where exact arithmetic would give 562. *)
Example jittered_rounds :
  RetryHandler.jittered Number.pow RetryHandler.defaultRetryOptions 1 Sample.draw
  = Number.Finite 563
  /\ Qfloor (1000 * ((1 # 2) + Sample.draw * (1 # 2))) = 562%Z.
Proof. split; vm_compute; reflexivity. Qed.

(** ** Retry handler *)

Section RetryFacts.
Import JS Async RetryHandler.

Variable Math_pow : Engine.power.

(** An error that the retry condition refuses is rethrown after the call
    that raised it: the world is the one that call left. *)
Lemma execute_not_retried {S T} this (fn : task S T) w e w1 :
  (1 <= maxAttempts this)%Z ->
  fn w = (Rejected e, w1) ->
  retryCondition this e = false ->
  execute Math_pow this fn w = (Thrown e, w1).
Proof.
  intros Hm Hfn Hc. unfold execute.
  destruct (Z.to_nat (maxAttempts this)) as [|n] eqn:En; [lia|].
  simpl. by rewrite Hfn, Hc.
Qed.

(** A call that resolves at once is not repeated. *)
Lemma execute_first_success {S T} this (fn : task S T) w v w1 :
  (1 <= maxAttempts this)%Z ->
  fn w = (Resolved v, w1) ->
  execute Math_pow this fn w = (Returned v, w1).
Proof.
  intros Hm Hfn. unfold execute.
  destruct (Z.to_nat (maxAttempts this)) as [|n] eqn:En; [lia|].
  simpl. by rewrite Hfn.
Qed.

Lemma default_retryCondition_spec e :
  retryCondition defaultRetryOptions e = false
  <-> JS.name e = "ValidationError" \/ JS.name e = "AuthenticationError"
      \/ JS.name e = "AuthorizationError".
Proof.
  simpl. rewrite negb_false_iff, !orb_true_iff, !String.eqb_eq. intuition discriminate.
Qed.

(** Under the default options a validation error is rethrown at once. *)
Lemma default_validation_error_not_retried {S T} (fn : task S T) w e w1 :
  fn w = (Rejected e, w1) ->
  Spec.is_ValidationError e ->
  execute Math_pow defaultRetryOptions fn w = (Thrown e, w1).
Proof.
  intros Hfn He. apply execute_not_retried; [done | done |].
  apply default_retryCondition_spec. by left.
Qed.

End RetryFacts.

(** C6, where the code departs from it: under the default retry options a
    call that keeps failing with a ConflictError is made three times, with
    two sleeps in between, before the error is rethrown, whereas a call that
    fails with a ValidationError is made once.  The two delays are those of
    the draws of [Sample.world0]; [Math.pow(2, 0)] and [Math.pow(2, 1)] are 1
    and 2. *)
Theorem C6_conflict_error_is_retried :
  Spec.is_ConflictError Sample.conflict_error
  /\ RetryHandler.retryCondition RetryHandler.defaultRetryOptions Sample.conflict_error
     = true
  /\ (exists w',
       RetryHandler.execute Number.pow RetryHandler.defaultRetryOptions
         (Sample.failing Sample.conflict_error) Sample.world0
       = (RetryHandler.Thrown Sample.conflict_error, w')
       /\ Async.remote w' = 3
       /\ Async.clock w'
          = (Async.clock Sample.world0 + 10 + 750 + 10 + 1500 + 10)%Z)
  /\ (exists w',
       RetryHandler.execute Number.pow RetryHandler.defaultRetryOptions
         (Sample.failing Sample.validation_error) Sample.world0
       = (RetryHandler.Thrown Sample.validation_error, w')
       /\ Async.remote w' = 1).
Proof.
  split; [reflexivity|]. split; [reflexivity|]. split.
  - eexists. split; [vm_compute; reflexivity|]. split; reflexivity.
  - eexists. split; [vm_compute; reflexivity|]. reflexivity.
Qed.

(* ===================================================================== *)
(** * Part III: further properties of the code                            *)
(* ===================================================================== *)

(** ** Order aggregate: the commands as a transition system *)

Section LifecycleFacts.
Import JS Types OrderAggregate Lifecycle.

Ltac emit_step E :=
  match goal with
  | |- context [applyEvent ?e ?a] =>
      let a1 := fresh "a1" in
      pose (a1 := snd (applyEvent e a));
      assert (E : applyEvent e a = (Return tt, a1)) by reflexivity;
      clearbody a1; rewrite E
  end.

Lemma emitted_trans rt a b c : emitted rt a b -> emitted rt b c -> emitted rt a c.
Proof. induction 1; [done|]. intros H'. eapply emitted_event; eauto. Qed.

Lemma emitted_one rt a d a1 :
  emits a d ->
  applyEvent (BaseEvent.createEvent rt (id a) "Order" d (version a + 1)%Z) a
  = (Return tt, a1) ->
  emitted rt a a1.
Proof. intros Hd H. eapply emitted_event; [exact Hd | exact H | constructor]. Qed.

Lemma updateStatus_emitted rt newStatus updatedBy a r a' :
  updateStatus rt newStatus updatedBy a = (r, a') -> emitted rt a a'.
Proof.
  unfold updateStatus, bind, read. cbn -[applyEvent].
  destruct (Z.eqb_spec (version a) 0); [intros [= _ <-]; constructor|].
  destruct (OrderStatus_eqb_spec (status a) newStatus); [intros [= _ <-]; constructor|].
  destruct (isValidStatusTransition (status a) newStatus) eqn:Ev; cbn -[applyEvent];
    [|intros [= _ <-]; constructor].
  emit_step E. intros [= _ <-].
  eapply emitted_one; [|exact E]. by constructor.
Qed.

Lemma createOrder_emitted rt userId items addr pm a r a' :
  createOrder rt userId items addr pm a = (r, a') -> emitted rt a a'.
Proof.
  unfold createOrder, bind, read. cbn -[applyEvent].
  destruct (Z.ltb_spec 0 (version a)); [intros [= _ <-]; constructor|].
  destruct items as [|item rest]; [intros [= _ <-]; constructor|]. cbn [length Nat.eqb].
  destruct (Number.leb (reduce_total (item :: rest)) _) eqn:Et;
    [intros [= _ <-]; constructor|].
  emit_step E. intros [= _ <-].
  eapply emitted_one; [|exact E]. by constructor.
Qed.

Lemma processPayment_emitted rt ps tx gw a r a' :
  processPayment rt ps tx gw a = (r, a') -> emitted rt a a'.
Proof.
  unfold processPayment, bind, read. cbn -[applyEvent updateStatus].
  destruct (Z.eqb_spec (version a) 0); [intros [= _ <-]; constructor|].
  emit_step E.
  assert (He : emitted rt a a1) by (eapply emitted_one; [by constructor | exact E]).
  destruct (String.eqb ps "completed" && OrderStatus_eqb (status a1) PENDING).
  - intros H. eapply emitted_trans; [exact He|]. eapply updateStatus_emitted. exact H.
  - by intros [= _ <-].
Qed.

Lemma shipOrder_emitted rt tn ca eta a r a' :
  shipOrder rt tn ca eta a = (r, a') -> emitted rt a a'.
Proof.
  unfold shipOrder, bind, read. cbn -[applyEvent updateStatus].
  destruct (Z.eqb_spec (version a) 0); [intros [= _ <-]; constructor|].
  destruct (OrderStatus_eqb_spec (status a) PROCESSING); cbn -[applyEvent updateStatus];
    [|intros [= _ <-]; constructor].
  emit_step E. intros H.
  eapply emitted_trans; [eapply emitted_one; [by constructor | exact E]|].
  eapply updateStatus_emitted. exact H.
Qed.

Lemma cancelOrder_emitted rt reason by_ amt a r a' :
  cancelOrder rt reason by_ amt a = (r, a') -> emitted rt a a'.
Proof.
  unfold cancelOrder, bind, read. cbn -[applyEvent updateStatus].
  destruct (Z.eqb_spec (version a) 0); [intros [= _ <-]; constructor|].
  destruct (OrderStatus_eqb_spec (status a) DELIVERED); [intros [= _ <-]; constructor|].
  destruct (OrderStatus_eqb_spec (status a) CANCELLED); [intros [= _ <-]; constructor|].
  cbn -[applyEvent updateStatus].
  emit_step E. intros H.
  eapply emitted_trans; [eapply emitted_one; [by constructor | exact E]|].
  eapply updateStatus_emitted. exact H.
Qed.

Lemma execute_emitted rt c a r a' : execute rt c a = (r, a') -> emitted rt a a'.
Proof.
  destruct c; simpl;
    eauto using createOrder_emitted, updateStatus_emitted, processPayment_emitted,
      shipOrder_emitted, cancelOrder_emitted.
Qed.

Lemma execute_all_emitted rt cs a r a' :
  execute_all rt cs a = (r, a') -> emitted rt a a'.
Proof.
  revert a. induction cs as [|c cs IH]; intros a; simpl.
  - intros [= _ <-]. constructor.
  - unfold bind. destruct (execute rt c a) as [[[]|e] a1] eqn:E.
    + intros H. eapply emitted_trans; [eapply execute_emitted; exact E | eauto].
    + intros [= _ <-]. eapply execute_emitted; exact E.
Qed.

End LifecycleFacts.

Section LifecycleInvariants.
Import JS Types OrderAggregate Lifecycle.

(** An invariant of every emitted event is an invariant of every run. *)
Lemma emitted_invariant rt (P : t -> Prop) :
  (forall a d a1, P a -> emits a d ->
     applyEvent (BaseEvent.createEvent rt (id a) "Order" d (version a + 1)%Z) a
     = (Return tt, a1) -> P a1) ->
  forall a a', emitted rt a a' -> P a -> P a'.
Proof. intros Hstep a a' H. induction H; eauto. Qed.

(** What applying an emitted event changes. *)
Lemma emitted_event_fields rt a d a1 :
  emits a d ->
  applyEvent (BaseEvent.createEvent rt (id a) "Order" d (version a + 1)%Z) a
  = (Return tt, a1) ->
  id a1 = id a
  /\ version a1 = (version a + 1)%Z
  /\ uncommittedEvents a1
     = uncommittedEvents a
       ++ [BaseEvent.createEvent rt (id a) "Order" d (version a + 1)%Z].
Proof.
  intros Hd. destruct Hd; unfold applyEvent, bind; simpl; intros [= <-]; done.
Qed.

Lemma versions_step rt a d a1 :
  (0 <= version a)%Z
  /\ BaseEvent.version <$> uncommittedEvents a = versions_up_to (version a) ->
  emits a d ->
  applyEvent (BaseEvent.createEvent rt (id a) "Order" d (version a + 1)%Z) a
  = (Return tt, a1) ->
  (0 <= version a1)%Z
  /\ BaseEvent.version <$> uncommittedEvents a1 = versions_up_to (version a1).
Proof.
  intros [H0 Hv] Hd He.
  destruct (emitted_event_fields rt a d a1 Hd He) as (_ & -> & ->).
  split; [lia|]. rewrite fmap_app, Hv. unfold versions_up_to.
  rewrite seqZ_app by lia. simpl. f_equal.
  unfold seqZ. change (Z.to_nat 1) with 1%nat. simpl. f_equal. lia.
Qed.

Lemma aggregateId_step rt a d a1 :
  Forall (fun e => BaseEvent.aggregateId e = id a) (uncommittedEvents a) ->
  emits a d ->
  applyEvent (BaseEvent.createEvent rt (id a) "Order" d (version a + 1)%Z) a
  = (Return tt, a1) ->
  Forall (fun e => BaseEvent.aggregateId e = id a1) (uncommittedEvents a1).
Proof.
  intros Hall Hd He.
  destruct (emitted_event_fields rt a d a1 Hd He) as (-> & _ & ->).
  apply Forall_app. split; [done|]. by constructor.
Qed.

Lemma total_step rt a d a1 :
  totalAmount a = reduce_total (items a) ->
  emits a d ->
  applyEvent (BaseEvent.createEvent rt (id a) "Order" d (version a + 1)%Z) a
  = (Return tt, a1) ->
  totalAmount a1 = reduce_total (items a1).
Proof.
  intros Ht Hd. destruct Hd; unfold applyEvent, bind; simpl; intros [= <-]; simpl;
    done.
Qed.

Lemma path_trans s1 s2 s3 : path s1 s2 -> path s2 s3 -> path s1 s3.
Proof. induction 1; [done|]. intros H'. eapply path_edge; eauto. Qed.

Lemma status_step rt s0 a d a1 :
  (0 < version a)%Z /\ path s0 (status a) ->
  emits a d ->
  applyEvent (BaseEvent.createEvent rt (id a) "Order" d (version a + 1)%Z) a
  = (Return tt, a1) ->
  (0 < version a1)%Z /\ path s0 (status a1).
Proof.
  intros [Hv Hp] Hd.
  destruct Hd; unfold applyEvent, bind; simpl; intros [= <-]; simpl;
    try (split; [lia | done]).
  - lia.
  - split; [lia|]. eapply path_trans; [exact Hp|].
    eapply path_edge; [eassumption | constructor].
Qed.

Lemma fresh_status_step rt a d a1 :
  (0 <= version a)%Z /\ path PENDING (status a) ->
  emits a d ->
  applyEvent (BaseEvent.createEvent rt (id a) "Order" d (version a + 1)%Z) a
  = (Return tt, a1) ->
  (0 <= version a1)%Z /\ path PENDING (status a1).
Proof.
  intros [Hv Hp] Hd.
  destruct Hd; unfold applyEvent, bind; simpl; intros [= <-]; simpl;
    try (split; [lia | done]).
  - split; [lia | constructor].
  - split; [lia|]. eapply path_trans; [exact Hp|].
    eapply path_edge; [eassumption | constructor].
Qed.

Lemma path_from_terminal s s' : terminal s -> path s s' -> s' = s.
Proof.
  intros Ht Hp. destruct Hp as [|s1 s2 s3 He _]; [done|].
  by destruct Ht as [-> | ->]; destruct s2.
Qed.

End LifecycleInvariants.

(** X1: whatever commands are run on a fresh aggregate, and whether or not
    the last one throws, the events in the buffer carry the versions 1, 2,
    ..., n in this order, the aggregate's version is n, the number of events,
    and every event carries the aggregate's id. *)
Theorem live_versions_are_consecutive
    (rt : BaseEvent.Runtime) (id : option string) (cs : list OrderAggregate.Command)
    (r : JS.completion unit) (a : OrderAggregate.t) :
  OrderAggregate.execute_all rt cs (OrderAggregate.new rt id) = (r, a) ->
  BaseEvent.version <$> OrderAggregate.uncommittedEvents a
  = Lifecycle.versions_up_to (OrderAggregate.version a)
  /\ OrderAggregate.version a = Z.of_nat (length (OrderAggregate.uncommittedEvents a))
  /\ Forall (fun e => BaseEvent.aggregateId e = OrderAggregate.id a)
       (OrderAggregate.uncommittedEvents a).
Proof.
  intros H. apply execute_all_emitted in H.
  assert (Hv : (0 <= OrderAggregate.version a)%Z
               /\ BaseEvent.version <$> OrderAggregate.uncommittedEvents a
                  = Lifecycle.versions_up_to (OrderAggregate.version a)).
  { apply (emitted_invariant rt
             (fun x => (0 <= OrderAggregate.version x)%Z
                       /\ BaseEvent.version <$> OrderAggregate.uncommittedEvents x
                          = Lifecycle.versions_up_to (OrderAggregate.version x))
             (versions_step rt) _ _ H).
    done. }
  destruct Hv as [H0 Hv]. split; [exact Hv|]. split.
  - apply (f_equal length) in Hv. rewrite length_fmap in Hv.
    unfold Lifecycle.versions_up_to in Hv. rewrite length_seqZ in Hv. lia.
  - apply (emitted_invariant rt
             (fun x => Forall (fun e => BaseEvent.aggregateId e = OrderAggregate.id x)
                         (OrderAggregate.uncommittedEvents x))
             (aggregateId_step rt) _ _ H).
    constructor.
Qed.

Lemma live_versions_witness :
  BaseEvent.version <$> OrderAggregate.uncommittedEvents (Sample.after Sample.to_shipped)
  = [1; 2; 3; 4; 5]%Z.
Proof.
  destruct (live_versions_are_consecutive Sample.rt (Some "order-1") Sample.to_shipped
              (JS.Return tt) (Sample.after Sample.to_shipped)) as [H _];
    [vm_compute; reflexivity|].
  rewrite H. reflexivity.
Defined.

(** X2: whatever commands are run on a fresh aggregate, its total amount is
    the sum of price*quantity over its items as [items.reduce] computes it in
    doubles: no command but createOrder touches the total or the items. *)
Theorem live_total_is_sum_of_items
    (rt : BaseEvent.Runtime) (id : option string) (cs : list OrderAggregate.Command)
    (r : JS.completion unit) (a : OrderAggregate.t) :
  OrderAggregate.execute_all rt cs (OrderAggregate.new rt id) = (r, a) ->
  OrderAggregate.totalAmount a = OrderAggregate.reduce_total (OrderAggregate.items a).
Proof.
  intros H. apply execute_all_emitted in H.
  apply (emitted_invariant rt
           (fun x => OrderAggregate.totalAmount x
                     = OrderAggregate.reduce_total (OrderAggregate.items x))
           (total_step rt) _ _ H).
  reflexivity.
Qed.

Lemma live_total_witness :
  OrderAggregate.totalAmount (Sample.after Sample.to_shipped)
  = OrderAggregate.reduce_total (OrderAggregate.items (Sample.after Sample.to_shipped)).
Proof.
  apply (live_total_is_sum_of_items Sample.rt (Some "order-1") Sample.to_shipped
           (JS.Return tt)).
  vm_compute. reflexivity.
Defined.

Section WholeNumbers.
Import JS Types OrderAggregate.

(** An exact result that is a whole number between 0 and 2^53 is a double:
    the operation returns it as it is. *)
Lemma of_Q_whole x n :
  (x == inject_Z n)%Q -> (0 <= n <= 2 ^ 53)%Z ->
  exists y, Number.of_Q x = Number.Finite y /\ (y == x)%Q.
Proof.
  intros Hx Hn. pose proof (round_Z n Hn) as Hr.
  assert (H0 : (0 <= inject_Z n)%Q) by (apply (Qle_Zle_inject 0); lia).
  assert (Hle : (Number.round x <= inject_Z n)%Q).
  { rewrite <- Hr. apply round_mono; lra. }
  assert (Hge : (inject_Z n <= Number.round x)%Q).
  { rewrite <- Hr. apply round_mono; lra. }
  exists (Number.round x). split; [|lra].
  apply (of_Q_bounded x (inject_Z (2 ^ 53))).
  - lra.
  - rewrite Hx. apply Qle_Zle_inject. lia.
  - apply round_Z. lia.
  - by vm_compute.
Qed.

Lemma whole_spec x : Spec.whole x -> exists n, (0 <= n)%Z /\ (x == inject_Z n)%Q.
Proof.
  intros [H0 Hi]. unfold Number_isInteger in Hi. apply Qeq_bool_iff in Hi.
  exists (Qfloor x). split; [|done].
  rewrite <- (Qfloor_Z 0). by apply Qfloor_resp_le.
Qed.

Lemma sum_price_quantity_whole its :
  Forall (fun item => Spec.whole (price item) /\ Spec.whole (quantity item)) its ->
  exists n, (0 <= n)%Z /\ (Spec.sum_price_quantity its == inject_Z n)%Q.
Proof.
  induction 1 as [|item rest [Hp Hq] _ (n & Hn & IH)]; simpl.
  - by exists 0%Z.
  - destruct (whole_spec _ Hp) as (a & Ha & Ea).
    destruct (whole_spec _ Hq) as (b & Hb & Eb).
    exists (a * b + n)%Z. split; [nia|].
    rewrite IH, Ea, Eb, inject_Z_plus, inject_Z_mult. reflexivity.
Qed.

Lemma fold_total_whole its acc m :
  Forall (fun item => Spec.whole (price item) /\ Spec.whole (quantity item)) its ->
  (0 <= m)%Z -> (acc == inject_Z m)%Q ->
  (acc + Spec.sum_price_quantity its <= inject_Z (2 ^ 53))%Q ->
  exists total,
    fold_left
      (fun total item =>
         Number.add total
           (Number.mul (Number.Finite (price item)) (Number.Finite (quantity item))))
      its (Number.Finite acc)
    = Number.Finite total
    /\ (total == acc + Spec.sum_price_quantity its)%Q.
Proof.
  intros Hall.
  set (f := fun total item =>
              Number.add total
                (Number.mul (Number.Finite (price item)) (Number.Finite (quantity item)))).
  revert acc m.
  induction Hall as [|item rest [Hp Hq] Hrest IH]; intros acc m Hm Eacc Hle;
    cbn [fold_left Spec.sum_price_quantity] in *.
  - exists acc. split; [done | lra].
  - destruct (whole_spec _ Hp) as (a & Ha & Ea).
    destruct (whole_spec _ Hq) as (b & Hb & Eb).
    destruct (sum_price_quantity_whole rest Hrest) as (r & Hr & Er).
    assert (Hab : (price item * quantity item == inject_Z (a * b))%Q)
      by (by rewrite Ea, Eb, inject_Z_mult).
    assert (Hbound : (m + a * b + r <= 2 ^ 53)%Z).
    { rewrite Zle_Qle, !inject_Z_plus, <- Eacc, <- Hab, <- Er. lra. }
    destruct (of_Q_whole (price item * quantity item) (a * b) Hab) as (y & Hy & Ey);
      [nia|].
    destruct (of_Q_whole (acc + y) (m + a * b)) as (z & Hz & Ez);
      [by rewrite inject_Z_plus, Eacc, Ey, Hab | nia |].
    assert (Hstep : f (Number.Finite acc) item = Number.Finite z).
    { unfold f. cbn [Number.mul]. rewrite Hy. cbn [Number.add]. exact Hz. }
    rewrite Hstep.
    destruct (IH z (m + a * b)%Z) as (total & Htotal & Et).
    + nia.
    + by rewrite Ez, inject_Z_plus, Eacc, Ey, Hab.
    + rewrite Ez, Ey. lra.
    + exists total. split; [done|]. rewrite Et, Ez, Ey. ring.
Qed.

End WholeNumbers.

(** X23: for whole numbers the total is exact.  When the prices and the
    quantities of the items are non-negative whole numbers and
    Σ(price*quantity) is at most 2^53, the total that [createOrder] computes
    in doubles is Σ(price*quantity) itself. *)
Theorem whole_number_total_is_exact (items : list Types.OrderItem) :
  Forall (fun item => Spec.whole (Types.price item) /\ Spec.whole (Types.quantity item))
    items ->
  (Spec.sum_price_quantity items <= inject_Z (2 ^ 53))%Q ->
  exists total,
    OrderAggregate.reduce_total items = Number.Finite total
    /\ (total == Spec.sum_price_quantity items)%Q.
Proof.
  intros Hall Hle. unfold OrderAggregate.reduce_total.
  destruct (fold_total_whole items 0 0 Hall) as (total & -> & Et); [done | done | lra |].
  exists total. split; [done | lra].
Qed.

Lemma whole_number_total_witness :
  exists total,
    OrderAggregate.reduce_total [Sample.item_p1] = Number.Finite total
    /\ (total == 20)%Q.
Proof.
  destruct (whole_number_total_is_exact [Sample.item_p1]) as (total & H & Ht).
  - repeat constructor; by vm_compute.
  - by vm_compute.
  - exists total. split; [exact H | exact Ht].
Defined.

(** X3: whatever commands are run on a fresh aggregate, its status is
    reached from PENDING along edges of the transition table. *)
Theorem live_status_follows_graph
    (rt : BaseEvent.Runtime) (id : option string) (cs : list OrderAggregate.Command)
    (r : JS.completion unit) (a : OrderAggregate.t) :
  OrderAggregate.execute_all rt cs (OrderAggregate.new rt id) = (r, a) ->
  Lifecycle.path Types.PENDING (OrderAggregate.status a).
Proof.
  intros H. apply execute_all_emitted in H.
  assert (Hp : (0 <= OrderAggregate.version a)%Z
               /\ Lifecycle.path Types.PENDING (OrderAggregate.status a)).
  { apply (emitted_invariant rt
             (fun x => (0 <= OrderAggregate.version x)%Z
                       /\ Lifecycle.path Types.PENDING (OrderAggregate.status x))
             (fresh_status_step rt) _ _ H).
    split; [done | constructor]. }
  apply Hp.
Qed.

Lemma live_status_witness :
  Lifecycle.path Types.PENDING (OrderAggregate.status (Sample.after Sample.to_shipped)).
Proof.
  apply (live_status_follows_graph Sample.rt (Some "order-1") Sample.to_shipped
           (JS.Return tt)).
  vm_compute. reflexivity.
Defined.

(** X4: DELIVERED and CANCELLED are final: on an existing order in one of
    them, no sequence of commands changes the status (payments may still be
    recorded, and the version may grow). *)
Theorem terminal_status_is_final
    (rt : BaseEvent.Runtime) (cs : list OrderAggregate.Command)
    (a a' : OrderAggregate.t) (r : JS.completion unit) :
  (0 < OrderAggregate.version a)%Z ->
  Lifecycle.terminal (OrderAggregate.status a) ->
  OrderAggregate.execute_all rt cs a = (r, a') ->
  OrderAggregate.status a' = OrderAggregate.status a.
Proof.
  intros Hv Ht H. apply execute_all_emitted in H.
  assert (Hp : (0 < OrderAggregate.version a')%Z
               /\ Lifecycle.path (OrderAggregate.status a) (OrderAggregate.status a')).
  { apply (emitted_invariant rt
             (fun x => (0 < OrderAggregate.version x)%Z
                       /\ Lifecycle.path (OrderAggregate.status a) (OrderAggregate.status x))
             (status_step rt (OrderAggregate.status a)) _ _ H).
    split; [done | constructor]. }
  apply path_from_terminal; [done | apply Hp].
Qed.

Lemma terminal_status_witness :
  let delivered :=
    Sample.after (Sample.to_shipped ++ [OrderAggregate.UpdateStatus Types.DELIVERED None]) in
  let cs := [OrderAggregate.ProcessPayment "completed" None None;
             OrderAggregate.UpdateStatus Types.PROCESSING None;
             OrderAggregate.CancelOrder "late" None None] in
  OrderAggregate.status (snd (OrderAggregate.execute_all Sample.rt cs delivered))
  = Types.DELIVERED.
Proof.
  intros delivered cs.
  apply (terminal_status_is_final Sample.rt cs delivered _
           (fst (OrderAggregate.execute_all Sample.rt cs delivered))).
  - reflexivity.
  - left. reflexivity.
  - by destruct (OrderAggregate.execute_all Sample.rt cs delivered).
Defined.

(** ** The other commands *)

Section OtherCommands.
Import JS Types OrderAggregate.

Lemma updateStatus_pending_confirmed rt a :
  version a <> 0%Z -> status a = PENDING ->
  updateStatus rt CONFIRMED None a
  = (Return tt, Expected.status_updated rt a CONFIRMED None).
Proof.
  intros Hv Hs. apply updateStatus_valid; [done | by rewrite Hs | by rewrite Hs].
Qed.

End OtherCommands.

Lemma processPayment_outcome
    (rt : BaseEvent.Runtime) (a : OrderAggregate.t) (paymentStatus : string)
    (tx gw : option string) :
  (0 < OrderAggregate.version a)%Z ->
  exists a',
    OrderAggregate.processPayment rt paymentStatus tx gw a = (JS.Return tt, a')
    /\ OrderAggregate.paymentStatus a' = paymentStatus
    /\ (paymentStatus = "completed" /\ OrderAggregate.status a = Types.PENDING ->
        OrderAggregate.status a' = Types.CONFIRMED
        /\ OrderAggregate.version a' = (OrderAggregate.version a + 2)%Z
        /\ BaseEvent.type <$> OrderAggregate.uncommittedEvents a'
           = (BaseEvent.type <$> OrderAggregate.uncommittedEvents a)
             ++ ["OrderPaymentProcessed"; "OrderStatusUpdated"])
    /\ (~ (paymentStatus = "completed" /\ OrderAggregate.status a = Types.PENDING) ->
        OrderAggregate.status a' = OrderAggregate.status a
        /\ OrderAggregate.version a' = (OrderAggregate.version a + 1)%Z
        /\ BaseEvent.type <$> OrderAggregate.uncommittedEvents a'
           = (BaseEvent.type <$> OrderAggregate.uncommittedEvents a)
             ++ ["OrderPaymentProcessed"]).
Proof.
  intros Hv. unfold OrderAggregate.processPayment, OrderAggregate.bind, OrderAggregate.read.
  cbn -[OrderAggregate.updateStatus].
  destruct (Z.eqb_spec (OrderAggregate.version a) 0); [lia|].
  destruct (String.eqb_spec paymentStatus "completed") as [Hp|Hp];
    destruct (OrderStatus_eqb_spec (OrderAggregate.status a) Types.PENDING) as [Hs|Hs];
    cbn -[OrderAggregate.updateStatus].
  - rewrite updateStatus_pending_confirmed; [|simpl; lia | done].
    eexists. split; [reflexivity|]. simpl. split; [done|]. split.
    + intros _. split; [done|]. split; [lia|].
      by rewrite !fmap_app, <- app_assoc.
    + intros H. by destruct H.
  - eexists. split; [reflexivity|]. simpl. split; [done|]. split.
    + intros [_ H]. done.
    + intros _. split; [done|]. split; [done|]. by rewrite fmap_app.
  - eexists. split; [reflexivity|]. simpl. split; [done|]. split.
    + intros [H _]. done.
    + intros _. split; [done|]. split; [done|]. by rewrite fmap_app.
  - eexists. split; [reflexivity|]. simpl. split; [done|]. split.
    + intros [H _]. done.
    + intros _. split; [done|]. split; [done|]. by rewrite fmap_app.
Qed.

(** X5: on an existing order [processPayment] never throws; it records the
    payment status with one OrderPaymentProcessed event and, exactly when the
    payment status is 'completed' and the order is PENDING, confirms the
    order with a second event, OrderStatusUpdated. *)
Theorem processPayment_confirms_pending_order
    (rt : BaseEvent.Runtime) (a : OrderAggregate.t) (paymentStatus : string)
    (tx gw : option string) :
  (0 < OrderAggregate.version a)%Z ->
  exists a',
    OrderAggregate.processPayment rt paymentStatus tx gw a = (JS.Return tt, a')
    /\ OrderAggregate.paymentStatus a' = paymentStatus
    /\ (paymentStatus = "completed" /\ OrderAggregate.status a = Types.PENDING ->
        OrderAggregate.status a' = Types.CONFIRMED
        /\ OrderAggregate.version a' = (OrderAggregate.version a + 2)%Z
        /\ BaseEvent.type <$> OrderAggregate.uncommittedEvents a'
           = (BaseEvent.type <$> OrderAggregate.uncommittedEvents a)
             ++ ["OrderPaymentProcessed"; "OrderStatusUpdated"])
    /\ (~ (paymentStatus = "completed" /\ OrderAggregate.status a = Types.PENDING) ->
        OrderAggregate.status a' = OrderAggregate.status a
        /\ OrderAggregate.version a' = (OrderAggregate.version a + 1)%Z
        /\ BaseEvent.type <$> OrderAggregate.uncommittedEvents a'
           = (BaseEvent.type <$> OrderAggregate.uncommittedEvents a)
             ++ ["OrderPaymentProcessed"]).
Proof. apply processPayment_outcome. Qed.

Lemma processPayment_witness :
  exists a',
    OrderAggregate.processPayment Sample.rt "completed" (Some "txn-1") (Some "stripe")
      (Sample.after [Sample.create]) = (JS.Return tt, a')
    /\ OrderAggregate.status a' = Types.CONFIRMED
    /\ OrderAggregate.version a' = 3%Z.
Proof.
  destruct (processPayment_confirms_pending_order Sample.rt (Sample.after [Sample.create])
              "completed" (Some "txn-1") (Some "stripe")) as (a' & H & _ & Hyes & _);
    [reflexivity|].
  exists a'. split; [exact H|].
  destruct Hyes as (Hs & Hv & _); [split; reflexivity|].
  split; [exact Hs | exact Hv].
Defined.

Lemma shipOrder_outcome
    (rt : BaseEvent.Runtime) (a : OrderAggregate.t) (trackingNumber carrier : string)
    (eta : option Z) :
  (0 < OrderAggregate.version a)%Z ->
  (OrderAggregate.status a = Types.PROCESSING ->
   exists a',
     OrderAggregate.shipOrder rt trackingNumber carrier eta a = (JS.Return tt, a')
     /\ OrderAggregate.status a' = Types.SHIPPED
     /\ OrderAggregate.version a' = (OrderAggregate.version a + 2)%Z
     /\ BaseEvent.type <$> OrderAggregate.uncommittedEvents a'
        = (BaseEvent.type <$> OrderAggregate.uncommittedEvents a)
          ++ ["OrderShipped"; "OrderStatusUpdated"])
  /\ (OrderAggregate.status a <> Types.PROCESSING ->
      OrderAggregate.shipOrder rt trackingNumber carrier eta a
      = (JS.Throw (JS.new_Error "Order must be in processing status to ship"), a)).
Proof.
  intros Hv. unfold OrderAggregate.shipOrder, OrderAggregate.bind, OrderAggregate.read.
  cbn -[OrderAggregate.updateStatus].
  destruct (Z.eqb_spec (OrderAggregate.version a) 0); [lia|].
  split.
  - intros Hs. rewrite Hs. cbn -[OrderAggregate.updateStatus].
    rewrite updateStatus_valid; [| simpl; lia | simpl; by rewrite Hs | simpl; by rewrite Hs].
    eexists. split; [reflexivity|]. simpl. split; [done|]. split; [lia|].
    by rewrite !fmap_app, <- app_assoc.
  - intros Hs. by rewrite OrderStatus_eqb_neq.
Qed.

(** X6: [shipOrder] on an existing order succeeds exactly when the order is
    PROCESSING: it then emits OrderShipped and OrderStatusUpdated and the
    order is SHIPPED; in any other status it throws 'Order must be in
    processing status to ship' and leaves the aggregate as it was. *)
Theorem shipOrder_requires_processing
    (rt : BaseEvent.Runtime) (a : OrderAggregate.t) (trackingNumber carrier : string)
    (eta : option Z) :
  (0 < OrderAggregate.version a)%Z ->
  (OrderAggregate.status a = Types.PROCESSING ->
   exists a',
     OrderAggregate.shipOrder rt trackingNumber carrier eta a = (JS.Return tt, a')
     /\ OrderAggregate.status a' = Types.SHIPPED
     /\ OrderAggregate.version a' = (OrderAggregate.version a + 2)%Z
     /\ BaseEvent.type <$> OrderAggregate.uncommittedEvents a'
        = (BaseEvent.type <$> OrderAggregate.uncommittedEvents a)
          ++ ["OrderShipped"; "OrderStatusUpdated"])
  /\ (OrderAggregate.status a <> Types.PROCESSING ->
      OrderAggregate.shipOrder rt trackingNumber carrier eta a
      = (JS.Throw (JS.new_Error "Order must be in processing status to ship"), a)).
Proof. apply shipOrder_outcome. Qed.

Lemma shipOrder_witness :
  OrderAggregate.shipOrder Sample.rt "TRK-2" "UPS" None (Sample.after [Sample.create])
  = (JS.Throw (JS.new_Error "Order must be in processing status to ship"),
     Sample.after [Sample.create]).
Proof.
  apply (shipOrder_requires_processing Sample.rt (Sample.after [Sample.create])
           "TRK-2" "UPS" None); [by vm_compute | by vm_compute].
Defined.

(** X7: a command that throws leaves the aggregate exactly as it was, with
    one exception: [cancelOrder] on a SHIPPED order, which throws after
    OrderCancelled has been recorded. *)
Theorem failed_command_changes_nothing
    (rt : BaseEvent.Runtime) (c : OrderAggregate.Command) (a a' : OrderAggregate.t)
    (e : JS.Error) :
  (0 <= OrderAggregate.version a)%Z ->
  OrderAggregate.execute rt c a = (JS.Throw e, a') ->
  a' = a
  \/ exists reason by_ amount,
       c = OrderAggregate.CancelOrder reason by_ amount
       /\ OrderAggregate.status a = Types.SHIPPED
       /\ a' = Expected.cancel_recorded rt a reason by_ amount.
Proof.
  intros Hv. destruct c as [u its addr pm | s by_ | ps tx gw | tn ca eta | reason by_ amt];
    simpl.
  - unfold OrderAggregate.createOrder, OrderAggregate.bind, OrderAggregate.read. simpl.
    repeat case_match; intros [= _ <-]; by left.
  - unfold OrderAggregate.updateStatus, OrderAggregate.bind, OrderAggregate.read. simpl.
    repeat case_match; intros [=]; subst; by left.
  - destruct (Z.eq_dec (OrderAggregate.version a) 0) as [H0|H0].
    + unfold OrderAggregate.processPayment, OrderAggregate.bind, OrderAggregate.read.
      simpl. rewrite H0. simpl. intros [= _ <-]. by left.
    + destruct (processPayment_outcome rt a ps tx gw) as (a1 & -> & _);
        [lia|]. intros [=].
  - destruct (Z.eq_dec (OrderAggregate.version a) 0) as [H0|H0].
    + unfold OrderAggregate.shipOrder, OrderAggregate.bind, OrderAggregate.read.
      simpl. rewrite H0. simpl. intros [= _ <-]. by left.
    + destruct (shipOrder_outcome rt a tn ca eta) as [Hyes Hno]; [lia|].
      destruct (OrderStatus_eqb_spec (OrderAggregate.status a) Types.PROCESSING) as [Hs|Hs].
      * destruct (Hyes Hs) as (a1 & -> & _). intros [=].
      * rewrite (Hno Hs). intros [= _ <-]. by left.
  - destruct (Z.eq_dec (OrderAggregate.version a) 0) as [H0|H0].
    + unfold OrderAggregate.cancelOrder, OrderAggregate.bind, OrderAggregate.read.
      simpl. rewrite H0. simpl. intros [= _ <-]. by left.
    + destruct (OrderAggregate.status a) eqn:Hs.
      * rewrite cancelOrder_open; [intros [=] | lia | rewrite Hs; tauto].
      * rewrite cancelOrder_open; [intros [=] | lia | rewrite Hs; tauto].
      * rewrite cancelOrder_open; [intros [=] | lia | rewrite Hs; tauto].
      * rewrite cancelOrder_shipped; [| lia | done]. intros [= _ <-].
        right. by eexists _, _, _.
      * rewrite cancelOrder_final; [| done | rewrite Hs; tauto].
        intros [= _ <-]. by left.
      * rewrite cancelOrder_final; [| done | rewrite Hs; tauto].
        intros [= _ <-]. by left.
Qed.

Lemma failed_command_witness :
  snd (OrderAggregate.execute Sample.rt (OrderAggregate.UpdateStatus Types.SHIPPED None)
         (Sample.after [Sample.create]))
  = Sample.after [Sample.create].
Proof.
  destruct (failed_command_changes_nothing Sample.rt
              (OrderAggregate.UpdateStatus Types.SHIPPED None)
              (Sample.after [Sample.create])
              (Sample.after [Sample.create])
              (Spec.InvalidTransition Types.PENDING Types.SHIPPED))
    as [H | (reason & by_ & amount & Hc & _)].
  - by vm_compute.
  - vm_compute. reflexivity.
  - vm_compute. reflexivity.
  - discriminate Hc.
Defined.

(** ** fromEvents on arbitrary streams *)

Section Hydration.
Import JS Types OrderAggregate.

Lemma applyEvent_known event a :
  (forall ty, BaseEvent.data event <> BaseEvent.Other ty) ->
  exists a1,
    applyEvent event a = (Return tt, a1)
    /\ version a1 = BaseEvent.version event
    /\ id a1 = id a
    /\ uncommittedEvents a1 = uncommittedEvents a ++ [event].
Proof.
  intros Hk. unfold applyEvent, bind.
  destruct (BaseEvent.data event) eqn:Ed; simpl; try (eexists; by repeat split).
  by destruct (Hk ty).
Qed.

Lemma applyEvent_unknown event a ty :
  BaseEvent.data event = BaseEvent.Other ty ->
  applyEvent event a = (Throw (new_Error ("Unknown event type: " +:+ ty)), a).
Proof. intros Hd. unfold applyEvent, bind. by rewrite Hd. Qed.

Lemma forEach_known events a :
  Forall (fun e => forall ty, BaseEvent.data e <> BaseEvent.Other ty) events ->
  exists a',
    forEach_applyEvent events a = (Return tt, a')
    /\ version a' = default (version a) (BaseEvent.version <$> last events)
    /\ id a' = id a
    /\ uncommittedEvents a' = uncommittedEvents a ++ events.
Proof.
  intros Hk. revert a. induction Hk as [|event rest Hev _ IH]; intros a; simpl.
  - exists a. by rewrite app_nil_r.
  - destruct (applyEvent_known event a Hev) as (a1 & E & Hv & Hi & Hb).
    destruct (IH a1) as (a' & E' & Hv' & Hi' & Hb').
    exists a'. unfold bind. rewrite E. split; [exact E'|].
    split; [|split; [congruence|]].
    + rewrite Hv', Hv. destruct rest as [|e2 rest']; [done|].
      rewrite last_cons_cons.
      destruct (last (e2 :: rest')) eqn:El; [done | by apply last_None in El].
    + rewrite Hb', Hb. by rewrite <- app_assoc.
Qed.

Lemma forEach_unknown known event rest ty a :
  Forall (fun e => forall ty, BaseEvent.data e <> BaseEvent.Other ty) known ->
  BaseEvent.data event = BaseEvent.Other ty ->
  fst (forEach_applyEvent (known ++ event :: rest) a)
  = Throw (new_Error ("Unknown event type: " +:+ ty)).
Proof.
  intros Hk Hd. rewrite forEach_applyEvent_app. unfold bind at 1.
  destruct (forEach_known known a Hk) as (a' & -> & _). simpl.
  unfold bind. by rewrite (applyEvent_unknown event a' ty Hd).
Qed.

End Hydration.

(** X8: [fromEvents] accepts any non-empty stream of events of known types,
    whatever their versions are: it checks neither that they start at 1 nor
    that they are consecutive.  The aggregate it returns has the version of
    the last event, the id of the first event (or a fresh uuid when that id is
    empty) and no uncommitted event. *)
Theorem fromEvents_takes_version_of_last_event
    (rt : BaseEvent.Runtime) (first : BaseEvent.t) (rest : list BaseEvent.t) :
  Forall (fun e => forall ty, BaseEvent.data e <> BaseEvent.Other ty) (first :: rest) ->
  exists a,
    OrderAggregate.fromEvents rt (first :: rest) = JS.Return a
    /\ last (first :: rest) = Some (default first (last rest))
    /\ OrderAggregate.version a = BaseEvent.version (default first (last rest))
    /\ OrderAggregate.id a
       = JS.or_string (Some (BaseEvent.aggregateId first)) (BaseEvent.uuidv4 rt)
    /\ OrderAggregate.uncommittedEvents a = [].
Proof.
  intros Hk. unfold OrderAggregate.fromEvents, OrderAggregate.bind.
  destruct (forEach_known (first :: rest)
              (OrderAggregate.new rt (Some (BaseEvent.aggregateId first))) Hk)
    as (a' & -> & Hv & Hi & _).
  simpl. eexists. split; [reflexivity|]. simpl.
  assert (Hl : last (first :: rest) = Some (default first (last rest))).
  { destruct rest as [|e2 rest']; [done|]. rewrite last_cons_cons.
    by destruct (last (e2 :: rest')) eqn:El; [|apply last_None in El]. }
  split; [exact Hl|]. split; [|by split].
  rewrite Hv, Hl. reflexivity.
Qed.

Lemma fromEvents_version_witness :
  exists a,
    OrderAggregate.fromEvents Sample.rt
      [BaseEvent.createEvent Sample.rt "order-9" "Order"
         (BaseEvent.OrderPaymentProcessed "order-9" "completed" None None) 7;
       BaseEvent.createEvent Sample.rt "order-9" "Order"
         (BaseEvent.OrderStatusUpdated "order-9" Types.PENDING Types.DELIVERED None) 3]
    = JS.Return a
    /\ OrderAggregate.version a = 3%Z
    /\ OrderAggregate.status a = Types.DELIVERED.
Proof.
  destruct (fromEvents_takes_version_of_last_event Sample.rt
              (BaseEvent.createEvent Sample.rt "order-9" "Order"
                 (BaseEvent.OrderPaymentProcessed "order-9" "completed" None None) 7)
              [BaseEvent.createEvent Sample.rt "order-9" "Order"
                 (BaseEvent.OrderStatusUpdated "order-9" Types.PENDING Types.DELIVERED
                    None) 3]) as (a & H & _ & Hv & _).
  - repeat constructor; discriminate.
  - exists a. split; [exact H|]. split; [exact Hv|].
    vm_compute in H. injection H as <-. reflexivity.
Defined.

(** X9: [fromEvents] throws on the empty stream, and on a stream that holds
    an event of an unknown type it throws 'Unknown event type: T' for the
    first such event, whatever comes before and after it. *)
Theorem fromEvents_rejects_unknown_event_type
    (rt : BaseEvent.Runtime) (known : list BaseEvent.t) (event : BaseEvent.t)
    (rest : list BaseEvent.t) (ty : string) :
  Forall (fun e => forall ty, BaseEvent.data e <> BaseEvent.Other ty) known ->
  BaseEvent.data event = BaseEvent.Other ty ->
  OrderAggregate.fromEvents rt (known ++ event :: rest)
  = JS.Throw (JS.new_Error ("Unknown event type: " +:+ ty))
  /\ OrderAggregate.fromEvents rt []
     = JS.Throw (JS.new_Error "Cannot create aggregate from empty event stream").
Proof.
  intros Hk Hd. split; [|reflexivity].
  unfold OrderAggregate.fromEvents.
  destruct (known ++ event :: rest) as [|first tl] eqn:El.
  { by destruct known. }
  rewrite <- El. unfold OrderAggregate.bind.
  pose proof (forEach_unknown known event rest ty
                (OrderAggregate.new rt (Some (BaseEvent.aggregateId first))) Hk Hd) as H.
  destruct (OrderAggregate.forEach_applyEvent (known ++ event :: rest) _) as [[[]|e] a'];
    simpl in H; [discriminate H | by injection H as ->].
Qed.

Lemma fromEvents_unknown_witness :
  OrderAggregate.fromEvents Sample.rt
    (OrderAggregate.uncommittedEvents (Sample.after [Sample.create])
     ++ BaseEvent.createEvent Sample.rt "order-1" "Order" (BaseEvent.Other "OrderRefunded") 2
        :: [])
  = JS.Throw (JS.new_Error "Unknown event type: OrderRefunded").
Proof.
  apply (fromEvents_rejects_unknown_event_type Sample.rt
           (OrderAggregate.uncommittedEvents (Sample.after [Sample.create]))
           (BaseEvent.createEvent Sample.rt "order-1" "Order"
              (BaseEvent.Other "OrderRefunded") 2) [] "OrderRefunded").
  - vm_compute. repeat constructor; discriminate.
  - reflexivity.
Defined.

(** ** Inventory: when a save goes through *)

Section SaveFacts.
Import JS Inventory InventoryService InventorySaga.

Lemma Number_isInteger_spec x :
  Number_isInteger x = true <-> exists z : Z, (x == inject_Z z)%Q.
Proof.
  unfold Number_isInteger. rewrite Qeq_bool_iff. split.
  - intros H. by exists (Qfloor x).
  - intros [z Hz]. rewrite Hz at 1. by rewrite (Qfloor_comp _ _ Hz), Qfloor_Z.
Qed.

Lemma Number_isInteger_plus x y :
  Number_isInteger x = true -> Number_isInteger y = true ->
  Number_isInteger (x + y) = true.
Proof.
  rewrite !Number_isInteger_spec. intros [a Ha] [b Hb]. exists (a + b)%Z.
  by rewrite inject_Z_plus, Ha, Hb.
Qed.

Lemma Number_isInteger_minus x y :
  Number_isInteger x = true -> Number_isInteger y = true ->
  Number_isInteger (x - y) = true.
Proof.
  rewrite !Number_isInteger_spec. intros [a Ha] [b Hb]. exists (a - b)%Z.
  unfold Z.sub. rewrite inject_Z_plus, inject_Z_opp, Ha, Hb. reflexivity.
Qed.

Lemma valid_iff d :
  valid d <->
  productId d <> ""
  /\ (0 <= quantity d)%Q /\ Number_isInteger (quantity d) = true
  /\ (0 <= reservedQuantity d)%Q /\ Number_isInteger (reservedQuantity d) = true
  /\ (0 <= lowStockThreshold d)%Q /\ (0 <= reorderPoint d)%Q
  /\ Forall (fun m => Movement.reason m <> "") (movements d).
Proof.
  unfold valid, validate. rewrite <- !Qle_bool_iff.
  assert (Hm : forallb validate_movement (movements d) = true
               <-> Forall (fun m => Movement.reason m <> "") (movements d)).
  { rewrite forallb_forall, Forall_forall. unfold validate_movement.
    split; intros H m Hin; specialize (H m);
      [rewrite <- list_elem_of_In in H | rewrite <- list_elem_of_In in Hin];
      specialize (H Hin);
      destruct (String.eqb_spec (Movement.reason m) ""); simpl in *; congruence. }
  rewrite <- Hm.
  destruct (String.eqb_spec (productId d) "");
    destruct (Qle_bool 0 (quantity d)); destruct (Number_isInteger (quantity d));
    destruct (Qle_bool 0 (reservedQuantity d));
    destruct (Number_isInteger (reservedQuantity d));
    destruct (Qle_bool 0 (lowStockThreshold d)); destruct (Qle_bool 0 (reorderPoint d));
    destruct (forallb validate_movement (movements d)); simpl;
    intuition congruence.
Qed.

(** A valid document whose reserved quantity does not exceed the total is
    written under its product id. *)
Lemma save_valid now d db :
  valid d -> (reservedQuantity d <= quantity d)%Q ->
  save now d db
  = (Resolved tt, pre_save_lastUpdated now db d,
     <[productId d := pre_save_lastUpdated now db d]> db).
Proof.
  intros Hv Hr. unfold save. rewrite Hv. unfold pre_save_reserved.
  destruct (pre_save_lastUpdated_fields now db d) as (Hp & Hq & Hrq & _).
  rewrite Hq, Hrq, Hp.
  by destruct (Qlt_bool (quantity d) (reservedQuantity d)) eqn:E;
    [apply Qlt_bool_true in E; lra|].
Qed.

Lemma valid_pre_save now db d : valid d -> valid (pre_save_lastUpdated now db d).
Proof. unfold pre_save_lastUpdated. by destruct (_ || _). Qed.

Lemma valid_with_reserved d r m :
  valid d -> (0 <= r)%Q -> Number_isInteger r = true -> Movement.reason m <> "" ->
  valid (with_reserved d r m).
Proof.
  rewrite !valid_iff. simpl. intros (?&?&?&?&?&?&?&?) ? ? ?.
  repeat split; try done. apply Forall_app. split; [done | by constructor].
Qed.

Lemma valid_with_quantity d q m :
  valid d -> (0 <= q)%Q -> Number_isInteger q = true -> Movement.reason m <> "" ->
  valid (with_quantity d q m).
Proof.
  rewrite !valid_iff. simpl. intros (?&?&?&?&?&?&?&?) ? ? ?.
  repeat split; try done. apply Forall_app. split; [done | by constructor].
Qed.

End SaveFacts.

Section DocumentMethods.
Import JS Inventory InventoryService InventorySaga.

Lemma availableQuantity_invariant d :
  Spec.record_invariant d ->
  (availableQuantity d == quantity d - reservedQuantity d)%Q.
Proof.
  intros [_ H]. unfold availableQuantity. apply Q.max_r. lra.
Qed.

Lemma availableQuantity_nonneg d : (0 <= availableQuantity d)%Q.
Proof. unfold availableQuantity. apply Q.le_max_l. Qed.

Lemma reserve_resolves now d q reason ref u db :
  valid d -> Spec.record_invariant d ->
  (0 < q)%Q -> Number_isInteger q = true ->
  (q <= quantity d - reservedQuantity d)%Q -> reason <> "" ->
  exists d1,
    reserve now d q reason ref u db = (Resolved tt, d1, <[productId d := d1]> db)
    /\ valid d1 /\ Spec.record_invariant d1
    /\ productId d1 = productId d /\ quantity d1 = quantity d
    /\ reservedQuantity d1 = (reservedQuantity d + q)%Q
    /\ movements d1 = movements d ++ [movement Movement.RESERVED q reason ref u now].
Proof.
  intros Hv Hi Hq Hint Hle Hr.
  pose proof (availableQuantity_invariant d Hi) as Ha.
  destruct Hi as [H0 H1]. unfold reserve.
  destruct (Qle_bool q 0) eqn:E1; [apply Qle_bool_iff in E1; lra|].
  destruct (Qlt_bool (availableQuantity d) q) eqn:E2;
    [apply Qlt_bool_true in E2; lra|].
  set (d' := with_reserved d (reservedQuantity d + q)
               (movement Movement.RESERVED q reason ref u now)).
  assert (Hv' : valid d').
  { apply valid_with_reserved; [done | lra | | done].
    apply Number_isInteger_plus; [|done]. by apply valid_iff in Hv as (?&?&?&?&?&?). }
  rewrite save_valid; [| done | simpl; lra].
  destruct (pre_save_lastUpdated_fields now db d') as (Hp & Hq' & Hr' & Hm).
  eexists. split; [reflexivity|]. split; [by apply valid_pre_save|].
  rewrite Hp, Hq', Hr', Hm. unfold Spec.record_invariant. rewrite Hq', Hr'. simpl.
  repeat split; try done; lra.
Qed.

Lemma release_resolves now d q reason ref u db :
  valid d -> Spec.record_invariant d ->
  (0 < q)%Q -> Number_isInteger q = true ->
  (q <= reservedQuantity d)%Q -> reason <> "" ->
  exists d1,
    release now d q reason ref u db = (Resolved tt, d1, <[productId d := d1]> db)
    /\ valid d1 /\ Spec.record_invariant d1
    /\ productId d1 = productId d /\ quantity d1 = quantity d
    /\ reservedQuantity d1 = (reservedQuantity d - q)%Q
    /\ movements d1 = movements d ++ [movement Movement.RELEASED q reason ref u now].
Proof.
  intros Hv [H0 H1] Hq Hint Hle Hr. unfold release.
  destruct (Qle_bool q 0) eqn:E1; [apply Qle_bool_iff in E1; lra|].
  destruct (Qlt_bool (reservedQuantity d) q) eqn:E2;
    [apply Qlt_bool_true in E2; lra|].
  set (d' := with_reserved d (reservedQuantity d - q)
               (movement Movement.RELEASED q reason ref u now)).
  assert (Hv' : valid d').
  { apply valid_with_reserved; [done | lra | | done].
    apply Number_isInteger_minus; [|done]. by apply valid_iff in Hv as (?&?&?&?&?&?). }
  rewrite save_valid; [| done | simpl; lra].
  destruct (pre_save_lastUpdated_fields now db d') as (Hp & Hq' & Hr' & Hm).
  eexists. split; [reflexivity|]. split; [by apply valid_pre_save|].
  rewrite Hp, Hq', Hr', Hm. unfold Spec.record_invariant. rewrite Hq', Hr'. simpl.
  repeat split; try done; lra.
Qed.

Lemma removeStock_resolves now d q reason ref u db :
  valid d -> Spec.record_invariant d ->
  (0 < q)%Q -> Number_isInteger q = true ->
  (q <= quantity d - reservedQuantity d)%Q -> reason <> "" ->
  exists d1,
    removeStock now d q reason ref u db = (Resolved tt, d1, <[productId d := d1]> db)
    /\ valid d1 /\ Spec.record_invariant d1
    /\ productId d1 = productId d /\ quantity d1 = (quantity d - q)%Q
    /\ reservedQuantity d1 = reservedQuantity d
    /\ movements d1 = movements d ++ [movement Movement.OUT q reason ref u now].
Proof.
  intros Hv [H0 H1] Hq Hint Hle Hr. unfold removeStock.
  destruct (Qle_bool q 0) eqn:E1; [apply Qle_bool_iff in E1; lra|].
  destruct (Qlt_bool (quantity d) q) eqn:E2; [apply Qlt_bool_true in E2; lra|].
  set (d' := with_quantity d (quantity d - q)
               (movement Movement.OUT q reason ref u now)).
  assert (Hv' : valid d').
  { apply valid_with_quantity; [done | lra | | done].
    apply Number_isInteger_minus; [|done]. by apply valid_iff in Hv as (?&?&?&?). }
  rewrite save_valid; [| done | simpl; lra].
  destruct (pre_save_lastUpdated_fields now db d') as (Hp & Hq' & Hr' & Hm).
  eexists. split; [reflexivity|]. split; [by apply valid_pre_save|].
  rewrite Hp, Hq', Hr', Hm. unfold Spec.record_invariant. rewrite Hq', Hr'. simpl.
  repeat split; try done; lra.
Qed.

End DocumentMethods.

Section BusFacts.
Import JS EventBus.

(** [publish] returns exactly when the bus is connected and its channel
    takes the message. *)
Lemma publish_returns exchange routingKey event this :
  fst (publish exchange routingKey event this) = Return tt <-> ready this 1.
Proof.
  unfold publish, ready. destruct (isConnected this), (channel this) as [ch|]; simpl.
  - destruct (answers ch (calls ch)) eqn:E; simpl.
    + split; [|done]. intros _. split; [done|]. exists ch. split; [done|].
      intros i Hi. by replace (calls ch + i)%nat with (calls ch) by lia.
    + split; [done|]. intros (_ & ch' & [= <-] & H). specialize (H 0%nat).
      rewrite Nat.add_0_r in H. rewrite H in E; [done | lia].
    + split; [done|]. intros (_ & ch' & [= <-] & H). specialize (H 0%nat).
      rewrite Nat.add_0_r in H. rewrite H in E; [done | lia].
  - split; [done|]. by intros (_ & ch' & [=] & _).
  - split; [done|]. by intros ([=] & _).
  - split; [done|]. by intros ([=] & _).
Qed.

Lemma publish_ready exchange routingKey event this k :
  ready this (S k) ->
  exists bus, publish exchange routingKey event this = (Return tt, bus) /\ ready bus k.
Proof.
  intros (Hc & ch & Hch & H). unfold publish. rewrite Hc, Hch.
  pose proof (H 0%nat) as H0. rewrite Nat.add_0_r in H0. rewrite H0 by lia.
  eexists. split; [reflexivity|]. split; [done|]. eexists. split; [reflexivity|].
  simpl. intros i Hi. rewrite <- (H (S i)) by lia. f_equal. lia.
Qed.

Lemma ready_fewer this k k' : (k' <= k)%nat -> ready this k -> ready this k'.
Proof.
  intros Hk (Hc & ch & Hch & H). split; [done|]. exists ch. split; [done|].
  intros i Hi. apply H. lia.
Qed.

End BusFacts.

Section ServiceCalls.
Import JS Inventory InventoryService InventorySaga.

(** The event of a call is published once the collection is written: the
    call resolves when the bus takes the event, and rejects with what the bus
    threw otherwise; the collection is the written one either way. *)
Lemma service_publish now routingKey p data w db :
  inventories (snd (publish now routingKey p data w db)) = db
  /\ (fst (publish now routingKey p data w db) = Resolved tt
      <-> EventBus.ready (eventBus w) 1)
  /\ (~ EventBus.ready (eventBus w) 1 ->
      exists e, fst (publish now routingKey p data w db) = Rejected (Publish_failed e)).
Proof.
  split; [apply publish_inventories|]. unfold publish.
  pose proof (publish_returns "micropulse.events" routingKey
                (InventoryEvent.createEvent now p "Inventory" data) (eventBus w)) as H.
  destruct (EventBus.publish _ _ _ _) as [[[]|e] bus]; simpl in *.
  - split; [split; [intros _; by apply H | done]|].
    intros Hn. destruct Hn. by apply H.
  - split; [|by exists e]. split; [done|]. intros Hr. apply H in Hr. discriminate Hr.
Qed.

Lemma service_publish_ready now routingKey p data w db k :
  EventBus.ready (eventBus w) (S k) ->
  exists w', publish now routingKey p data w db = (Resolved tt, w')
             /\ inventories w' = db /\ EventBus.ready (eventBus w') k.
Proof.
  intros H. unfold publish.
  destruct (publish_ready "micropulse.events" routingKey
              (InventoryEvent.createEvent now p "Inventory" data) (eventBus w) k H)
    as (bus & -> & Hb).
  eexists. split; [reflexivity|]. done.
Qed.

(** A reservation of a positive whole quantity that is available on a stored
    valid record is written, whatever the bus does. *)
Lemma reserveStock_written now p d q reason ref u w :
  inventories w !! p = Some d -> productId d = p ->
  valid d -> Spec.record_invariant d ->
  (0 < q)%Q -> Number_isInteger q = true ->
  (q <= quantity d - reservedQuantity d)%Q -> reason <> "" ->
  exists d1 data,
    reserveStock now p q reason ref u w
    = publish now "inventory.reserved" p data w (<[p := d1]> (inventories w))
    /\ valid d1 /\ Spec.record_invariant d1
    /\ productId d1 = p /\ quantity d1 = quantity d
    /\ reservedQuantity d1 = (reservedQuantity d + q)%Q
    /\ movements d1 = movements d ++ [movement Movement.RESERVED q reason ref u now].
Proof.
  intros Hd Hp Hv Hi Hq Hint Hle Hr. unfold reserveStock, findByProductId. rewrite Hd.
  pose proof (availableQuantity_invariant d Hi) as Ha.
  destruct (Qlt_bool (availableQuantity d) q) eqn:E;
    [apply Qlt_bool_true in E; lra|].
  destruct (reserve_resolves now d q reason ref u (inventories w) Hv Hi Hq Hint Hle Hr)
    as (d1 & -> & Hrest).
  subst p. exists d1. eexists. split; [reflexivity|]. done.
Qed.

Lemma releaseStock_written now p d q reason ref u w :
  inventories w !! p = Some d -> productId d = p ->
  valid d -> Spec.record_invariant d ->
  (0 < q)%Q -> Number_isInteger q = true ->
  (q <= reservedQuantity d)%Q -> reason <> "" ->
  exists d1 data,
    releaseStock now p q reason ref u w
    = publish now "inventory.released" p data w (<[p := d1]> (inventories w))
    /\ valid d1 /\ Spec.record_invariant d1
    /\ productId d1 = p /\ quantity d1 = quantity d
    /\ reservedQuantity d1 = (reservedQuantity d - q)%Q
    /\ movements d1 = movements d ++ [movement Movement.RELEASED q reason ref u now].
Proof.
  intros Hd Hp Hv Hi Hq Hint Hle Hr. unfold releaseStock, findByProductId. rewrite Hd.
  destruct (release_resolves now d q reason ref u (inventories w) Hv Hi Hq Hint Hle Hr)
    as (d1 & -> & Hrest).
  subst p. exists d1. eexists. split; [reflexivity|]. done.
Qed.

Lemma reserveStock_resolves now p d q reason ref u w k :
  inventories w !! p = Some d -> productId d = p ->
  valid d -> Spec.record_invariant d ->
  (0 < q)%Q -> Number_isInteger q = true ->
  (q <= quantity d - reservedQuantity d)%Q -> reason <> "" ->
  EventBus.ready (eventBus w) (S k) ->
  exists d1 w1,
    reserveStock now p q reason ref u w = (Resolved tt, w1)
    /\ inventories w1 = <[p := d1]> (inventories w)
    /\ EventBus.ready (eventBus w1) k
    /\ valid d1 /\ Spec.record_invariant d1
    /\ productId d1 = p /\ quantity d1 = quantity d
    /\ reservedQuantity d1 = (reservedQuantity d + q)%Q
    /\ movements d1 = movements d ++ [movement Movement.RESERVED q reason ref u now].
Proof.
  intros Hd Hp Hv Hi Hq Hint Hle Hr Hbus.
  destruct (reserveStock_written now p d q reason ref u w Hd Hp Hv Hi Hq Hint Hle Hr)
    as (d1 & data & -> & Hrest).
  destruct (service_publish_ready now "inventory.reserved" p data w
              (<[p := d1]> (inventories w)) k Hbus) as (w1 & -> & Hw & Hb).
  by exists d1, w1.
Qed.

Lemma releaseStock_resolves now p d q reason ref u w k :
  inventories w !! p = Some d -> productId d = p ->
  valid d -> Spec.record_invariant d ->
  (0 < q)%Q -> Number_isInteger q = true ->
  (q <= reservedQuantity d)%Q -> reason <> "" ->
  EventBus.ready (eventBus w) (S k) ->
  exists d1 w1,
    releaseStock now p q reason ref u w = (Resolved tt, w1)
    /\ inventories w1 = <[p := d1]> (inventories w)
    /\ EventBus.ready (eventBus w1) k
    /\ valid d1 /\ Spec.record_invariant d1
    /\ productId d1 = p /\ quantity d1 = quantity d
    /\ reservedQuantity d1 = (reservedQuantity d - q)%Q
    /\ movements d1 = movements d ++ [movement Movement.RELEASED q reason ref u now].
Proof.
  intros Hd Hp Hv Hi Hq Hint Hle Hr Hbus.
  destruct (releaseStock_written now p d q reason ref u w Hd Hp Hv Hi Hq Hint Hle Hr)
    as (d1 & data & -> & Hrest).
  destruct (service_publish_ready now "inventory.released" p data w
              (<[p := d1]> (inventories w)) k Hbus) as (w1 & -> & Hw & Hb).
  by exists d1, w1.
Qed.

End ServiceCalls.

(** X10: reserve, then release.  On a stored valid record, with the event
    bus connected and its channel taking the two events, reserving a positive
    whole quantity that is available and then releasing the same quantity
    both resolve and restore the reserved and the available quantity; the
    total is untouched, the movement log has grown by a RESERVED and a
    RELEASED entry, and no other product is touched. *)
Theorem reserve_then_release_restores
    (now1 now2 : Z) (p : string) (d : Inventory.InventoryDocument) (q : Q)
    (reason1 reason2 : string) (ref u : option string) (w : InventoryService.World) :
  InventoryService.inventories w !! p = Some d -> Inventory.productId d = p ->
  InventorySaga.valid d -> Spec.record_invariant d ->
  (0 < q)%Q -> JS.Number_isInteger q = true ->
  (q <= Inventory.quantity d - Inventory.reservedQuantity d)%Q ->
  reason1 <> "" -> reason2 <> "" ->
  EventBus.ready (InventoryService.eventBus w) 2 ->
  exists w1 w2 d2,
    InventoryService.reserveStock now1 p q reason1 ref u w = (Inventory.Resolved tt, w1)
    /\ InventoryService.releaseStock now2 p q reason2 ref u w1
       = (Inventory.Resolved tt, w2)
    /\ InventoryService.inventories w2 !! p = Some d2
    /\ (Inventory.reservedQuantity d2 == Inventory.reservedQuantity d)%Q
    /\ Inventory.quantity d2 = Inventory.quantity d
    /\ (Inventory.availableQuantity d2 == Inventory.availableQuantity d)%Q
    /\ Inventory.movements d2
       = Inventory.movements d
         ++ [Inventory.movement Movement.RESERVED q reason1 ref u now1;
             Inventory.movement Movement.RELEASED q reason2 ref u now2]
    /\ (forall p', p' <> p ->
        InventoryService.inventories w2 !! p' = InventoryService.inventories w !! p').
Proof.
  intros Hd Hp Hv Hi Hq Hint Hle Hr1 Hr2 Hbus.
  destruct (reserveStock_resolves now1 p d q reason1 ref u w 1 Hd Hp Hv Hi Hq Hint Hle
              Hr1 Hbus)
    as (d1 & w1 & E1 & Hw1 & Hb1 & Hv1 & Hi1 & Hp1 & Hq1 & Hres1 & Hm1).
  destruct (releaseStock_resolves now2 p d1 q reason2 ref u w1 0)
    as (d2 & w2 & E2 & Hw2 & _ & Hv2 & Hi2 & Hp2 & Hq2 & Hres2 & Hm2);
    [by rewrite Hw1, lookup_insert_eq | done | done | done | done | done | | done | done |].
  { rewrite Hres1. destruct Hi as [H0 _]. lra. }
  exists w1, w2, d2.
  split; [exact E1|]. split; [exact E2|].
  split; [by rewrite Hw2, lookup_insert_eq|].
  assert (Hsame : (Inventory.reservedQuantity d2 == Inventory.reservedQuantity d)%Q).
  { rewrite Hres2, Hres1. lra. }
  split; [exact Hsame|]. split; [congruence|]. split.
  - rewrite (availableQuantity_invariant d2 Hi2), (availableQuantity_invariant d Hi).
    rewrite Hsame, Hq2, Hq1. reflexivity.
  - split; [by rewrite Hm2, Hm1, <- app_assoc|].
    intros p' Hne. by rewrite Hw2, Hw1, !lookup_insert_ne.
Qed.

Lemma stock_p1_valid : InventorySaga.valid Sample.stock_p1.
Proof. reflexivity. Qed.

Lemma stock_p1_invariant : Spec.record_invariant Sample.stock_p1.
Proof. split; simpl; lra. Qed.

Lemma bus_ready k : EventBus.ready Sample.bus k.
Proof. split; [done|]. eexists. split; [reflexivity|]. done. Qed.

Lemma bus_down_not_ready : ~ EventBus.ready Sample.bus_down 1.
Proof. by intros ([=] & _). Qed.

Lemma reserve_then_release_witness :
  exists w1 w2 d2,
    InventoryService.reserveStock 1 "p1" 3 "hold" (Some "order-7") None Sample.shop
    = (Inventory.Resolved tt, w1)
    /\ InventoryService.releaseStock 2 "p1" 3 "give back" (Some "order-7") None w1
       = (Inventory.Resolved tt, w2)
    /\ InventoryService.inventories w2 !! "p1" = Some d2
    /\ (Inventory.reservedQuantity d2 == 0)%Q.
Proof.
  destruct (reserve_then_release_restores 1 2 "p1" Sample.stock_p1 3 "hold" "give back"
              (Some "order-7") None Sample.shop)
    as (w1 & w2 & d2 & E1 & E2 & Hl & Hr & _).
  - reflexivity.
  - reflexivity.
  - exact stock_p1_valid.
  - exact stock_p1_invariant.
  - reflexivity.
  - reflexivity.
  - by vm_compute.
  - discriminate.
  - discriminate.
  - exact (bus_ready 2).
  - exists w1, w2, d2. split; [exact E1|]. split; [exact E2|]. split; [exact Hl|].
    exact Hr.
Defined.

(** X11: a reservation for a product that has no record writes one all the
    same.  [reserveStock] first creates an empty record for the product; for a
    positive quantity it then rejects, with 'Insufficient stock' when the
    event of the initialization was published and with the error of the bus
    when it was not, and the empty record stays in the collection either
    way. *)
Theorem reserveStock_unknown_product_leaves_empty_record
    (now : Z) (p : string) (q : Q) (reason : string) (ref u : option string)
    (w : InventoryService.World) :
  InventoryService.inventories w !! p = None -> p <> "" -> (0 < q)%Q ->
  InventoryService.inventories (snd (InventoryService.reserveStock now p q reason ref u w))
  = <[p := InventoryService.new_Inventory now p 0 []]> (InventoryService.inventories w)
  /\ (EventBus.ready (InventoryService.eventBus w) 1 ->
      fst (InventoryService.reserveStock now p q reason ref u w)
      = Inventory.Rejected (Inventory.Insufficient_stock p 0 q))
  /\ (~ EventBus.ready (InventoryService.eventBus w) 1 ->
      exists e,
        fst (InventoryService.reserveStock now p q reason ref u w)
        = Inventory.Rejected (Inventory.Publish_failed e))
  /\ Inventory.quantity (InventoryService.new_Inventory now p 0 []) = 0%Q
  /\ Inventory.reservedQuantity (InventoryService.new_Inventory now p 0 []) = 0%Q.
Proof.
  intros Hd Hp Hq.
  unfold InventoryService.reserveStock, InventoryService.initializeInventory,
    InventoryService.findByProductId. rewrite Hd.
  change (JS.Qlt_bool 0 0) with false. cbn iota.
  assert (Hv : InventorySaga.valid (InventoryService.new_Inventory now p 0 [])).
  { apply valid_iff. simpl. repeat split; try done. }
  rewrite save_valid; [| done | simpl; lra].
  assert (Hsame : Inventory.pre_save_lastUpdated now (InventoryService.inventories w)
                    (InventoryService.new_Inventory now p 0 [])
                  = InventoryService.new_Inventory now p 0 []).
  { unfold Inventory.pre_save_lastUpdated. by destruct (_ || _). }
  rewrite Hsame. simpl Inventory.productId.
  match goal with |- context [InventoryService.publish ?n ?rk ?a ?dt ?w0 ?db] =>
    destruct (service_publish n rk a dt w0 db) as (Hdb & [_ Hyes] & Hno);
    destruct (InventoryService.publish n rk a dt w0 db) as [[[]|f] w1] eqn:Ep
  end; simpl in Hdb, Hyes, Hno.
  - rewrite Hdb, lookup_insert_eq.
    assert (Hlt : JS.Qlt_bool 0 q = true) by (apply Qlt_bool_true; lra).
    rewrite Hlt. simpl. split; [done|]. split; [done|]. split; [|done].
    intros Hn. destruct (Hno Hn) as [e He]. discriminate He.
  - simpl. split; [done|]. split; [|split; [|done]].
    + intros Hr. specialize (Hyes Hr). discriminate Hyes.
    + intros Hn. destruct (Hno Hn) as [e [= ->]]. by exists e.
Qed.

Lemma reserveStock_unknown_witness :
  InventoryService.inventories
    (snd (InventoryService.reserveStock 5 "p2" 1 "hold" (Some "order-8") None Sample.shop))
  = <["p2" := InventoryService.new_Inventory 5 "p2" 0 []]> Sample.warehouse
  /\ fst (InventoryService.reserveStock 5 "p2" 1 "hold" (Some "order-8") None Sample.shop)
     = Inventory.Rejected (Inventory.Insufficient_stock "p2" 0 1).
Proof.
  destruct (reserveStock_unknown_product_leaves_empty_record 5 "p2" 1 "hold"
              (Some "order-8") None Sample.shop) as (H1 & H2 & _);
    [reflexivity | discriminate | reflexivity |].
  split; [exact H1 | exact (H2 (bus_ready 1))].
Defined.

(** X22: a reservation is written before its event is published.  On a
    stored valid record, reserving a positive whole quantity that is
    available adds it to the reserved quantity whatever the bus does; the
    call resolves exactly when the bus takes the StockReserved event, and
    rejects with the error of the bus otherwise, the reservation staying
    written. *)
Theorem reservation_is_written_before_its_event
    (now : Z) (p : string) (d : Inventory.InventoryDocument) (q : Q) (reason : string)
    (ref u : option string) (w : InventoryService.World) :
  InventoryService.inventories w !! p = Some d -> Inventory.productId d = p ->
  InventorySaga.valid d -> Spec.record_invariant d ->
  (0 < q)%Q -> JS.Number_isInteger q = true ->
  (q <= Inventory.quantity d - Inventory.reservedQuantity d)%Q ->
  reason <> "" ->
  let run := InventoryService.reserveStock now p q reason ref u w in
  (exists d1,
     InventoryService.inventories (snd run) = <[p := d1]> (InventoryService.inventories w)
     /\ Inventory.quantity d1 = Inventory.quantity d
     /\ Inventory.reservedQuantity d1 = (Inventory.reservedQuantity d + q)%Q)
  /\ (fst run = Inventory.Resolved tt <-> EventBus.ready (InventoryService.eventBus w) 1)
  /\ (~ EventBus.ready (InventoryService.eventBus w) 1 ->
      exists e, fst run = Inventory.Rejected (Inventory.Publish_failed e)).
Proof.
  intros Hd Hp Hv Hi Hq Hint Hle Hr run. subst run.
  destruct (reserveStock_written now p d q reason ref u w Hd Hp Hv Hi Hq Hint Hle Hr)
    as (d1 & data & -> & _ & _ & _ & Hq1 & Hres1 & _).
  destruct (service_publish now "inventory.reserved" p data w
              (<[p := d1]> (InventoryService.inventories w))) as (Hdb & Hyes & Hno).
  split; [by exists d1|]. split; [exact Hyes | exact Hno].
Qed.

Lemma reservation_written_witness :
  (exists d1,
     InventoryService.inventories
       (snd (InventoryService.reserveStock 1 "p1" 3 "hold" (Some "order-7") None
               Sample.shop_offline))
     = <["p1" := d1]> Sample.warehouse
     /\ Inventory.reservedQuantity d1 = (0 + 3)%Q)
  /\ exists e,
       fst (InventoryService.reserveStock 1 "p1" 3 "hold" (Some "order-7") None
              Sample.shop_offline)
       = Inventory.Rejected (Inventory.Publish_failed e).
Proof.
  destruct (reservation_is_written_before_its_event 1 "p1" Sample.stock_p1 3 "hold"
              (Some "order-7") None Sample.shop_offline)
    as ((d1 & Hdb & _ & Hres) & _ & Hno).
  - reflexivity.
  - reflexivity.
  - exact stock_p1_valid.
  - exact stock_p1_invariant.
  - reflexivity.
  - reflexivity.
  - by vm_compute.
  - discriminate.
  - split; [by exists d1 | exact (Hno bus_down_not_ready)].
Defined.

(** ** The saga: commit and release of an order's reservation *)

Section SagaFacts.
Import JS Inventory InventoryService InventorySaga.

Lemma release_resolved now d q reason ref u db d1 db1 :
  release now d q reason ref u db = (Resolved tt, d1, db1) ->
  db1 = <[productId d := d1]> db
  /\ productId d1 = productId d /\ quantity d1 = quantity d
  /\ reservedQuantity d1 = (reservedQuantity d - q)%Q
  /\ Spec.record_invariant d1 /\ (0 < q)%Q.
Proof.
  unfold release.
  destruct (Qle_bool q 0) eqn:E1; [intros [=]|].
  destruct (Qlt_bool (reservedQuantity d) q); [intros [=]|].
  intros H. apply save_resolved in H as (-> & -> & Hi).
  match goal with |- context [pre_save_lastUpdated now db ?x] =>
    destruct (pre_save_lastUpdated_fields now db x) as (Hp & Hq & Hr & _) end.
  rewrite Hp, Hq, Hr. simpl. repeat split; try done; try apply Hi.
  apply Qnot_le_lt. intros Hle. apply Qle_bool_iff in Hle. congruence.
Qed.

Lemma removeStock_resolved now d q reason ref u db d1 db1 :
  removeStock now d q reason ref u db = (Resolved tt, d1, db1) ->
  db1 = <[productId d := d1]> db
  /\ productId d1 = productId d /\ quantity d1 = (quantity d - q)%Q
  /\ reservedQuantity d1 = reservedQuantity d
  /\ Spec.record_invariant d1.
Proof.
  unfold removeStock.
  destruct (Qle_bool q 0) eqn:E1; [intros [=]|].
  destruct (Qlt_bool (quantity d) q); [intros [=]|].
  intros H. apply save_resolved in H as (-> & -> & Hi).
  match goal with |- context [pre_save_lastUpdated now db ?x] =>
    destruct (pre_save_lastUpdated_fields now db x) as (Hp & Hq & Hr & _) end.
  rewrite Hp, Hq, Hr. simpl. repeat split; try done; apply Hi.
Qed.

(** One item of a commit that resolves: the product of the item, when it has
    a record, loses the item's quantity from both the total and the reserved
    quantity; other records are untouched. *)
Lemma commit_item_resolved now orderId reason item db db' :
  Spec.indexed db -> Spec.collection_invariant db ->
  commit_item now orderId reason item db = (Resolved tt, db') ->
  Spec.indexed db' /\ Spec.collection_invariant db'
  /\ (forall p d, db !! p = Some d ->
      exists d', db' !! p = Some d'
        /\ quantity d'
           = (if String.eqb (Types.productId item) p
              then (quantity d - Types.quantity item)%Q else quantity d)
        /\ reservedQuantity d'
           = (if String.eqb (Types.productId item) p
              then (reservedQuantity d - Types.quantity item)%Q
              else reservedQuantity d)).
Proof.
  intros Hix Hinv. unfold commit_item, findByProductId.
  destruct (db !! Types.productId item) as [inventory|] eqn:Hfind.
  - destruct (release _ _ _ _ _ _ _) as [[[[]|f] d1] db1] eqn:E1; [|intros [=]].
    destruct (removeStock _ _ _ _ _ _ _) as [[r d2] db2] eqn:E2. intros [= -> ->].
    apply release_resolved in E1 as (-> & Hp1 & Hq1 & Hr1 & Hi1 & _).
    apply removeStock_resolved in E2 as (-> & Hp2 & Hq2 & Hr2 & Hi2).
    pose proof (Hix _ _ Hfind) as Hkey.
    rewrite Hp1, Hkey. rewrite insert_insert_eq.
    split; [|split].
    + intros p d. rewrite lookup_insert. case_decide; [|apply Hix].
      intros [= <-]. congruence.
    + intros p d. rewrite lookup_insert. case_decide; [|apply Hinv].
      by intros [= <-].
    + intros p d Hp. rewrite lookup_insert. case_decide as Hk.
      * subst p. rewrite Hfind in Hp. injection Hp as <-.
        exists d2. rewrite String.eqb_refl. split; [done|]. split; congruence.
      * exists d. split; [done|].
        by destruct (String.eqb_spec (Types.productId item) p).
  - intros [= <-]. split; [done|]. split; [done|].
    intros p d Hp. exists d. split; [done|].
    destruct (String.eqb_spec (Types.productId item) p); [congruence | done].
Qed.

Lemma commit_items_resolved now orderId reason items db db' :
  Spec.indexed db -> Spec.collection_invariant db ->
  for_each_item (commit_item now orderId reason) items db = (Resolved tt, db') ->
  Spec.collection_invariant db'
  /\ (forall p d, db !! p = Some d ->
      exists d', db' !! p = Some d'
        /\ (quantity d' == quantity d - Spec.demand p items)%Q
        /\ (reservedQuantity d' == reservedQuantity d - Spec.demand p items)%Q).
Proof.
  revert db. induction items as [|item rest IH]; intros db Hix Hinv; simpl.
  - intros [= <-]. split; [done|]. intros p d Hp. exists d. split; [done|]. split; lra.
  - destruct (commit_item now orderId reason item db) as [[[]|f] db1] eqn:E; [|intros [=]].
    intros Hrest.
    apply commit_item_resolved in E as (Hix1 & Hinv1 & H1); [| done | done].
    apply IH in Hrest as [Hinv' H']; [| done | done].
    split; [done|]. intros p d Hp.
    destruct (H1 _ _ Hp) as (d1 & Hp1 & Hq1 & Hr1).
    destruct (H' _ _ Hp1) as (d' & Hp' & Hq' & Hr').
    exists d'. split; [done|]. rewrite Hq', Hr', Hq1, Hr1.
    destruct (String.eqb _ p); split; lra.
Qed.

End SagaFacts.

(** X12: committing an order's reservation is all or nothing.  When it
    resolves, every stored product has lost the quantity the order asks of it
    from both its total and its reserved quantity, so that the available
    quantity is what it was; when it rejects (for one item the release or the
    removal fails) the collection is exactly as before the call. *)
Theorem commitOrderReservation_all_or_nothing
    (now : Z) (orderId reason : string) (items : list Types.OrderItem)
    (db : gmap string Inventory.InventoryDocument) :
  Spec.indexed db -> Spec.collection_invariant db ->
  match InventorySaga.commitOrderReservation now orderId reason items db with
  | (Inventory.Rejected _, db') => db' = db
  | (Inventory.Resolved _, db') =>
      forall p d, db !! p = Some d ->
        exists d', db' !! p = Some d'
          /\ (Inventory.quantity d' == Inventory.quantity d - Spec.demand p items)%Q
          /\ (Inventory.reservedQuantity d'
              == Inventory.reservedQuantity d - Spec.demand p items)%Q
          /\ (Inventory.availableQuantity d' == Inventory.availableQuantity d)%Q
  end.
Proof.
  intros Hix Hinv.
  unfold InventorySaga.commitOrderReservation, InventorySaga.withTransaction.
  destruct (InventorySaga.for_each_item _ items db) as [[[]|f] db'] eqn:E; [|done].
  apply commit_items_resolved in E as [Hinv' H]; [| done | done].
  intros p d Hp. destruct (H _ _ Hp) as (d' & Hp' & Hq & Hr).
  exists d'. split; [done|]. split; [done|]. split; [done|].
  rewrite (availableQuantity_invariant d' (Hinv' _ _ Hp')),
    (availableQuantity_invariant d (Hinv _ _ Hp)), Hq, Hr. lra.
Qed.

Lemma reserveStock_invariant now p q reason ref u w :
  Spec.collection_invariant (InventoryService.inventories w) ->
  Spec.collection_invariant
    (InventoryService.inventories (snd (InventoryService.reserveStock now p q reason ref u w))).
Proof.
  intros Hinv. unfold InventoryService.reserveStock, InventoryService.findByProductId.
  destruct (InventoryService.inventories w !! p) as [d|] eqn:Hd.
  - destruct (JS.Qlt_bool _ _); [done|].
    pose proof (kept_invariant _ _ Hinv
                  (reserve_kept now d q reason ref u (InventoryService.inventories w)))
      as [H _].
    destruct (Inventory.reserve now d q reason ref u _) as [[[[]|f] d1] db1]; simpl in *;
      [by rewrite publish_inventories | done].
  - pose proof (initializeInventory_kept now p 0 "Auto-initialized for reservation"
                  None w Hinv) as [H _].
    destruct (InventoryService.initializeInventory _ _ _ _ _ _) as [[[]|f] w1];
      simpl in *; [|done].
    destruct (InventoryService.inventories w1 !! p); [|done]. by destruct (JS.Qlt_bool 0 q).
Qed.

Lemma reserve_items_invariant now orderId items w :
  Spec.collection_invariant (InventoryService.inventories w) ->
  Spec.collection_invariant
    (InventoryService.inventories
       (snd (OrderCreatedHandler.reserve_items now orderId items w))).
Proof.
  revert w. induction items as [|item rest IH]; intros w Hinv; simpl; [done|].
  pose proof (reserveStock_invariant now (Types.productId item) (Types.quantity item)
                ("Order reservation for order " +:+ orderId) (Some orderId) None w Hinv)
    as H.
  destruct (InventoryService.reserveStock _ _ _ _ _ _ w) as [[[]|f] w1]; simpl in *;
    [by apply IH | done].
Qed.

Lemma delivered_once_indexed : Spec.indexed Sample.delivered_once.
Proof.
  assert (E : OrderCreatedHandler.reserve_items 1700000000100 "order-1" [Sample.item_p1]
                Sample.shop = (Inventory.Resolved tt, Sample.shop_once))
    by (vm_compute; reflexivity).
  by apply reserve_items_resolved in E as [H _]; [|exact warehouse_indexed].
Qed.

Lemma delivered_once_invariant : Spec.collection_invariant Sample.delivered_once.
Proof.
  change Sample.delivered_once with
    (InventoryService.inventories
       (snd (OrderCreatedHandler.reserve_items 1700000000100 "order-1" [Sample.item_p1]
               Sample.shop))).
  apply reserve_items_invariant. exact warehouse_invariant.
Qed.

Lemma commitOrderReservation_witness :
  (exists d', Sample2.warehouse_after_commit !! "p1" = Some d'
     /\ (Inventory.quantity d' == 8)%Q /\ (Inventory.reservedQuantity d' == 0)%Q)
  /\ InventorySaga.commitOrderReservation 1700000000400 "order-1" "shipped"
       [Sample.item_p1] Sample.warehouse
     = (Inventory.Rejected Inventory.Cannot_release_more_than_reserved,
        Sample.warehouse).
Proof.
  split.
  - pose proof (commitOrderReservation_all_or_nothing 1700000000300 "order-1" "shipped"
                  [Sample.item_p1] Sample.delivered_once) as H.
    assert (E : InventorySaga.commitOrderReservation 1700000000300 "order-1" "shipped"
                  [Sample.item_p1] Sample.delivered_once
                = (Inventory.Resolved tt, Sample2.warehouse_after_commit))
      by (vm_compute; reflexivity).
    rewrite E in H.
    assert (Hd : exists d, Sample.delivered_once !! "p1" = Some d
                           /\ Inventory.quantity d = 10%Q
                           /\ Inventory.reservedQuantity d = 2%Q).
    { eexists. split; [vm_compute; reflexivity|]. split; reflexivity. }
    destruct Hd as (d & Hd & Hq & Hr).
    destruct (H delivered_once_indexed delivered_once_invariant "p1" d Hd)
      as (d' & Hd' & Hq' & Hr' & _).
    exists d'. split; [exact Hd'|]. rewrite Hq', Hr', Hq, Hr. split; reflexivity.
  - vm_compute. reflexivity.
Defined.

Section ReleaseFacts.
Import JS Inventory InventoryService InventorySaga.

Lemma find_movement_last (f : Movement.t -> bool) ms m :
  Forall (fun x => f x = false) ms -> f m = true ->
  forall rest, find_movement f (ms ++ m :: rest) = Some m.
Proof.
  intros Hms Hm rest. unfold find_movement.
  induction Hms as [|x ms Hx _ IH]; simpl; [by rewrite Hm | by rewrite Hx].
Qed.

Lemma release_item_found now orderId reason item db d m :
  db !! Types.productId item = Some d ->
  find_movement (reserved_for orderId) (movements d) = Some m ->
  release_item now orderId reason item db
  = (fst (fst (release now d (Movement.quantity m) reason (Some orderId) None db)),
     snd (release now d (Movement.quantity m) reason (Some orderId) None db)).
Proof.
  intros Hd Hf. unfold release_item, findByProductId. rewrite Hd, Hf.
  by destruct (release _ _ _ _ _ _ _) as [[r d1] db1].
Qed.

(** Releasing the reservation of an order on a one-item list, when the
    product's record lists a RESERVED movement [m] for the order and the
    release of its quantity goes through. *)
Lemma releaseOrderReservation_found now orderId reason item db d m :
  db !! Types.productId item = Some d -> productId d = Types.productId item ->
  find_movement (reserved_for orderId) (movements d) = Some m ->
  valid d -> Spec.record_invariant d ->
  (0 < Movement.quantity m)%Q -> Number_isInteger (Movement.quantity m) = true ->
  (Movement.quantity m <= reservedQuantity d)%Q -> reason <> "" ->
  exists d1,
    releaseOrderReservation now orderId reason [item] db
    = (Resolved tt, <[Types.productId item := d1]> db)
    /\ valid d1 /\ Spec.record_invariant d1
    /\ productId d1 = Types.productId item /\ quantity d1 = quantity d
    /\ reservedQuantity d1 = (reservedQuantity d - Movement.quantity m)%Q
    /\ movements d1
       = movements d
         ++ [movement Movement.RELEASED (Movement.quantity m) reason (Some orderId)
               None now].
Proof.
  intros Hd Hp Hf Hv Hi Hq Hint Hle Hr.
  unfold releaseOrderReservation, withTransaction. simpl.
  rewrite (release_item_found now orderId reason item db d m Hd Hf).
  destruct (release_resolves now d (Movement.quantity m) reason (Some orderId) None db
              Hv Hi Hq Hint Hle Hr) as (d1 & -> & Hv1 & Hi1 & Hp1 & Hrest).
  simpl. rewrite Hp. exists d1. split; [done|]. split; [done|]. split; [done|].
  split; [congruence | done].
Qed.

Lemma reserved_for_movement orderId q reason u now :
  reserved_for orderId (movement Movement.RESERVED q reason (Some orderId) u now) = true.
Proof. unfold reserved_for. simpl. by rewrite String.eqb_refl. Qed.

End ReleaseFacts.





(** ** initializeInventory and syncProductStock *)

Section Initialization.
Import JS Inventory InventoryService InventorySaga.

Lemma save_resolved_valid now d db d1 db1 :
  save now d db = (Resolved tt, d1, db1) -> valid d.
Proof.
  unfold save, valid. destruct (validate d); [intros [=] | done].
Qed.

Lemma new_Inventory_valid now p stock reason u :
  valid (new_Inventory now p stock
           (if Qlt_bool 0 stock then [movement Movement.IN stock reason None u now]
            else []))
  <-> p <> "" /\ (0 <= stock)%Q /\ Number_isInteger stock = true
      /\ ((0 < stock)%Q -> reason <> "").
Proof.
  rewrite valid_iff. simpl.
  destruct (Qlt_bool 0 stock) eqn:E.
  - apply Qlt_bool_true in E. rewrite Forall_singleton. simpl.
    split; [intros (?&?&?&_&_&_&_&?); done|].
    intros (?&?&?&Hr). repeat split; try done. by apply Hr.
  - apply Qlt_bool_false in E.
    split; [intros (?&?&?&_); repeat split; try done; intros; lra|].
    intros (?&?&?&_). repeat split; try done.
Qed.

End Initialization.

(** X15: [initializeInventory] rejects with a conflict, and writes nothing,
    when the product already has a record.  Otherwise the record is written
    exactly when the product id is not empty, the initial stock is a
    non-negative whole number and, for a positive stock, the reason is not
    empty (the IN movement needs one); the record written has nothing
    reserved.  The call resolves exactly when, in addition, the event bus
    takes the InventoryCreated event: when the bus does not, the call rejects
    with the error of the bus and the record stays written. *)
Theorem initializeInventory_outcome
    (now : Z) (p : string) (stock : Q) (reason : string) (u : option string)
    (w : InventoryService.World) :
  let run := InventoryService.initializeInventory now p stock reason u w in
  let accepted :=
    p <> "" /\ (0 <= stock)%Q /\ JS.Number_isInteger stock = true
    /\ ((0 < stock)%Q -> reason <> "") in
  (forall d, InventoryService.inventories w !! p = Some d ->
     run = (Inventory.Rejected Inventory.Inventory_already_exists, w))
  /\ (InventoryService.inventories w !! p = None ->
      (fst run = Inventory.Resolved tt
       <-> accepted /\ EventBus.ready (InventoryService.eventBus w) 1)
      /\ (accepted ->
          exists d',
            InventoryService.inventories (snd run)
            = <[p := d']> (InventoryService.inventories w)
            /\ Inventory.quantity d' = stock
            /\ Inventory.reservedQuantity d' = 0%Q
            /\ length (Inventory.movements d')
               = (if JS.Qlt_bool 0 stock then 1 else 0)%nat)
      /\ (accepted -> ~ EventBus.ready (InventoryService.eventBus w) 1 ->
          exists e, fst run = Inventory.Rejected (Inventory.Publish_failed e))
      /\ (~ accepted ->
          InventoryService.inventories (snd run) = InventoryService.inventories w
          /\ InventoryService.eventBus (snd run) = InventoryService.eventBus w
          /\ exists f, fst run = Inventory.Rejected f
                       /\ forall e, f <> Inventory.Publish_failed e)).
Proof.
  intros run accepted. subst run. split.
  - intros d Hd. unfold InventoryService.initializeInventory,
      InventoryService.findByProductId. by rewrite Hd.
  - intros Hd. unfold InventoryService.initializeInventory,
      InventoryService.findByProductId. rewrite Hd.
    set (db := InventoryService.inventories w).
    set (doc := InventoryService.new_Inventory now p stock _).
    pose proof (new_Inventory_valid now p stock reason u) as Hvalid. fold doc in Hvalid.
    fold accepted in Hvalid.
    destruct (Inventory.save now doc db) as [[[[]|f] d1] db1] eqn:Es.
    + pose proof (save_resolved_valid _ _ _ _ _ Es) as Hv. apply Hvalid in Hv.
      apply save_resolved in Es as (-> & -> & _).
      match goal with |- context [InventoryService.publish ?n ?rk ?a ?dt ?w0 ?db0] =>
        destruct (service_publish n rk a dt w0 db0) as (Hdb & Hyes & Hno);
        set (r := InventoryService.publish n rk a dt w0 db0) in *
      end.
      split; [|split; [|split]].
      * split; [|by intros [_ Hr]; apply Hyes].
        intros Hr. split; [done|]. by apply Hyes.
      * intros _. rewrite Hdb. eexists. split; [reflexivity|].
        destruct (pre_save_lastUpdated_fields now db doc) as (_ & -> & -> & ->).
        subst doc. simpl. repeat split; try done. by destruct (JS.Qlt_bool 0 stock).
      * intros _ Hn. by apply Hno.
      * intros Hn. by destruct Hn.
    + assert (Hna : ~ accepted).
      { intros Hc. apply Hvalid in Hc.
        rewrite save_valid in Es; [discriminate Es | done |].
        subst doc. simpl. by apply Hvalid in Hc as (_ & ? & _). }
      pose proof (save_rejected_not_publish _ _ _ _ _ _ Es) as Hnp.
      apply save_rejected in Es as ->. simpl.
      split; [|split; [|split]].
      * split; [done|]. by intros [Hc _].
      * intros Hc. by destruct Hna.
      * intros Hc. by destruct Hna.
      * intros _. split; [done|]. split; [done|]. by exists f.
Qed.

(** X16: after [syncProductStock] resolves, the product's record holds the
    synced stock as its total and the reserved quantity it had before (none
    for a product that had no record), which the new total covers. *)
Theorem syncProductStock_sets_total
    (now : Z) (p : string) (newStock : Q) (reason : string) (u : option string)
    (w w' : InventoryService.World) :
  Spec.indexed (InventoryService.inventories w) ->
  InventoryService.syncProductStock now p newStock reason u w
  = (Inventory.Resolved tt, w') ->
  exists d',
    InventoryService.inventories w' !! p = Some d'
    /\ Inventory.quantity d' = newStock
    /\ Inventory.reservedQuantity d'
       = from_option Inventory.reservedQuantity 0%Q (InventoryService.inventories w !! p)
    /\ (Inventory.reservedQuantity d' <= newStock)%Q
    /\ (forall p', p' <> p ->
        InventoryService.inventories w' !! p' = InventoryService.inventories w !! p').
Proof.
  intros Hix. unfold InventoryService.syncProductStock, InventoryService.findByProductId.
  set (db := InventoryService.inventories w) in *.
  destruct (db !! p) as [d|] eqn:Hd; simpl.
  - unfold Inventory.adjust.
    destruct (JS.Qlt_bool newStock 0); [intros [=]|].
    destruct (JS.Qlt_bool newStock (Inventory.reservedQuantity d)); [intros [=]|].
    destruct (Inventory.save _ _ _) as [[r d1] db1] eqn:Es. intros [= -> <-].
    apply save_resolved in Es as (-> & -> & Hi).
    match goal with |- context [Inventory.pre_save_lastUpdated now db ?x] =>
      destruct (pre_save_lastUpdated_fields now db x) as (Hp & Hq & Hr & _);
      set (doc := x) in * end.
    simpl. rewrite (Hix _ _ Hd).
    exists (Inventory.pre_save_lastUpdated now db doc).
    split; [by rewrite lookup_insert_eq|]. split; [by rewrite Hq|].
    split; [by rewrite Hr|]. split.
    + destruct Hi as [_ Hle]. by rewrite Hq in Hle.
    + intros p' Hne. by rewrite lookup_insert_ne.
  - unfold InventoryService.initializeInventory, InventoryService.findByProductId.
    fold db. rewrite Hd.
    destruct (Inventory.save _ _ _) as [[[[]|f] d1] db1] eqn:Es; [|intros [=]].
    intros Hpub. apply publish_resolved in Hpub as ->.
    apply save_resolved in Es as (-> & -> & Hi).
    match goal with |- context [Inventory.pre_save_lastUpdated now db ?x] =>
      destruct (pre_save_lastUpdated_fields now db x) as (Hp & Hq & Hr & _);
      set (doc := x) in * end.
    simpl. exists (Inventory.pre_save_lastUpdated now db doc).
    split; [by rewrite lookup_insert_eq|]. split; [by rewrite Hq|].
    split; [by rewrite Hr|]. split.
    + destruct Hi as [_ Hle]. by rewrite Hq in Hle.
    + intros p' Hne. by rewrite lookup_insert_ne.
Qed.

Lemma syncProductStock_witness :
  exists d',
    InventoryService.inventories
      (snd (InventoryService.syncProductStock 9 "p1" 7 "Product stock update sync" None
              Sample.shop_5_reserved)) !! "p1" = Some d'
    /\ Inventory.quantity d' = 7%Q
    /\ (Inventory.reservedQuantity d' <= 7)%Q.
Proof.
  assert (Hix : Spec.indexed Sample.warehouse_5_reserved).
  { assert (E : InventoryService.reserveStock 1700000000050 "p1" 5 "hold"
                  (Some "order-0") None Sample.shop
                = (Inventory.Resolved tt,
                   snd (InventoryService.reserveStock 1700000000050 "p1" 5 "hold"
                          (Some "order-0") None Sample.shop)))
      by (vm_compute; reflexivity).
    apply reserveStock_resolved in E as [H _]; [|exact warehouse_indexed].
    assert (Es : InventoryService.inventories
                   (snd (InventoryService.reserveStock 1700000000050 "p1" 5 "hold"
                           (Some "order-0") None Sample.shop))
                 = Sample.warehouse_5_reserved) by (vm_compute; reflexivity).
    by rewrite Es in H. }
  destruct (syncProductStock_sets_total 9 "p1" 7 "Product stock update sync" None
              Sample.shop_5_reserved
              (snd (InventoryService.syncProductStock 9 "p1" 7
                      "Product stock update sync" None Sample.shop_5_reserved))
              Hix) as (d' & Hl & Hq & _ & Hle & _).
  - vm_compute. reflexivity.
  - exists d'. split; [exact Hl|]. split; [exact Hq | exact Hle].
Defined.

(** ** Retry handler: how many calls *)

Section RetryCalls.
Import JS Async RetryHandler Probe.

Variable Math_pow : Engine.power.

Lemma calculateDelay_remote {S} this attempt (w : World S) :
  remote (snd (calculateDelay Math_pow this attempt w)) = remote w.
Proof. unfold calculateDelay. by destruct (jitter this). Qed.

Lemma loop_remote_bound {T} this (script : nat -> settled T) n attempt last w :
  (remote w <= remote (snd (loop Math_pow this (observed script) n attempt last w))
   <= remote w + n)%nat.
Proof.
  revert attempt last w. induction n as [|n IH]; intros attempt last w; simpl.
  - destruct last; simpl; lia.
  - destruct (script (remote w)) as [v|e]; simpl; [lia|].
    destruct (retryCondition this e); simpl; [|lia].
    destruct (attempt =? maxAttempts this)%Z; simpl; [lia|].
    destruct (calculateDelay Math_pow this attempt _) as [delay w2] eqn:Ec.
    match goal with |- context [loop _ _ _ _ _ _ ?w3] => specialize (IH (attempt + 1)%Z (Some e) w3) end.
    apply (f_equal snd), (f_equal remote) in Ec. rewrite calculateDelay_remote in Ec.
    simpl in *. lia.
Qed.

Lemma loop_until_success {T} this (script : nat -> settled T) k v :
  forall n attempt last w,
    (k < n)%nat ->
    Z.of_nat n = (maxAttempts this - attempt + 1)%Z ->
    (forall i, (i < k)%nat ->
       exists e, script (remote w + i)%nat = Rejected e /\ retryCondition this e = true) ->
    script (remote w + k)%nat = Resolved v ->
    exists w',
      loop Math_pow this (observed script) n attempt last w = (Returned v, w')
      /\ remote w' = (remote w + k + 1)%nat.
Proof.
  induction k as [|k IH]; intros n attempt last w Hk Hn Hfail Hok;
    (destruct n as [|n]; [lia|]); simpl.
  - rewrite Nat.add_0_r in Hok. rewrite Hok. eexists. split; [reflexivity|]. simpl. lia.
  - destruct (Hfail 0%nat) as (e & He & Hc); [lia|].
    rewrite Nat.add_0_r in He. rewrite He, Hc. simpl.
    destruct (Z.eqb_spec attempt (maxAttempts this)); [lia|].
    destruct (calculateDelay Math_pow this attempt _) as [delay w2] eqn:Ec.
    apply (f_equal snd), (f_equal remote) in Ec. rewrite calculateDelay_remote in Ec.
    simpl in Ec.
    assert (Hrem : remote (sleep (timer delay) w2) = Datatypes.S (remote w)) by (simpl; congruence).
    destruct (IH n (attempt + 1)%Z (Some e) (sleep (timer delay) w2)) as (w' & E & Hr).
    + lia.
    + lia.
    + intros i Hi. rewrite Hrem.
      replace (Datatypes.S (remote w) + i)%nat with (remote w + Datatypes.S i)%nat by lia.
      apply Hfail. lia.
    + rewrite Hrem.
      by replace (Datatypes.S (remote w) + k)%nat with (remote w + Datatypes.S k)%nat by lia.
    + exists w'. split; [exact E|]. rewrite Hr, Hrem. lia.
Qed.

Lemma loop_gives_up {T} this (script : nat -> settled T) (err : nat -> Error) :
  forall n attempt last w,
    Z.of_nat (Datatypes.S n) = (maxAttempts this - attempt + 1)%Z ->
    (forall i, (i <= n)%nat ->
       script (remote w + i)%nat = Rejected (err (remote w + i)%nat)
       /\ retryCondition this (err (remote w + i)%nat) = true) ->
    exists w',
      loop Math_pow this (observed script) (Datatypes.S n) attempt last w
      = (Thrown (err (remote w + n)%nat), w')
      /\ remote w' = (remote w + n + 1)%nat.
Proof.
  induction n as [|n IH]; intros attempt last w Hn Hfail; simpl.
  - destruct (Hfail 0%nat) as (He & Hc); [lia|].
    rewrite Nat.add_0_r in He, Hc. rewrite He, Hc. simpl.
    destruct (Z.eqb_spec attempt (maxAttempts this)); [|lia].
    rewrite Nat.add_0_r. eexists. split; [reflexivity|]. simpl. lia.
  - destruct (Hfail 0%nat) as (He & Hc); [lia|].
    rewrite Nat.add_0_r in He, Hc. rewrite He, Hc. simpl.
    destruct (Z.eqb_spec attempt (maxAttempts this)); [lia|].
    destruct (calculateDelay Math_pow this attempt _) as [delay w2] eqn:Ec.
    apply (f_equal snd), (f_equal remote) in Ec. rewrite calculateDelay_remote in Ec.
    simpl in Ec.
    assert (Hrem : remote (sleep (timer delay) w2) = Datatypes.S (remote w)) by (simpl; congruence).
    destruct (IH (attempt + 1)%Z (Some (err (remote w))) (sleep (timer delay) w2)) as (w' & E & Hr).
    + lia.
    + intros i Hi. rewrite Hrem.
      replace (Datatypes.S (remote w) + i)%nat with (remote w + Datatypes.S i)%nat by lia.
      apply Hfail. lia.
    + exists w'. rewrite Hrem in E, Hr.
      replace (Datatypes.S (remote w) + n)%nat with (remote w + Datatypes.S n)%nat in E by lia.
      split; [exact E|]. lia.
Qed.

End RetryCalls.

(** X17: the retry handler never calls the wrapped function more than
    [maxAttempts] times, whatever the calls return. *)
Theorem retry_calls_at_most_maxAttempts
    {T : Type} (Math_pow : Engine.power) (this : RetryHandler.RetryOptions) (script : nat -> Async.settled T)
    (w : Async.World nat) :
  (Async.remote w
   <= Async.remote (snd (RetryHandler.execute Math_pow this (Probe.observed script) w))
   <= Async.remote w + Z.to_nat (RetryHandler.maxAttempts this))%nat.
Proof. apply loop_remote_bound. Qed.

(** X18: the retry handler returns the first success.  If the first [k]
    calls fail with errors that the retry condition accepts, the next call
    succeeds and [k] is below [maxAttempts], then [execute] returns that
    value after exactly [k + 1] calls. *)
Theorem retry_returns_first_success
    {T : Type} (Math_pow : Engine.power) (this : RetryHandler.RetryOptions) (script : nat -> Async.settled T)
    (w : Async.World nat) (k : nat) (v : T) :
  (Z.of_nat k < RetryHandler.maxAttempts this)%Z ->
  (forall i, (i < k)%nat ->
     exists e, script (Async.remote w + i)%nat = Async.Rejected e
               /\ RetryHandler.retryCondition this e = true) ->
  script (Async.remote w + k)%nat = Async.Resolved v ->
  exists w',
    RetryHandler.execute Math_pow this (Probe.observed script) w = (RetryHandler.Returned v, w')
    /\ Async.remote w' = (Async.remote w + k + 1)%nat.
Proof.
  intros Hk Hfail Hok. unfold RetryHandler.execute.
  apply loop_until_success; [lia | lia | done | done].
Qed.

Lemma retry_first_success_witness :
  exists w',
    RetryHandler.execute Number.pow RetryHandler.defaultRetryOptions
      (Probe.observed (fun i => if (i <? 2)%nat
                                then Async.Rejected Sample.connection_refused
                                else Async.Resolved i))
      Sample.world0
    = (RetryHandler.Returned 2%nat, w')
    /\ Async.remote w' = 3%nat.
Proof.
  apply (retry_returns_first_success Number.pow RetryHandler.defaultRetryOptions
           (fun i => if (i <? 2)%nat then Async.Rejected Sample.connection_refused
                     else Async.Resolved i)
           Sample.world0 2 2%nat).
  - reflexivity.
  - intros i Hi. exists Sample.connection_refused. simpl.
    destruct i as [|[|i]]; [done | done | lia].
  - reflexivity.
Defined.

(** X19: the retry handler gives up after [maxAttempts] calls.  If every one
    of the first [maxAttempts] calls fails with an error that the retry
    condition accepts, [execute] throws the error of the last of them after
    exactly [maxAttempts] calls. *)
Theorem retry_gives_up_after_maxAttempts
    {T : Type} (Math_pow : Engine.power) (this : RetryHandler.RetryOptions) (script : nat -> Async.settled T)
    (err : nat -> JS.Error) (w : Async.World nat) :
  (1 <= RetryHandler.maxAttempts this)%Z ->
  (forall i, (Z.of_nat i < RetryHandler.maxAttempts this)%Z ->
     script (Async.remote w + i)%nat = Async.Rejected (err (Async.remote w + i)%nat)
     /\ RetryHandler.retryCondition this (err (Async.remote w + i)%nat) = true) ->
  exists w',
    RetryHandler.execute Math_pow this (Probe.observed script) w
    = (RetryHandler.Thrown
         (err (Async.remote w + Z.to_nat (RetryHandler.maxAttempts this) - 1)%nat), w')
    /\ Async.remote w'
       = (Async.remote w + Z.to_nat (RetryHandler.maxAttempts this))%nat.
Proof.
  intros Hm Hfail. unfold RetryHandler.execute.
  destruct (Z.to_nat (RetryHandler.maxAttempts this)) as [|n] eqn:En; [lia|].
  destruct (loop_gives_up Math_pow this script err n 1 None w) as (w' & E & Hr).
  - lia.
  - intros i Hi. apply Hfail. lia.
  - exists w'. split; [|lia].
    by replace (Async.remote w + Datatypes.S n - 1)%nat with (Async.remote w + n)%nat by lia.
Qed.

Lemma retry_gives_up_witness :
  exists w',
    RetryHandler.execute Number.pow RetryHandler.defaultRetryOptions
      (Probe.observed (fun _ => Async.Rejected (T:=unit) Sample.connection_refused))
      Sample.world0
    = (RetryHandler.Thrown Sample.connection_refused, w')
    /\ Async.remote w' = 3%nat.
Proof.
  apply (retry_gives_up_after_maxAttempts Number.pow RetryHandler.defaultRetryOptions
           (fun _ => Async.Rejected (T:=unit) Sample.connection_refused)
           (fun _ => Sample.connection_refused) Sample.world0).
  - simpl. lia.
  - intros i _. split; reflexivity.
Defined.

(** ** Circuit breaker: a run of calls while CLOSED *)

Section BreakerRuns.
Import JS Async CircuitBreaker Probe.

Lemma isExpectedError_options this this' e :
  options this' = options this -> isExpectedError this' e = isExpectedError this e.
Proof. intros H. unfold isExpectedError. by rewrite H. Qed.

Lemma streak_ext {T} (f g : Error -> bool) (script : nat -> settled T) i n c :
  (forall e, f e = g e) -> streak f script i n c = streak g script i n c.
Proof.
  intros H. revert i c. induction n as [|n IH]; intros i c; simpl; [done|].
  rewrite IH. destruct (script i); [done|]. by rewrite H.
Qed.

Lemma streak_last {T} (f : Error -> bool) (script : nat -> settled T) i n c :
  streak f script i (Datatypes.S n) c
  = match script (i + n)%nat with
    | Resolved _ => 0%Z
    | Rejected e => if f e then streak f script i n c
                    else (streak f script i n c + 1)%Z
    end.
Proof.
  revert i c. induction n as [|n IH]; intros i c.
  - simpl. by rewrite Nat.add_0_r.
  - change (streak f script i (Datatypes.S (Datatypes.S n)) c) with
      (streak f script (Datatypes.S i) (Datatypes.S n)
         match script i with
         | Resolved _ => 0%Z
         | Rejected e => if f e then c else (c + 1)%Z
         end).
    rewrite IH. simpl.
    by replace (i + Datatypes.S n)%nat with (Datatypes.S (i + n)) by lia.
Qed.

(** While the streak stays below the threshold every call reaches the remote
    side, the breaker stays CLOSED and its failure count is the streak. *)
Lemma calls_while_closed {T} (script : nat -> settled T) n :
  forall this w,
    state this = CLOSED ->
    (forall k, (1 <= k <= n)%nat ->
       (streak (isExpectedError this) script (remote w) k (failureCount this)
        < failureThreshold (options this))%Z) ->
    state (fst (calls n this script w)) = CLOSED
    /\ failureCount (fst (calls n this script w))
       = streak (isExpectedError this) script (remote w) n (failureCount this)
    /\ remote (snd (calls n this script w)) = (remote w + n)%nat
    /\ options (fst (calls n this script w)) = options this.
Proof.
  induction n as [|n IH]; intros this w Hs Hlow; simpl.
  - repeat split; try done; lia.
  - rewrite (execute_closed this (observed script) w Hs). unfold run. simpl.
    pose proof (Hlow 1%nat ltac:(lia)) as H1. simpl in H1.
    set (w1 := {| clock := clock w; entropy := entropy w; drawn := drawn w;
                  remote := Datatypes.S (remote w) |}).
    assert (Hstep : forall this1,
              state this1 = CLOSED -> options this1 = options this ->
              failureCount this1
              = match script (remote w) with
                | Resolved _ => 0%Z
                | Rejected e => if isExpectedError this e then failureCount this
                                else (failureCount this + 1)%Z
                end ->
              state (fst (calls n this1 script w1)) = CLOSED
              /\ failureCount (fst (calls n this1 script w1))
                 = streak (isExpectedError this) script (Datatypes.S (remote w)) n
                     (failureCount this1)
              /\ remote (snd (calls n this1 script w1)) = (remote w + Datatypes.S n)%nat
              /\ options (fst (calls n this1 script w1)) = options this).
    { intros this1 Hs1 Ho1 Hc1.
      destruct (IH this1 w1 Hs1) as (Ha & Hb & Hc & Hd).
      - intros k Hk. rewrite Ho1.
        rewrite (streak_ext _ (isExpectedError this)); [|intros e; by apply isExpectedError_options].
        rewrite Hc1. apply (Hlow (Datatypes.S k)). lia.
      - split; [exact Ha|]. split.
        + rewrite Hb. apply streak_ext. intros e. by apply isExpectedError_options.
        + split; [rewrite Hc; simpl; lia | congruence]. }
    destruct (script (remote w)) as [v|e] eqn:Es.
    + destruct (Hstep (onSuccess this)) as (Ha & Hb & Hc & Hd);
        [simpl; by rewrite Hs | done | done |].
      by rewrite Hb in *.
    + destruct (isExpectedError this e) eqn:Ee.
      * rewrite onFailure_expected by done.
        destruct (Hstep this) as (Ha & Hb & Hc & Hd); done.
      * destruct (onFailure_counted (clock w1) this e Ee) as (Ho & Hn & _ & Hst).
        destruct (Z.leb_spec (failureThreshold (options this)) (failureCount this + 1));
          [lia|].
        destruct Hst as [Hst _].
        destruct (Hstep (onFailure (clock w1) this e)) as (Ha & Hb & Hc & Hd);
          [congruence | done | done |].
        by rewrite Hn in Hb.
Qed.

End BreakerRuns.

(** X20: a new breaker with a positive threshold stays CLOSED, lets every
    call through and counts, as long as the number of non-expected failures
    since the last success stays below the threshold: after [n] such calls
    its failure count is that number.  If the next call brings the number to
    the threshold, the breaker is OPEN after it. *)
Theorem breaker_opens_when_streak_reaches_threshold
    {T : Type} (name : string) (o : CircuitBreaker.PartialOptions)
    (script : nat -> Async.settled T) (w : Async.World nat) (n : nat) :
  let this := CircuitBreaker.new name o in
  let threshold := CircuitBreaker.failureThreshold (CircuitBreaker.options this) in
  let count k := Probe.streak (CircuitBreaker.isExpectedError this) script
                   (Async.remote w) k 0 in
  (0 < threshold)%Z ->
  (forall k, (1 <= k <= n)%nat -> (count k < threshold)%Z) ->
  (CircuitBreaker.state (fst (Probe.calls n this script w)) = CircuitBreaker.CLOSED
   /\ CircuitBreaker.failureCount (fst (Probe.calls n this script w)) = count n
   /\ Async.remote (snd (Probe.calls n this script w)) = (Async.remote w + n)%nat)
  /\ ((threshold <= count (Datatypes.S n))%Z ->
      CircuitBreaker.state (fst (Probe.calls (Datatypes.S n) this script w))
      = CircuitBreaker.OPEN
      /\ Async.remote (snd (Probe.calls (Datatypes.S n) this script w))
         = (Async.remote w + n + 1)%nat).
Proof.
  intros this threshold count Hpos Hlow.
  destruct (calls_while_closed script n this w eq_refl Hlow) as (Hs & Hc & Hr & Ho).
  split; [done|]. intros Hreach.
  assert (Hsplit : forall m this0 w0,
            Probe.calls (Datatypes.S m) this0 script w0
            = (let '(this1, w1) := Probe.calls m this0 script w0 in
               let '(_, this2, w2) :=
                 CircuitBreaker.execute this1 (Probe.observed script) w1 in
               (this2, w2))).
  { induction m as [|m IH]; intros this0 w0.
    - simpl. by destruct (CircuitBreaker.execute _ _ _) as [[r t2] w2].
    - change (Probe.calls (Datatypes.S (Datatypes.S m)) this0 script w0) with
        (let '(_, t1, w1) := CircuitBreaker.execute this0 (Probe.observed script) w0 in
         Probe.calls (Datatypes.S m) t1 script w1).
      destruct (CircuitBreaker.execute this0 _ w0) as [[r t1] w1] eqn:E.
      rewrite IH. simpl. by rewrite E. }
  rewrite Hsplit.
  destruct (Probe.calls n this script w) as [this1 w1]. cbn [fst snd] in Hs, Hc, Hr, Ho.
  rewrite (execute_closed this1 (Probe.observed script) w1 Hs).
  unfold CircuitBreaker.run. cbn [Probe.observed fst snd].
  assert (Hcount : count (Datatypes.S n)
                   = match script (Async.remote w1) with
                     | Async.Resolved _ => 0%Z
                     | Async.Rejected e =>
                         if CircuitBreaker.isExpectedError this e
                         then CircuitBreaker.failureCount this1
                         else (CircuitBreaker.failureCount this1 + 1)%Z
                     end).
  { subst count. cbv beta. rewrite streak_last. by rewrite Hc, Hr. }
  assert (Hbelow : (CircuitBreaker.failureCount this1 < threshold)%Z).
  { rewrite Hc. destruct n; [exact Hpos | apply Hlow; lia]. }
  rewrite Hcount in Hreach.
  destruct (script (Async.remote w1)) as [v|e]; [lia|].
  assert (He : CircuitBreaker.isExpectedError this1 e
               = CircuitBreaker.isExpectedError this e)
    by (apply isExpectedError_options; exact Ho).
  rewrite <- He in Hreach.
  destruct (CircuitBreaker.isExpectedError this1 e) eqn:Ee; [lia|].
  match goal with |- context [CircuitBreaker.onFailure ?c this1 e] =>
    destruct (onFailure_counted c this1 e Ee) as (_ & _ & _ & Hst) end.
  rewrite Ho in Hst. fold threshold in Hst.
  destruct (Z.leb_spec threshold (CircuitBreaker.failureCount this1 + 1)); [|lia].
  destruct Hst as [Hst _]. cbn [fst snd Async.remote]. split; [exact Hst | lia].
Qed.

Lemma breaker_streak_witness :
  CircuitBreaker.state
    (fst (Probe.calls 4 Sample.breaker
            (fun _ => Async.Rejected (T:=unit) Sample.connection_refused) Sample.world0))
  = CircuitBreaker.CLOSED
  /\ CircuitBreaker.state
       (fst (Probe.calls 5 Sample.breaker
               (fun _ => Async.Rejected (T:=unit) Sample.connection_refused)
               Sample.world0))
     = CircuitBreaker.OPEN.
Proof.
  destruct (breaker_opens_when_streak_reaches_threshold "http-client-product-service"
              (CircuitBreaker.partial CircuitBreaker.defaultCircuitBreakerOptions)
              (fun _ => Async.Rejected (T:=unit) Sample.connection_refused)
              Sample.world0 4) as [(Hclosed & _) Hopen].
  - reflexivity.
  - intros k Hk. destruct k as [|[|[|[|[|k]]]]]; try lia; reflexivity.
  - split; [exact Hclosed|]. apply Hopen. by vm_compute.
Defined.

(** ** Backoff without jitter *)

Section Backoff.
Import JS Async RetryHandler.

(** The exact results [x <= y] round to doubles in the same order, +Infinity
    being the largest. *)
Lemma of_Q_monotone x y :
  (0 <= x)%Q -> (x <= y)%Q ->
  (Number.of_Q x = Number.Infinity false /\ Number.of_Q y = Number.Infinity false)
  \/ (Number.of_Q x = Number.Finite (Number.round x)
      /\ Number.of_Q y = Number.Infinity false)
  \/ (Number.of_Q x = Number.Finite (Number.round x)
      /\ Number.of_Q y = Number.Finite (Number.round y)
      /\ (Number.round x <= Number.round y)%Q).
Proof.
  intros Hx Hxy. pose proof (round_mono x y Hx Hxy) as Hr.
  destruct (of_Q_nonneg x Hx) as [[Ex Hbx]|[Ex Hbx]];
    (destruct (of_Q_nonneg y) as [[Ey Hby]|[Ey Hby]]; [lra| |]).
  - by left.
  - lra.
  - right. by left.
  - right. by right.
Qed.

(** What the timer waits for a delay capped at [m] and rounded down. *)
Lemma timer_capped_Infinity m :
  timer (Number.floor (Number.min (Number.Infinity false) (Number.Finite m))) = Qfloor m.
Proof. cbn [Number.min Number.leb Number.floor timer]. apply Qfloor_Z. Qed.

Lemma timer_capped_Finite z m :
  timer (Number.floor (Number.min (Number.Finite z) (Number.Finite m)))
  = Qfloor (Qmin z m).
Proof.
  destruct (min_Finite z m) as (y & -> & Hy). cbn [Number.floor timer].
  rewrite Qfloor_Z. by apply Qfloor_comp.
Qed.

Lemma timer_capped_monotone x y m :
  (x = Number.Infinity false /\ y = Number.Infinity false)
  \/ (exists z, x = Number.Finite z /\ y = Number.Infinity false)
  \/ (exists z z', x = Number.Finite z /\ y = Number.Finite z' /\ (z <= z')%Q) ->
  (timer (Number.floor (Number.min x (Number.Finite m)))
   <= timer (Number.floor (Number.min y (Number.Finite m))))%Z.
Proof.
  intros [[-> ->]|[(z & -> & ->)|(z & z' & -> & -> & Hz)]].
  - done.
  - rewrite timer_capped_Infinity, timer_capped_Finite.
    apply Qfloor_resp_le, Q.le_min_r.
  - rewrite !timer_capped_Finite. by apply Qfloor_resp_le, Q.min_le_compat_r.
Qed.

(** The correctly rounded power does not decrease with the exponent on a
    base of at least 1. *)
Lemma pow_monotone : Engine.monotone Number.pow.
Proof.
  intros x n n' Hx Hn. unfold Number.pow.
  destruct (Qeq_bool x 0) eqn:E0; [apply Qeq_bool_iff in E0; lra|]. cbn [andb].
  assert (Ha : (0 <= x ^ n)%Q) by (apply Qpower_0_le; lra).
  assert (Hab : (x ^ n <= x ^ n')%Q) by (by apply Qpower_le_compat_l).
  destruct (of_Q_monotone _ _ Ha Hab) as [[-> ->]|[[-> ->]|(-> & -> & Hr)]];
    [done | done |]. by apply Qle_bool_iff.
Qed.

Variable Math_pow : Engine.power.
Hypothesis Hpos : Engine.nonnegative Math_pow.
Hypothesis Hmono : Engine.monotone Math_pow.

(** The powers of two exponents in order, for a base of at least 1. *)
Lemma power_ordered x n n' :
  (1 <= x)%Q -> (n <= n')%Z ->
  (Math_pow x n = Number.Infinity false /\ Math_pow x n' = Number.Infinity false)
  \/ (exists y, Math_pow x n = Number.Finite y /\ (0 <= y)%Q
                /\ Math_pow x n' = Number.Infinity false)
  \/ (exists y y', Math_pow x n = Number.Finite y /\ Math_pow x n' = Number.Finite y'
                   /\ (0 <= y)%Q /\ (y <= y')%Q).
Proof.
  intros Hx Hn. pose proof (Hmono x n n' Hx Hn) as Hle.
  assert (H0 : (0 <= x)%Q) by lra.
  destruct (power_nonneg Math_pow Hpos x n H0) as [E|(y & E & Hy)];
    destruct (power_nonneg Math_pow Hpos x n' H0) as [E'|(y' & E' & Hy')];
    rewrite E, E' in Hle |- *; cbn [Number.leb negb] in Hle.
  - by left.
  - done.
  - right. left. by exists y.
  - right. right. exists y, y'. apply Qle_bool_iff in Hle. done.
Qed.

Lemma capped_timer_monotone this k k' :
  (0 <= baseDelay this)%Q -> (1 <= backoffMultiplier this)%Q ->
  (k <= k')%Z ->
  (timer (Number.floor (capped Math_pow this k))
   <= timer (Number.floor (capped Math_pow this k')))%Z.
Proof.
  intros Hb Hm Hk. unfold capped.
  destruct (power_ordered (backoffMultiplier this) (k - 1) (k' - 1) Hm)
    as [[-> ->]|[(a & -> & Ha & ->)|(a & b & -> & -> & Ha & Hab)]]; [lia | | |].
  - done.
  - cbn [Number.mul].
    destruct (Qeq_bool (baseDelay this) 0) eqn:Eb.
    + apply Qeq_bool_iff in Eb.
      assert (Hz : Number.of_Q (baseDelay this * a) = Number.Finite 0).
      { unfold Number.of_Q. rewrite (round_zero (baseDelay this * a)); [done|].
        rewrite Eb. ring. }
      rewrite Hz, timer_capped_Finite. simpl.
      rewrite <- (Qfloor_Z 0). apply Qfloor_resp_le.
      change (inject_Z 0) with 0%Q. apply Q.le_min_l.
    + assert (Hs : Qle_bool 0 (baseDelay this) = true) by (by apply Qle_bool_iff).
      rewrite Hs. cbn [negb xorb]. apply timer_capped_monotone.
      assert (Hp : (0 <= baseDelay this * a)%Q).
      { by apply Qmult_le_0_compat. }
      destruct (of_Q_nonneg _ Hp) as [[-> _]|[-> _]]; [by left|].
      right. left. by eexists.
  - cbn [Number.mul]. apply timer_capped_monotone.
    assert (Hp : (0 <= baseDelay this * a)%Q).
    { by apply Qmult_le_0_compat. }
    assert (Hq : (baseDelay this * a <= baseDelay this * b)%Q).
    { rewrite !(Qmult_comm (baseDelay this)). by apply Qmult_le_compat_r. }
    destruct (of_Q_monotone _ _ Hp Hq) as [[-> ->]|[[-> ->]|(-> & -> & Hz)]].
    + by left.
    + right. left. by eexists.
    + right. right. by eexists _, _.
Qed.

(** With a positive base delay and a non-negative multiplier the delay
    before jitter is a finite double. *)
Lemma capped_is_finite this attempt :
  (0 < baseDelay this)%Q -> (0 <= backoffMultiplier this)%Q ->
  exists d, capped Math_pow this attempt = Number.Finite d.
Proof.
  intros Hb Hm. unfold capped.
  pose proof (power_nonneg Math_pow Hpos (backoffMultiplier this) (attempt - 1) Hm) as Hp.
  destruct (product_nonneg (baseDelay this) _ Hb Hp) as [->|(z & -> & _)].
  - rewrite min_Infinity. by eexists.
  - destruct (min_Finite z (maxDelay this)) as (y & -> & _). by eexists.
Qed.

End Backoff.

(** X21 (RetryHandler.calculateDelay, jitter off). With [jitter] false,
    a non-negative base delay and a multiplier of at least 1, computing the
    delay draws no random number and leaves the world as it is, and the delay
    of a later attempt is never shorter than that of an earlier one: the
    timer waits at least as long.  With a positive base delay both delays are
    whole numbers of milliseconds in this order.  The arithmetic is that of
    doubles; of [Math.pow] it is used that the powers of the multiplier are
    not negative and do not decrease with the exponent. *)
Theorem backoff_without_jitter_is_monotone
    {S : Type} (Math_pow : Engine.power) (this : RetryHandler.RetryOptions)
    (k k' : Z) (w : Async.World S) :
  Engine.nonnegative Math_pow ->
  Engine.monotone Math_pow ->
  RetryHandler.jitter this = false ->
  (0 <= RetryHandler.baseDelay this)%Q ->
  (1 <= RetryHandler.backoffMultiplier this)%Q ->
  (k <= k')%Z ->
  snd (RetryHandler.calculateDelay Math_pow this k w) = w
  /\ snd (RetryHandler.calculateDelay Math_pow this k' w) = w
  /\ (Async.timer (fst (RetryHandler.calculateDelay Math_pow this k w))
      <= Async.timer (fst (RetryHandler.calculateDelay Math_pow this k' w)))%Z
  /\ ((0 < RetryHandler.baseDelay this)%Q ->
      exists n n',
        fst (RetryHandler.calculateDelay Math_pow this k w) = Number.Finite (inject_Z n)
        /\ fst (RetryHandler.calculateDelay Math_pow this k' w)
           = Number.Finite (inject_Z n')
        /\ (n <= n')%Z).
Proof.
  intros Hpos Hmono Hj Hb Hm Hk.
  unfold RetryHandler.calculateDelay, RetryHandler.jittered.
  rewrite Hj. cbn [fst snd].
  pose proof (capped_timer_monotone Math_pow Hpos Hmono this k k' Hb Hm Hk) as Hle.
  split; [done|]. split; [done|]. split; [done|].
  intros Hlt.
  destruct (capped_is_finite Math_pow Hpos this k Hlt) as [d Hd]; [lra|].
  destruct (capped_is_finite Math_pow Hpos this k' Hlt) as [d' Hd']; [lra|].
  rewrite Hd, Hd' in Hle |- *. cbn [Number.floor Async.timer] in Hle |- *.
  rewrite !Qfloor_Z in Hle. by eexists _, _.
Qed.

Lemma backoff_without_jitter_witness :
  (Async.timer
     (fst (RetryHandler.calculateDelay Number.pow
             (RetryHandler.new
                {| RetryHandler.maxAttempts_opt := None;
                   RetryHandler.baseDelay_opt := None;
                   RetryHandler.maxDelay_opt := None;
                   RetryHandler.backoffMultiplier_opt := None;
                   RetryHandler.jitter_opt := Some false;
                   RetryHandler.retryCondition_opt := None |}) 2 Sample.world0))
   <= Async.timer
        (fst (RetryHandler.calculateDelay Number.pow
                (RetryHandler.new
                   {| RetryHandler.maxAttempts_opt := None;
                      RetryHandler.baseDelay_opt := None;
                      RetryHandler.maxDelay_opt := None;
                      RetryHandler.backoffMultiplier_opt := None;
                      RetryHandler.jitter_opt := Some false;
                      RetryHandler.retryCondition_opt := None |}) 7 Sample.world0)))%Z.
Proof.
  apply (backoff_without_jitter_is_monotone Number.pow
           (RetryHandler.new
             {| RetryHandler.maxAttempts_opt := None;
                RetryHandler.baseDelay_opt := None;
                RetryHandler.maxDelay_opt := None;
                RetryHandler.backoffMultiplier_opt := None;
                RetryHandler.jitter_opt := Some false;
                RetryHandler.retryCondition_opt := None |}) 2 7 Sample.world0).
  - exact pow_nonnegative.
  - exact pow_monotone.
  - reflexivity.
  - by vm_compute.
  - by vm_compute.
  - lia.
Defined.

(** Without jitter the delay is the floor of a product of doubles as well:
    0.7 (the double) times 10 is the double 7, where exact arithmetic
    stays below 7. *)
Example capped_rounds :
  RetryHandler.jittered Number.pow
    {| RetryHandler.maxAttempts := 3; RetryHandler.baseDelay := Sample.seven_tenths;
       RetryHandler.maxDelay := 10000; RetryHandler.backoffMultiplier := 10;
       RetryHandler.jitter := false; RetryHandler.retryCondition := fun _ => true |}
    2 0
  = Number.Finite 7
  /\ Qfloor (Sample.seven_tenths * 10) = 6%Z.
Proof. split; vm_compute; reflexivity. Qed.
